(** * Royal Code: the modal manager and the widgets of [dist/royal.js]

    A shallow embedding of [class ModalManager] (registry, active modal,
    sequential queue, shared body scroll lock, the 10ms and 300ms timers) and
    the properties of its specification, followed by the widgets around it:
    [HamburgerMenu], [Tabs], [Accordion], [Dropdown], [Lightbox], [Toast],
    [StickyHeader], [FormValidator], and [Utils.debounce] and
    [Utils.throttle].

    Conventions of the embedding.
    - DOM elements are heap objects: a handle ([Elem]) into a store [dom]
      that holds each element's [classList] and [style.display]. Two modal
      records may hold the same handle.
    - [setTimeout] appends a pending timer carrying its due time and the
      closure it captured (the modal record, not the id that found it).
    - Host callbacks ([onOpen], [onClose], [beforeClose]) are opaque: a call
      is recorded in [log]; what [beforeClose] returns may depend on the
      calls recorded so far. Callbacks are taken not to call back into the
      manager and not to throw. *)

From Stdlib Require Import List String Bool Arith ZArith Lia DecimalString.
Import ListNotations.
Open Scope string_scope.
Open Scope list_scope.

(* ================================================================= *)
(** ** JavaScript values and the DOM *)

Inductive JsVal : Type :=
| VUndefined
| VNull
| VBool (b : bool)
| VNum (n : Z)
| VStr (s : string).

(** [v === false] *)
Definition is_false (v : JsVal) : bool :=
  match v with
  | VBool false => true
  | _ => false
  end.

(** Truthiness of an id slot holding [null] or a string. *)
Definition truthy (o : option string) : bool :=
  match o with
  | Some s => negb (String.eqb s "")
  | None => false
  end.

(** [slot === id] for a slot holding [null] or a string. *)
Definition same_id (slot : option string) (id : string) : bool :=
  match slot with
  | Some s => String.eqb s id
  | None => false
  end.

Definition Elem := nat.

Record ElemState : Type := mkElem {
  classList : list string;
  display : string
}.

Module ClassList.
Definition contains (c : string) (l : list string) : bool :=
  existsb (String.eqb c) l.

Definition add (c : string) (l : list string) : list string :=
  if contains c l then l else l ++ [c].

Definition remove (c : string) (l : list string) : list string :=
  filter (fun x => negb (String.eqb c x)) l.
End ClassList.

Definition Dom := Elem -> ElemState.

Definition dom_update (e : Elem) (f : ElemState -> ElemState) (d : Dom) : Dom :=
  fun x => if Nat.eqb x e then f (d x) else d x.

Definition is_active (d : Dom) (e : Elem) : bool :=
  ClassList.contains "active" (classList (d e)).

Definition is_shown (d : Dom) (e : Elem) : bool :=
  ClassList.contains "show" (classList (d e)).

(* ================================================================= *)
(** ** Callbacks, records, timers, listeners *)

Definition Callback := nat.

Inductive Event : Type :=
| EvOnOpen (cb : Callback) (data : JsVal)
| EvOnClose (cb : Callback)
| EvBeforeClose (cb : Callback).

Record BeforeClose : Type := mkBeforeClose {
  bc_fn : Callback;
  bc_ret : list Event -> JsVal
}.

Record ModalOptions : Type := mkModalOptions {
  onOpen : option Callback;
  onClose : option Callback;
  beforeClose : option BeforeClose;
  opt_closeOnOverlay : bool
}.

Record Modal : Type := mkModal {
  element : Elem;
  overlay : option Elem;
  closeBtn : option Elem;
  options : ModalOptions
}.

(** The [options] argument of [register]. *)
Record RegisterOptions : Type := mkRegisterOptions {
  ro_onOpen : option Callback;
  ro_onClose : option Callback;
  ro_beforeClose : option BeforeClose;
  ro_closeOnOverlay : JsVal
}.

Inductive TimerAct : Type :=
| ShowTimer (modal : Modal)
| SettleTimer (modalId : string) (modal : Modal) (silent : bool).

Record Timer : Type := mkTimer {
  due : nat;
  act : TimerAct
}.

Inductive Handler : Type :=
| CloseBtnClick (id : string)
| OverlayClick (ov : Elem) (id : string)
| TriggerClick (targetId : string)
| EscKeydown.

Record Listener : Type := mkListener {
  target : Elem;
  handler : Handler
}.

(** The [document] node, target of the Escape listener. *)
Definition document : Elem := 0.

(* ================================================================= *)
(** ** The registry: a JS [Map], insertion ordered *)

Module JsMap.
Section WithValue.
Context {V : Type}.

Fixpoint get (k : string) (m : list (string * V)) : option V :=
  match m with
  | [] => None
  | (k', v) :: m' => if String.eqb k' k then Some v else get k m'
  end.

(** [Map.prototype.set]: an existing key keeps its position. *)
Fixpoint set (k : string) (v : V) (m : list (string * V)) : list (string * V) :=
  match m with
  | [] => [(k, v)]
  | (k', v') :: m' => if String.eqb k' k then (k, v) :: m' else (k', v') :: set k v m'
  end.

Definition keys (m : list (string * V)) : list string := map fst m.
End WithValue.
End JsMap.

(* ================================================================= *)
(** ** Controller state *)

Record State : Type := mkState {
  modals : list (string * Modal);
  activeModal : option string;
  queue : list (string * JsVal);
  closeOnOverlay : bool;
  closeOnEsc : bool;
  bodyScrollLock : bool;
  sequential : bool;
  (* the host environment *)
  dom : Dom;
  bodyOverflow : string;
  clock : nat;
  timers : list Timer;
  listeners : list Listener;
  log : list Event
}.

Definition set_modals (m : list (string * Modal)) (st : State) : State :=
  mkState m (activeModal st) (queue st) (closeOnOverlay st) (closeOnEsc st)
    (bodyScrollLock st) (sequential st) (dom st) (bodyOverflow st) (clock st)
    (timers st) (listeners st) (log st).

Definition set_activeModal (a : option string) (st : State) : State :=
  mkState (modals st) a (queue st) (closeOnOverlay st) (closeOnEsc st)
    (bodyScrollLock st) (sequential st) (dom st) (bodyOverflow st) (clock st)
    (timers st) (listeners st) (log st).

Definition set_queue (q : list (string * JsVal)) (st : State) : State :=
  mkState (modals st) (activeModal st) q (closeOnOverlay st) (closeOnEsc st)
    (bodyScrollLock st) (sequential st) (dom st) (bodyOverflow st) (clock st)
    (timers st) (listeners st) (log st).

Definition set_dom (d : Dom) (st : State) : State :=
  mkState (modals st) (activeModal st) (queue st) (closeOnOverlay st) (closeOnEsc st)
    (bodyScrollLock st) (sequential st) d (bodyOverflow st) (clock st)
    (timers st) (listeners st) (log st).

Definition set_bodyOverflow (o : string) (st : State) : State :=
  mkState (modals st) (activeModal st) (queue st) (closeOnOverlay st) (closeOnEsc st)
    (bodyScrollLock st) (sequential st) (dom st) o (clock st)
    (timers st) (listeners st) (log st).

Definition set_clock (c : nat) (st : State) : State :=
  mkState (modals st) (activeModal st) (queue st) (closeOnOverlay st) (closeOnEsc st)
    (bodyScrollLock st) (sequential st) (dom st) (bodyOverflow st) c
    (timers st) (listeners st) (log st).

Definition set_timers (t : list Timer) (st : State) : State :=
  mkState (modals st) (activeModal st) (queue st) (closeOnOverlay st) (closeOnEsc st)
    (bodyScrollLock st) (sequential st) (dom st) (bodyOverflow st) (clock st)
    t (listeners st) (log st).

Definition set_listeners (l : list Listener) (st : State) : State :=
  mkState (modals st) (activeModal st) (queue st) (closeOnOverlay st) (closeOnEsc st)
    (bodyScrollLock st) (sequential st) (dom st) (bodyOverflow st) (clock st)
    (timers st) l (log st).

Definition set_log (l : list Event) (st : State) : State :=
  mkState (modals st) (activeModal st) (queue st) (closeOnOverlay st) (closeOnEsc st)
    (bodyScrollLock st) (sequential st) (dom st) (bodyOverflow st) (clock st)
    (timers st) (listeners st) l.

(** *** Host primitives *)

(** [el.classList.add(c)] *)
Definition classList_add (e : Elem) (c : string) (st : State) : State :=
  set_dom (dom_update e (fun s => mkElem (ClassList.add c (classList s)) (display s)) (dom st)) st.

(** [el.classList.remove(c)] *)
Definition classList_remove (e : Elem) (c : string) (st : State) : State :=
  set_dom (dom_update e (fun s => mkElem (ClassList.remove c (classList s)) (display s)) (dom st)) st.

(** [el.style.display = v] *)
Definition style_display (e : Elem) (v : string) (st : State) : State :=
  set_dom (dom_update e (fun s => mkElem (classList s) v) (dom st)) st.

(** [setTimeout(f, delay)] *)
Definition setTimeout (a : TimerAct) (delay : nat) (st : State) : State :=
  set_timers (timers st ++ [mkTimer (clock st + delay) a]) st.

(** [Utils.on(el, 'click' | 'keydown', h)] *)
Definition on (e : Elem) (h : Handler) (st : State) : State :=
  set_listeners (listeners st ++ [mkListener e h]) st.

(** Calling a host callback. *)
Definition call (ev : Event) (st : State) : State :=
  set_log (log st ++ [ev]) st.

(* ================================================================= *)
(** ** [class ModalManager] *)

(** [hasOtherActiveModals()]: counts every registered modal whose element
    carries the [active] class and answers [count > 0]. *)
Definition hasOtherActiveModals (st : State) : bool :=
  let count :=
    fold_left
      (fun c (entry : string * Modal) =>
         if is_active (dom st) (element (snd entry)) then S c else c)
      (modals st) 0 in
  Nat.ltb 0 count.

(** [const modalId = id || this.activeModal; if (!modalId) return;] *)
Definition close_target (id : option string) (st : State) : option string :=
  let modalId := if truthy id then id else activeModal st in
  if truthy modalId then modalId else None.

(** The [beforeClose] consultation of [close]: the state after the call
    (if any was made) and whether the close is vetoed. *)
Definition consult_beforeClose (modal : Modal) (silent : bool) (st : State)
  : State * bool :=
  match beforeClose (options modal) with
  | Some bc =>
      if negb silent
      then (call (EvBeforeClose (bc_fn bc)) st, is_false (bc_ret bc (log st)))
      else (st, false)
  | None => (st, false)
  end.

(** [close(id = null, silent = false)], up to and including the scheduling
    of the 300ms callback. *)
Definition close (id : option string) (silent : bool) (st : State) : State :=
  match close_target id st with
  | None => st
  | Some modalId =>
      match JsMap.get modalId (modals st) with
      | None => st
      | Some modal =>
          let (st1, veto) := consult_beforeClose modal silent st in
          if veto then st1
          else
            let st2 := classList_remove (element modal) "show" st1 in
            setTimeout (SettleTimer modalId modal silent) 300 st2
      end
  end.

(** [open(id, data = null)] *)
Definition open (id : string) (data : JsVal) (st : State) : State :=
  let data := match data with VUndefined => VNull | _ => data end in
  if sequential st && truthy (activeModal st)
  then set_queue (queue st ++ [(id, data)]) st
  else
    match JsMap.get id (modals st) with
    | None => st
    | Some modal =>
        let st1 :=
          if truthy (activeModal st) && negb (same_id (activeModal st) id)
          then close (activeModal st) true st
          else st in
        let st2 := classList_add (element modal) "active" st1 in
        let st3 := style_display (element modal) "flex" st2 in
        let st4 := if bodyScrollLock st3 then set_bodyOverflow "hidden" st3 else st3 in
        let st5 := set_activeModal (Some id) st4 in
        let st6 := setTimeout (ShowTimer modal) 10 st5 in
        match onOpen (options modal) with
        | Some cb => call (EvOnOpen cb data) st6
        | None => st6
        end
    end.

(** The callback [close] hands to [setTimeout(..., 300)]. *)
Definition settle (modalId : string) (modal : Modal) (silent : bool) (st : State)
  : State :=
  let st1 := classList_remove (element modal) "active" st in
  let st2 := style_display (element modal) "" st1 in
  let st3 :=
    if bodyScrollLock st2 && negb (hasOtherActiveModals st2)
    then set_bodyOverflow "" st2
    else st2 in
  let st4 := if same_id (activeModal st3) modalId then set_activeModal None st3 else st3 in
  let st5 :=
    match onClose (options modal) with
    | Some cb => if negb silent then call (EvOnClose cb) st4 else st4
    | None => st4
    end in
  match queue st5 with
  | [] => st5
  | (nid, ndata) :: rest => open nid ndata (set_queue rest st5)
  end.

(** The callback [open] hands to [setTimeout(..., 10)]. *)
Definition show (modal : Modal) (st : State) : State :=
  classList_add (element modal) "show" st.

(** [closeAll()] *)
Definition closeAll (st : State) : State :=
  let st1 :=
    fold_left (fun s (entry : string * Modal) => close (Some (fst entry)) true s)
      (modals st) st in
  set_queue [] st1.

(** [register(id, element, options = {})]; [ov] and [btn] are what
    [element.querySelector] finds for the overlay and the close button. *)
Definition register (id : string) (el : Elem) (ov btn : option Elem)
    (o : RegisterOptions) (st : State) : State :=
  let modal :=
    mkModal el ov btn
      (mkModalOptions (ro_onOpen o) (ro_onClose o) (ro_beforeClose o)
         (if negb (is_false (ro_closeOnOverlay o)) then closeOnOverlay st else false)) in
  let st1 := set_modals (JsMap.set id modal (modals st)) st in
  let st2 :=
    match btn with
    | Some b => on b (CloseBtnClick id) st1
    | None => st1
    end in
  match ov with
  | Some v => if closeOnOverlay st2 then on v (OverlayClick v id) st2 else st2
  | None => st2
  end.

(** Constructor options, each read as the constructor reads it. *)
Record ManagerOptions : Type := mkManagerOptions {
  mo_closeOnOverlay : JsVal;
  mo_closeOnEsc : JsVal;
  mo_bodyScrollLock : JsVal;
  mo_sequential : bool
}.

(** What [init] finds in the page: the modal elements with the id resolved
    for each and their overlay and close button, and the trigger elements
    with their target ids. *)
Record Page : Type := mkPage {
  page_dom : Dom;
  page_overflow : string;
  page_modals : list (string * Elem * option Elem * option Elem);
  page_triggers : list (Elem * string)
}.

Definition no_options : RegisterOptions :=
  mkRegisterOptions None None None VUndefined.

(** [init()] *)
Definition init (pg : Page) (st : State) : State :=
  let st1 :=
    fold_left
      (fun s (m : string * Elem * option Elem * option Elem) =>
         let '(id, el, ov, btn) := m in register id el ov btn no_options s)
      (page_modals pg) st in
  let st2 :=
    fold_left
      (fun s (t : Elem * string) => on (fst t) (TriggerClick (snd t)) s)
      (page_triggers pg) st1 in
  if closeOnEsc st2 then on document EscKeydown st2 else st2.

(** [new ModalManager(options)] *)
Definition new_ModalManager (o : ManagerOptions) (pg : Page) : State :=
  init pg
    (mkState [] None []
       (negb (is_false (mo_closeOnOverlay o)))
       (negb (is_false (mo_closeOnEsc o)))
       (negb (is_false (mo_bodyScrollLock o)))
       (mo_sequential o)
       (page_dom pg) (page_overflow pg) 0 [] [] []).

(* ================================================================= *)
(** ** The event loop *)

(** Running one listener for an event whose [e.target] is [etarget]. *)
Definition handle (etarget : Elem) (h : Handler) (st : State) : State :=
  match h with
  | CloseBtnClick id => close (Some id) false st
  | OverlayClick ov id => if Nat.eqb etarget ov then close (Some id) false st else st
  | TriggerClick targetId => open targetId VUndefined st
  | EscKeydown => if truthy (activeModal st) then close None false st else st
  end.

Definition is_click (h : Handler) : bool :=
  match h with
  | EscKeydown => false
  | _ => true
  end.

(** An event reaching node [current]: its listeners of the event's kind run
    in the order they were added. *)
Definition dispatch (click : bool) (etarget current : Elem) (st : State) : State :=
  fold_left
    (fun s (l : Listener) =>
       if Nat.eqb (target l) current && Bool.eqb (is_click (handler l)) click
       then handle etarget (handler l) s
       else s)
    (listeners st) st.

Fixpoint remove_nth {A : Type} (i : nat) (l : list A) : list A :=
  match l, i with
  | [], _ => []
  | _ :: l', O => l'
  | x :: l', S i' => x :: remove_nth i' l'
  end.

Definition run_timer (t : Timer) (st : State) : State :=
  match act t with
  | ShowTimer modal => show modal st
  | SettleTimer modalId modal silent => settle modalId modal silent st
  end.

(** The [i]-th pending timer fires (nothing happens when there is none). *)
Definition fire (i : nat) (st : State) : State :=
  match nth_error (timers st) i with
  | None => st
  | Some t =>
      run_timer t
        (set_clock (Nat.max (clock st) (due t))
           (set_timers (remove_nth i (timers st)) st))
  end.

(** Index of the timer the host fires next: the least due time, the one
    scheduled first among equals. *)
Fixpoint earliest_from (ts : list Timer) (i : nat) (best : nat * nat) : nat :=
  match ts with
  | [] => fst best
  | t :: ts' =>
      if Nat.ltb (due t) (snd best)
      then earliest_from ts' (S i) (i, due t)
      else earliest_from ts' (S i) best
  end.

Definition earliest (ts : list Timer) : option nat :=
  match ts with
  | [] => None
  | t :: ts' => Some (earliest_from ts' 1 (0, due t))
  end.

Definition tick (st : State) : State :=
  match earliest (timers st) with
  | None => st
  | Some i => fire i st
  end.

(** Let the host run pending timers, in firing order, [n] times. *)
Fixpoint ticks (n : nat) (st : State) : State :=
  match n with
  | O => st
  | S n' => ticks n' (tick st)
  end.

(** What can happen to a manager. [Fire] lets any pending timer fire, so a
    property of every trace holds for every schedule of the host. [Click]
    and [Keydown] (of the Escape key) deliver the event to one node of its
    path, [current]; an event that bubbles is delivered to each node of the
    path in turn, [document] last, so a key pressed on any element is
    [Keydown document] when it gets there. *)
Inductive Action : Type :=
| Open (id : string) (data : JsVal)
| Close (id : option string) (silent : bool)
| CloseAll
| Register (id : string) (el : Elem) (ov btn : option Elem) (o : RegisterOptions)
| Click (etarget current : Elem)
| Keydown (current : Elem)
| Fire (i : nat)
| Elapse (d : nat).

Definition step (a : Action) (st : State) : State :=
  match a with
  | Open id data => open id data st
  | Close id silent => close id silent st
  | CloseAll => closeAll st
  | Register id el ov btn o => register id el ov btn o st
  | Click etarget current => dispatch true etarget current st
  | Keydown current => dispatch false current current st
  | Fire i => fire i st
  | Elapse d => set_clock (clock st + d) st
  end.

Definition run (tr : list Action) (st : State) : State :=
  fold_left (fun s a => step a s) tr st.

Definition is_register (a : Action) : bool :=
  match a with
  | Register _ _ _ _ _ => true
  | _ => false
  end.

(* ================================================================= *)
(** ** The page the other widgets share

    The widgets below work on the same document as the modal manager: the
    elements' class lists and [style.display], [document.body.style.overflow],
    and the host callbacks they call (recorded with their arguments). *)

Record Host : Type := mkHost {
  h_dom : Dom;
  h_overflow : string;
  h_calls : list (Callback * list JsVal)
}.

(** The page as the modal manager's state has it, and a page put back. *)
Definition host_of (st : State) (calls : list (Callback * list JsVal)) : Host :=
  mkHost (dom st) (bodyOverflow st) calls.

Definition with_host (h : Host) (st : State) : State :=
  set_bodyOverflow (h_overflow h) (set_dom (h_dom h) st).

Definition h_classList_add (e : Elem) (c : string) (h : Host) : Host :=
  mkHost (dom_update e (fun s => mkElem (ClassList.add c (classList s)) (display s))
            (h_dom h))
    (h_overflow h) (h_calls h).

Definition h_classList_remove (e : Elem) (c : string) (h : Host) : Host :=
  mkHost (dom_update e (fun s => mkElem (ClassList.remove c (classList s)) (display s))
            (h_dom h))
    (h_overflow h) (h_calls h).

Definition h_style_display (e : Elem) (v : string) (h : Host) : Host :=
  mkHost (dom_update e (fun s => mkElem (classList s) v) (h_dom h))
    (h_overflow h) (h_calls h).

Definition h_set_overflow (v : string) (h : Host) : Host :=
  mkHost (h_dom h) v (h_calls h).

Definition h_call (cb : Callback) (args : list JsVal) (h : Host) : Host :=
  mkHost (h_dom h) (h_overflow h) (h_calls h ++ [(cb, args)]).

Definition h_contains (h : Host) (e : Elem) (c : string) : bool :=
  ClassList.contains c (classList (h_dom h e)).

(* ================================================================= *)
(** ** [class HamburgerMenu] *)

Module HamburgerMenu.

Record t : Type := mk {
  hamburger : Elem;
  menu : Elem;
  overlay : option Elem;
  closeOnLinkClick : bool;
  closeOnOverlay : bool;
  closeOnEsc : bool;
  bodyScrollLock : bool;
  activeClass : string;
  onOpen : option Callback;
  onClose : option Callback
}.

(** [isOpen()] *)
Definition isOpen (m : t) (h : Host) : bool :=
  h_contains h (menu m) (activeClass m).

(** [open()] *)
Definition open (m : t) (h : Host) : Host :=
  let h1 := h_classList_add (hamburger m) (activeClass m) h in
  let h2 := h_classList_add (menu m) (activeClass m) h1 in
  let h3 :=
    match overlay m with
    | Some ov => h_classList_add ov (activeClass m) h2
    | None => h2
    end in
  let h4 := if bodyScrollLock m then h_set_overflow "hidden" h3 else h3 in
  match onOpen m with
  | Some cb => h_call cb [] h4
  | None => h4
  end.

(** [close()] *)
Definition close (m : t) (h : Host) : Host :=
  let h1 := h_classList_remove (hamburger m) (activeClass m) h in
  let h2 := h_classList_remove (menu m) (activeClass m) h1 in
  let h3 :=
    match overlay m with
    | Some ov => h_classList_remove ov (activeClass m) h2
    | None => h2
    end in
  let h4 := if bodyScrollLock m then h_set_overflow "" h3 else h3 in
  match onClose m with
  | Some cb => h_call cb [] h4
  | None => h4
  end.

(** [toggle()] *)
Definition toggle (m : t) (h : Host) : Host :=
  if isOpen m h then close m h else open m h.

(** The listeners [init] adds, in order: the hamburger's click, the
    overlay's, each menu link's, and the Escape key on [document]. *)
Inductive Handler : Type :=
| HamburgerClick
| OverlayClick
| LinkClick
| EscKeydown.

Definition init (m : t) (links : list Elem) : list (Elem * Handler) :=
  [(hamburger m, HamburgerClick)]
  ++ match overlay m with
     | Some ov => if closeOnOverlay m then [(ov, OverlayClick)] else []
     | None => []
     end
  ++ (if closeOnLinkClick m then map (fun l => (l, LinkClick)) links else [])
  ++ (if closeOnEsc m then [(document, EscKeydown)] else []).

Definition handle (m : t) (hd : Handler) (h : Host) : Host :=
  match hd with
  | HamburgerClick => toggle m h
  | OverlayClick => close m h
  | LinkClick => close m h
  | EscKeydown => if isOpen m h then close m h else h
  end.

End HamburgerMenu.

(* ================================================================= *)
(** ** [class Tabs] *)

Module Tabs.

Record t : Type := mk {
  triggers : list Elem;
  panels : list Elem;
  activeClass : string;
  onChange : option Callback
}.

(** [activate(index)], for an array index. *)
Definition activate (tb : t) (index : nat) (h : Host) : Host :=
  let h1 :=
    fold_left (fun s e => h_classList_remove e (activeClass tb) s) (triggers tb) h in
  let h2 :=
    fold_left
      (fun s p => h_style_display p "none" (h_classList_remove p (activeClass tb) s))
      (panels tb) h1 in
  let h3 :=
    match nth_error (triggers tb) index with
    | Some e => h_classList_add e (activeClass tb) h2
    | None => h2
    end in
  let h4 :=
    match nth_error (panels tb) index with
    | Some p => h_style_display p "block" (h_classList_add p (activeClass tb) h3)
    | None => h3
    end in
  match onChange tb with
  | Some cb => h_call cb [VNum (Z.of_nat index)] h4
  | None => h4
  end.

(** The click listeners [init] adds: trigger [i] activates tab [i]. *)
Definition init (tb : t) : list (Elem * nat) :=
  combine (triggers tb) (seq 0 (List.length (triggers tb))).

End Tabs.

(* ================================================================= *)
(** ** Timers of the widgets

    A widget's pending [setTimeout] callbacks, each with its due time, in
    scheduling order; the host fires the one due first, the one scheduled
    first among equals. *)

Module Timers.
Section WithAction.
Context {A : Type}.

Fixpoint earliest_from (ts : list (nat * A)) (i : nat) (best : nat * nat) : nat :=
  match ts with
  | [] => fst best
  | t :: ts' =>
      if Nat.ltb (fst t) (snd best)
      then earliest_from ts' (S i) (i, fst t)
      else earliest_from ts' (S i) best
  end.

Definition earliest (ts : list (nat * A)) : option nat :=
  match ts with
  | [] => None
  | t :: ts' => Some (earliest_from ts' 1 (0, fst t))
  end.

End WithAction.
End Timers.

(* ================================================================= *)
(** ** [class Accordion] *)

Module Accordion.

(** What the accordion reads and writes of an element: its class list,
    [style.maxHeight], [style.overflow], and [scrollHeight] (layout, read
    only). *)
Record Node : Type := mkNode {
  classes : list string;
  maxHeight : string;
  overflow : string;
  scrollHeight : nat
}.

(** An item as [init] and [closeAll] find it: its trigger and its content,
    when it has them. *)
Record Item : Type := mkItem {
  item : Elem;
  trigger : option Elem;
  content : option Elem
}.

Record t : Type := mk {
  items : list Item;
  allowMultiple : bool;
  activeClass : string;
  duration : nat
}.

Record World : Type := mkWorld {
  store : Elem -> Node;
  clock : nat;
  (* pending [content.style.overflow = 'visible'] callbacks *)
  timers : list (nat * Elem)
}.

Definition update (e : Elem) (f : Node -> Node) (w : World) : World :=
  mkWorld (fun x => if Nat.eqb x e then f (store w x) else store w x)
    (clock w) (timers w).

Definition isActive (a : t) (w : World) (it : Elem) : bool :=
  ClassList.contains (activeClass a) (classes (store w it)).

(** [scrollHeight + 'px'] *)
Definition px (n : nat) : string :=
  NilZero.string_of_uint (Nat.to_uint n) ++ "px".

(** [open(item, content)] *)
Definition open (a : t) (it ct : Elem) (w : World) : World :=
  let w1 :=
    update it
      (fun n => mkNode (ClassList.add (activeClass a) (classes n)) (maxHeight n)
                  (overflow n) (scrollHeight n)) w in
  let w2 :=
    update ct
      (fun n => mkNode (classes n) (px (scrollHeight n)) (overflow n) (scrollHeight n))
      w1 in
  mkWorld (store w2) (clock w2) (timers w2 ++ [(clock w2 + duration a, ct)]).

(** [close(item, content)] *)
Definition close (a : t) (it ct : Elem) (w : World) : World :=
  let w1 :=
    update it
      (fun n => mkNode (ClassList.remove (activeClass a) (classes n)) (maxHeight n)
                  (overflow n) (scrollHeight n)) w in
  let w2 :=
    update ct (fun n => mkNode (classes n) (maxHeight n) "hidden" (scrollHeight n)) w1 in
  update ct (fun n => mkNode (classes n) "0px" (overflow n) (scrollHeight n)) w2.

(** [closeAll()] *)
Definition closeAll (a : t) (w : World) : World :=
  fold_left
    (fun s (i : Item) =>
       match content i with
       | Some ct => close a (item i) ct s
       | None => s
       end)
    (items a) w.

(** [toggle(item, content)] *)
Definition toggle (a : t) (it ct : Elem) (w : World) : World :=
  let was := isActive a w it in
  let w1 := if negb (allowMultiple a) then closeAll a w else w in
  if was then close a it ct w1 else open a it ct w1.

(** [init()]: the initial styles, and the click listeners it adds (trigger,
    item, content). *)
Definition init (a : t) (w : World) : World * list (Elem * Elem * Elem) :=
  fold_left
    (fun (acc : World * list (Elem * Elem * Elem)) (i : Item) =>
       match trigger i, content i with
       | Some tr, Some ct =>
           let s := fst acc in
           let s1 :=
             if negb (isActive a s (item i))
             then
               update ct
                 (fun n => mkNode (classes n) (maxHeight n) "hidden" (scrollHeight n))
                 (update ct
                    (fun n => mkNode (classes n) "0px" (overflow n) (scrollHeight n)) s)
             else s in
           (s1, snd acc ++ [(tr, item i, ct)])
       | _, _ => acc
       end)
    (items a) (w, []).

(** The callback of [open]'s timer. *)
Definition reveal (ct : Elem) (w : World) : World :=
  update ct (fun n => mkNode (classes n) (maxHeight n) "visible" (scrollHeight n)) w.

Fixpoint remove_nth {A : Type} (i : nat) (l : list A) : list A :=
  match l, i with
  | [], _ => []
  | _ :: l', O => l'
  | x :: l', S i' => x :: remove_nth i' l'
  end.

(** The host fires the next timer. *)
Definition tick (w : World) : World :=
  match Timers.earliest (timers w) with
  | None => w
  | Some i =>
      match nth_error (timers w) i with
      | None => w
      | Some (due, ct) =>
          reveal ct (mkWorld (store w) (Nat.max (clock w) due) (remove_nth i (timers w)))
      end
  end.

End Accordion.

(* ================================================================= *)
(** ** [class Dropdown] *)

Module Dropdown.

(** A menu found by [selectAll('[data-rc-dropdown-menu]')] with what
    [closest('[data-rc-dropdown]')] answers for it ([None] for [null]). *)
Definition Menus := list (Elem * option Elem).

(** The result of a call: the page it leaves, and whether it threw. *)
Record Result : Type := mkResult {
  page : Host;
  threw : bool
}.

(** The loop in [toggle] that closes all dropdowns. Reading [classList] of
    the [null] that [closest] answered throws, after the menu itself has been
    closed, and ends the loop. *)
Fixpoint closeMenus (c : string) (ms : Menus) (h : Host) : Result :=
  match ms with
  | [] => mkResult h false
  | (m, closest) :: ms' =>
      let h1 := h_classList_remove m c h in
      match closest with
      | None => mkResult h1 true
      | Some d => closeMenus c ms' (h_classList_remove d c h1)
      end
  end.

(** [toggle(dropdown, menu)] *)
Definition toggle (c : string) (ms : Menus) (dropdown menu : Elem) (h : Host) : Result :=
  let isActive := h_contains h menu c in
  let r := closeMenus c ms h in
  if threw r then r
  else if negb isActive
       then mkResult (h_classList_add dropdown c (h_classList_add menu c (page r))) false
       else r.

End Dropdown.

(* ================================================================= *)
(** ** [class Lightbox] *)

Module Lightbox.

(** [currentIndex]: an integer, or [NaN]. *)
Inductive Index : Type :=
| Idx (z : Z)
| NaN.

(** [i + k] and [i % n] on indices. *)
Definition js_add (i : Index) (k : Z) : Index :=
  match i with
  | Idx z => Idx (z + k)
  | NaN => NaN
  end.

Definition js_mod (i : Index) (n : Z) : Index :=
  match i with
  | Idx z => if Z.eqb n 0 then NaN else Idx (Z.rem z n)
  | NaN => NaN
  end.

(** [images[i]] *)
Definition image_at (imgs : list JsVal) (i : Index) : JsVal :=
  match i with
  | Idx z =>
      if Z.ltb z 0 then VUndefined
      else match nth_error imgs (Z.to_nat z) with
           | Some v => v
           | None => VUndefined
           end
  | NaN => VUndefined
  end.

(** The callbacks given to [setTimeout]: by [open], by [close], and by
    [next] and [prev]. *)
Inductive Act : Type :=
| FadeIn
| Hide
| Swap.

Record t : Type := mk {
  images : list JsVal;
  currentIndex : Index;
  (* [this.lightbox] is set *)
  created : bool;
  (* [lightbox.style.display] and [lightbox.style.opacity] *)
  display : string;
  opacity : string;
  (* what was last assigned to [img.src], and [img.style.opacity] *)
  img_src : option JsVal;
  img_opacity : string;
  bodyOverflow : string;
  clock : nat;
  timers : list (nat * Act)
}.

(** How a call ends: it returns, or it throws, with the state it leaves. *)
Inductive Outcome : Type :=
| Done (s : t)
| Threw (s : t).

Definition state_of (r : Outcome) : t :=
  match r with
  | Done s => s
  | Threw s => s
  end.

Definition threw (r : Outcome) : bool :=
  match r with
  | Done _ => false
  | Threw _ => true
  end.

(** The constructor and [init], for the page's image sources. *)
Definition new (srcs : list JsVal) (overflow : string) : t :=
  mk srcs (Idx 0) false "" "" None "" overflow 0 [].

(** [createLightbox()] *)
Definition createLightbox (s : t) : t :=
  mk (images s) (currentIndex s) true "flex" "0" None "" (bodyOverflow s)
    (clock s) (timers s).

(** [open(index)] *)
Definition open (index : Z) (s : t) : t :=
  let s1 := if negb (created s) then createLightbox s else s in
  mk (images s1) (Idx index) true "flex" (opacity s1)
    (Some (image_at (images s1) (Idx index))) (img_opacity s1) "hidden"
    (clock s1) (timers s1 ++ [(clock s1 + 10, FadeIn)]).

(** [close()] *)
Definition close (s : t) : Outcome :=
  if negb (created s) then Threw s
  else Done (mk (images s) (currentIndex s) true (display s) "0" (img_src s)
               (img_opacity s) (bodyOverflow s) (clock s)
               (timers s ++ [(clock s + 300, Hide)])).

(** What [next] and [prev] do once the index is set. *)
Definition fade_image (index : Index) (s : t) : Outcome :=
  let s1 :=
    mk (images s) index (created s) (display s) (opacity s) (img_src s)
      (img_opacity s) (bodyOverflow s) (clock s) (timers s) in
  if negb (created s) then Threw s1
  else Done (mk (images s) index true (display s) (opacity s) (img_src s) "0"
               (bodyOverflow s) (clock s) (timers s ++ [(clock s + 150, Swap)])).

(** [next()] *)
Definition next (s : t) : Outcome :=
  fade_image
    (js_mod (js_add (currentIndex s) 1) (Z.of_nat (List.length (images s)))) s.

(** [prev()] *)
Definition prev (s : t) : Outcome :=
  fade_image
    (js_mod (js_add (js_add (currentIndex s) (-1)) (Z.of_nat (List.length (images s))))
       (Z.of_nat (List.length (images s)))) s.

(** The [keydown] listener on [document], which [createLightbox] adds. *)
Definition keydown (key : string) (s : t) : Outcome :=
  if negb (created s) then Done s
  else if String.eqb (display s) "" || String.eqb (display s) "none" then Done s
  else if String.eqb key "Escape" then close s
  else if String.eqb key "ArrowLeft" then prev s
  else if String.eqb key "ArrowRight" then next s
  else Done s.

(** A timer's callback. *)
Definition run_timer (a : Act) (s : t) : t :=
  match a with
  | FadeIn =>
      mk (images s) (currentIndex s) (created s) (display s) "1" (img_src s)
        (img_opacity s) (bodyOverflow s) (clock s) (timers s)
  | Hide =>
      mk (images s) (currentIndex s) (created s) "none" (opacity s) (img_src s)
        (img_opacity s) "" (clock s) (timers s)
  | Swap =>
      mk (images s) (currentIndex s) (created s) (display s) (opacity s)
        (Some (image_at (images s) (currentIndex s))) "1" (bodyOverflow s) (clock s)
        (timers s)
  end.

Fixpoint remove_nth {A : Type} (i : nat) (l : list A) : list A :=
  match l, i with
  | [], _ => []
  | _ :: l', O => l'
  | x :: l', S i' => x :: remove_nth i' l'
  end.

(** The host fires the next timer. *)
Definition tick (s : t) : t :=
  match Timers.earliest (timers s) with
  | None => s
  | Some i =>
      match nth_error (timers s) i with
      | None => s
      | Some (due, a) =>
          run_timer a
            (mk (images s) (currentIndex s) (created s) (display s) (opacity s)
               (img_src s) (img_opacity s) (bodyOverflow s) (Nat.max (clock s) due)
               (remove_nth i (timers s)))
      end
  end.

(** Time passes with no timer due. *)
Definition elapse (d : nat) (s : t) : t :=
  mk (images s) (currentIndex s) (created s) (display s) (opacity s) (img_src s)
    (img_opacity s) (bodyOverflow s) (clock s + d) (timers s).

(** What can happen to a lightbox: a click on image [index], on the close,
    next or previous button (or on the backdrop, which closes), a key, a
    timer, time. *)
Inductive Action : Type :=
| Open (index : nat)
| Close
| Next
| Prev
| Keydown (key : string)
| Tick
| Elapse (d : nat).

Definition step (a : Action) (s : t) : Outcome :=
  match a with
  | Open index => Done (open (Z.of_nat index) s)
  | Close => close s
  | Next => next s
  | Prev => prev s
  | Keydown key => keydown key s
  | Tick => Done (tick s)
  | Elapse d => Done (elapse d s)
  end.

(** A handler that throws ends there; the page goes on. *)
Definition run (tr : list Action) (s : t) : t :=
  fold_left (fun s a => state_of (step a s)) tr s.

End Lightbox.

(* ================================================================= *)
(** ** [class Toast] *)

Module Toast.

(** A toast element: its type and message, and the two styles the code
    animates. *)
Record Item : Type := mkItem {
  kind : string;
  message : string;
  opacity : string;
  transform : string
}.

Inductive Act : Type :=
| AnimateIn (toast : nat)
| AutoRemove (toast : nat)
| Detach (toast : nat).

Record t : Type := mk {
  position : string;
  duration : Z;
  maxToasts : Z;
  (* the container's toasts, in document order *)
  children : list nat;
  (* the toast elements created so far, by creation number *)
  items : list Item;
  clock : nat;
  timers : list (nat * Act)
}.

(** [x || d] on an option that holds a number or is absent. *)
Definition or_number (x : option Z) (d : Z) : Z :=
  match x with
  | Some z => if Z.eqb z 0 then d else z
  | None => d
  end.

(** The constructor. *)
Definition new (o_position : option string) (o_duration o_maxToasts : option Z) : t :=
  mk (match o_position with
      | Some p => if String.eqb p "" then "top-right" else p
      | None => "top-right"
      end)
    (or_number o_duration 3000) (or_number o_maxToasts 5) [] [] 0 [].

(** [position.includes('right')] *)
Definition includes_right (p : string) : bool :=
  match String.index 0 "right" p with
  | Some _ => true
  | None => false
  end.

(** The transform of a toast that is off screen. *)
Definition offscreen (s : t) : string :=
  if includes_right (position s) then "translateX(100%)" else "translateX(-100%)".

Fixpoint set_nth {A : Type} (i : nat) (f : A -> A) (l : list A) : list A :=
  match l, i with
  | [], _ => []
  | x :: l', O => f x :: l'
  | x :: l', S i' => x :: set_nth i' f l'
  end.

Definition restyle (toast : nat) (o tr : string) (s : t) : t :=
  mk (position s) (duration s) (maxToasts s) (children s)
    (set_nth toast (fun it => mkItem (kind it) (message it) o tr) (items s))
    (clock s) (timers s).

(** [remove(toast)] *)
Definition remove (toast : nat) (s : t) : t :=
  let s1 := restyle toast "0" (offscreen s) s in
  mk (position s1) (duration s1) (maxToasts s1) (children s1) (items s1) (clock s1)
    (timers s1 ++ [(clock s1 + 300, Detach toast)]).

(** How a call ends: it returns, or it throws, with the state it leaves. *)
Inductive Outcome : Type :=
| Done (s : t)
| Threw (s : t).

Definition state_of (r : Outcome) : t :=
  match r with
  | Done s => s
  | Threw s => s
  end.

Definition threw (r : Outcome) : bool :=
  match r with
  | Done _ => false
  | Threw _ => true
  end.

(** [show(message, type, duration)], with [None] for a duration that is
    [null] or not given. When the cap is reached on an empty container,
    [toasts[0]] is [undefined] and [remove] throws on it. *)
Definition show (msg ty : string) (dur : option Z) (s : t) : Outcome :=
  let toast := List.length (items s) in
  let s0 :=
    mk (position s) (duration s) (maxToasts s) (children s)
      (items s ++ [mkItem ty msg "0" (offscreen s)]) (clock s) (timers s) in
  let evict :=
    if Z.geb (Z.of_nat (List.length (children s0))) (maxToasts s0)
    then match children s0 with
         | [] => None
         | oldest :: _ => Some (remove oldest s0)
         end
    else Some s0 in
  match evict with
  | None => Threw s0
  | Some s1 =>
      let s2 :=
        mk (position s1) (duration s1) (maxToasts s1) (children s1 ++ [toast])
          (items s1) (clock s1) (timers s1 ++ [(clock s1 + 10, AnimateIn toast)]) in
      let timeoutDuration :=
        match dur with
        | Some d => d
        | None => duration s2
        end in
      Done
        (if Z.gtb timeoutDuration 0
         then mk (position s2) (duration s2) (maxToasts s2) (children s2) (items s2)
                (clock s2)
                (timers s2 ++ [(clock s2 + Z.to_nat timeoutDuration, AutoRemove toast)])
         else s2)
  end.

(** A timer's callback. *)
Definition run_timer (a : Act) (s : t) : t :=
  match a with
  | AnimateIn toast => restyle toast "1" "translateX(0)" s
  | AutoRemove toast => remove toast s
  | Detach toast =>
      mk (position s) (duration s) (maxToasts s)
        (filter (fun c => negb (Nat.eqb c toast)) (children s))
        (items s) (clock s) (timers s)
  end.

Fixpoint remove_nth {A : Type} (i : nat) (l : list A) : list A :=
  match l, i with
  | [], _ => []
  | _ :: l', O => l'
  | x :: l', S i' => x :: remove_nth i' l'
  end.

(** The host fires the next timer. *)
Definition tick (s : t) : t :=
  match Timers.earliest (timers s) with
  | None => s
  | Some i =>
      match nth_error (timers s) i with
      | None => s
      | Some (due, a) =>
          run_timer a
            (mk (position s) (duration s) (maxToasts s) (children s) (items s)
               (Nat.max (clock s) due) (remove_nth i (timers s)))
      end
  end.

Fixpoint ticks (n : nat) (s : t) : t :=
  match n with
  | O => s
  | S n' => ticks n' (tick s)
  end.

End Toast.

(* ================================================================= *)
(** ** [Utils.debounce] and [Utils.throttle] *)

Module Debounce.

(** The closure of [debounce(func, wait)]: the pending timer, if any, with
    the arguments its [later] has captured, and the calls of [func] made so
    far with their times. *)
Record t : Type := mk {
  wait : nat;
  clock : nat;
  timeout : option (nat * list JsVal);
  calls : list (nat * list JsVal)
}.

Definition new (wait : nat) (now : nat) : t := mk wait now None [].

(** [executedFunction(...args)] *)
Definition invoke (args : list JsVal) (s : t) : t :=
  mk (wait s) (clock s) (Some (clock s + wait s, args)) (calls s).

(** Time passes; the pending timer fires when it is due. *)
Definition elapse (d : nat) (s : t) : t :=
  match timeout s with
  | Some (due, args) =>
      if Nat.leb due (clock s + d)
      then mk (wait s) (clock s + d) None (calls s ++ [(due, args)])
      else mk (wait s) (clock s + d) (timeout s) (calls s)
  | None => mk (wait s) (clock s + d) None (calls s)
  end.

End Debounce.

Module Throttle.

(** The closure of [throttle(func, limit)]: [inThrottle], the pending
    reset timers, and the calls of [func] made so far with their times. *)
Record t : Type := mk {
  limit : nat;
  clock : nat;
  inThrottle : bool;
  timers : list nat;
  calls : list (nat * list JsVal)
}.

Definition new (limit : nat) (now : nat) : t := mk limit now false [] [].

(** The returned function. *)
Definition invoke (args : list JsVal) (s : t) : t :=
  if negb (inThrottle s)
  then mk (limit s) (clock s) true (timers s ++ [clock s + limit s])
         (calls s ++ [(clock s, args)])
  else s.

(** Time passes; the reset timers that are due fire. *)
Definition elapse (d : nat) (s : t) : t :=
  let now := clock s + d in
  mk (limit s) now
    (if existsb (fun due => Nat.leb due now) (timers s) then false else inThrottle s)
    (filter (fun due => negb (Nat.leb due now)) (timers s))
    (calls s).

Inductive Action : Type :=
| Invoke (args : list JsVal)
| Elapse (d : nat).

Definition step (a : Action) (s : t) : t :=
  match a with
  | Invoke args => invoke args s
  | Elapse d => elapse d s
  end.

Definition run (tr : list Action) (s : t) : t :=
  fold_left (fun s a => step a s) tr s.

End Throttle.

(* ================================================================= *)
(** ** [class StickyHeader] *)

Module StickyHeader.

(** The header's class list and [style.transform], the instance fields, and
    the closure of the throttle around the scroll handler. Scroll positions
    are whole pixels. *)
Record t : Type := mk {
  offset : Z;
  stickyClass : string;
  hideOnScrollDown : bool;
  lastScroll : Z;
  classes : list string;
  transform : string;
  inThrottle : bool;
  clock : nat;
  timers : list nat
}.

(** The function given to [Utils.throttle], for [window.pageYOffset] read as
    [currentScroll]. *)
Definition onScroll (currentScroll : Z) (s : t) : t :=
  let s1 :=
    if Z.gtb currentScroll (offset s)
    then
      mk (offset s) (stickyClass s) (hideOnScrollDown s) (lastScroll s)
        (ClassList.add (stickyClass s) (classes s))
        (if hideOnScrollDown s
         then if Z.gtb currentScroll (lastScroll s)
              then "translateY(-100%)"
              else "translateY(0)"
         else transform s)
        (inThrottle s) (clock s) (timers s)
    else
      mk (offset s) (stickyClass s) (hideOnScrollDown s) (lastScroll s)
        (ClassList.remove (stickyClass s) (classes s)) ""
        (inThrottle s) (clock s) (timers s) in
  mk (offset s1) (stickyClass s1) (hideOnScrollDown s1) currentScroll
    (classes s1) (transform s1) (inThrottle s1) (clock s1) (timers s1).

(** A [scroll] event on [window], the page being at [currentScroll]: the
    throttled handler, with [limit] 100. *)
Definition scroll (currentScroll : Z) (s : t) : t :=
  if negb (inThrottle s)
  then
    let s1 := onScroll currentScroll s in
    mk (offset s1) (stickyClass s1) (hideOnScrollDown s1) (lastScroll s1)
      (classes s1) (transform s1) true (clock s1) (timers s1 ++ [clock s1 + 100])
  else s.

(** Time passes; the reset timers that are due fire. *)
Definition elapse (d : nat) (s : t) : t :=
  let now := clock s + d in
  mk (offset s) (stickyClass s) (hideOnScrollDown s) (lastScroll s)
    (classes s) (transform s)
    (if existsb (fun due => Nat.leb due now) (timers s) then false else inThrottle s)
    now
    (filter (fun due => negb (Nat.leb due now)) (timers s)).

End StickyHeader.

(* ================================================================= *)
(** ** [class FormValidator] *)

Module FormValidator.

(** What [validateField] reads of a field: its value and type, the
    attributes (absent, or with their text), [dataset.errorMessage], and the
    parent element. *)
Record Field : Type := mkField {
  value : string;
  type : string;
  required : bool;
  minlength : option string;
  maxlength : option string;
  pattern : option string;
  errorMessage : option string;
  parent : Elem
}.

(** What it reads and writes of a parent: the class list, and the text of
    the [.error-message] elements inside it, in document order. The parents
    of a form's fields are taken not to contain one another, so each has
    its own messages. *)
Record Parent : Type := mkParent {
  classes : list string;
  error_messages : list string
}.

Definition Page := Elem -> Parent.

Definition update (e : Elem) (f : Parent -> Parent) (pg : Page) : Page :=
  fun x => if Nat.eqb x e then f (pg x) else pg x.

(** The outcome of the checks on one field. *)
Inductive Verdict : Type :=
| Valid
| Invalid (message : string)
| Throws.

Definition is_valid (v : Verdict) : bool :=
  match v with
  | Valid => true
  | _ => false
  end.

Section Host.

(** The host's string functions: [trim], [length], the e-mail expression's
    [test], [new RegExp(p).test(v)] ([None] when the pattern is no regular
    expression and the constructor throws), [parseInt] ([None] for [NaN]),
    and a number put into a template. *)
Variable trim : string -> string.
Variable str_length : string -> Z.
Variable email_test : string -> bool.
Variable pattern_test : string -> string -> option bool.
Variable parseInt : string -> option Z.
Variable show_number : Z -> string.

Variables errorClass successClass : string.

(** The chain of checks in [validateField]. *)
Definition check (f : Field) : Verdict :=
  let v := trim (value f) in
  if required f && String.eqb v "" then Invalid "This field is required"
  else if String.eqb (type f) "email" && negb (String.eqb v "")
  then (if email_test v then Valid else Invalid "Please enter a valid email")
  else
    match minlength f with
    | Some a =>
        match parseInt a with
        | Some minLength =>
            if Z.ltb (str_length v) minLength
            then Invalid ("Minimum " ++ show_number minLength ++ " characters required")
            else Valid
        | None => Valid
        end
    | None =>
        match maxlength f with
        | Some a =>
            match parseInt a with
            | Some maxLength =>
                if Z.gtb (str_length v) maxLength
                then Invalid ("Maximum " ++ show_number maxLength ++ " characters allowed")
                else Valid
            | None => Valid
            end
        | None =>
            match pattern f with
            | Some p =>
                if negb (String.eqb v "")
                then match pattern_test p v with
                     | Some true => Valid
                     | Some false =>
                         Invalid (match errorMessage f with
                                  | Some m => if String.eqb m "" then "Invalid format" else m
                                  | None => "Invalid format"
                                  end)
                     | None => Throws
                     end
                else Valid
            | None => Valid
            end
        end
    end.

(** [clearFieldError(field)] *)
Definition clearFieldError (f : Field) (pg : Page) : Page :=
  update (parent f)
    (fun p =>
       mkParent (ClassList.remove successClass (ClassList.remove errorClass (classes p)))
         (tl (error_messages p)))
    pg.

(** [showError(field, message)] *)
Definition showError (f : Field) (message : string) (pg : Page) : Page :=
  update (parent f)
    (fun p =>
       mkParent (classes p)
         (match error_messages p with
          | [] => [message]
          | _ :: rest => message :: rest
          end))
    pg.

(** [validateField(field)]: what it returns ([None] when it throws) and the
    page it leaves. *)
Definition validateField (f : Field) (pg : Page) : option bool * Page :=
  let pg1 := clearFieldError f pg in
  match check f with
  | Throws => (None, pg1)
  | Invalid message =>
      (Some false,
       showError f message
         (update (parent f)
            (fun p => mkParent (ClassList.add errorClass (classes p)) (error_messages p))
            pg1))
  | Valid =>
      (Some true,
       update (parent f)
         (fun p => mkParent (ClassList.add successClass (classes p)) (error_messages p))
         pg1)
  end.

(** The loop of [validate()] over the fields it selected, from [isValid]. *)
Fixpoint validate_from (fields : list Field) (isValid : bool) (pg : Page)
  : option bool * Page :=
  match fields with
  | [] => (Some isValid, pg)
  | f :: rest =>
      match validateField f pg with
      | (None, pg1) => (None, pg1)
      | (Some ok, pg1) => validate_from rest (if negb ok then false else isValid) pg1
      end
  end.

(** [validate()] *)
Definition validate (fields : list Field) (pg : Page) : option bool * Page :=
  validate_from fields true pg.

End Host.

End FormValidator.

(* ================================================================= *)
(** ** Vocabulary of the specification *)

(** A modal is Open (or Opening) when its element carries [active]. *)
Definition is_open (st : State) (id : string) : bool :=
  match JsMap.get id (modals st) with
  | Some modal => is_active (dom st) (element modal)
  | None => false
  end.

(** Closed: neither [active] nor [show]. *)
Definition is_closed (st : State) (modal : Modal) : Prop :=
  is_active (dom st) (element modal) = false /\
  is_shown (dom st) (element modal) = false.

(** The scroll lock is engaged / released. *)
Definition locked (st : State) : Prop := bodyOverflow st = "hidden".
Definition released (st : State) : Prop := bodyOverflow st = "".

(** Whether a non-silent [close] of [modal] in [st] is vetoed. *)
Definition vetoes (modal : Modal) (st : State) : bool :=
  snd (consult_beforeClose modal false st).

(** The payload [open] stores and passes on: [undefined] becomes [null]. *)
Definition payload (data : JsVal) : JsVal :=
  match data with
  | VUndefined => VNull
  | _ => data
  end.

(** A registry as the specification's data model has it: ids are non-empty
    and unique, and no two records share an element. *)
Record wf_registry (m : list (string * Modal)) : Prop := {
  wf_nodup : NoDup (JsMap.keys m);
  wf_nonempty : forall id modal, In (id, modal) m -> id <> "";
  wf_elements :
    forall id1 m1 id2 m2,
      In (id1, m1) m -> In (id2, m2) m -> element m1 = element m2 -> id1 = id2
}.

(** A manager at rest with every registered modal Closed. *)
Record at_rest (st : State) : Prop := {
  rest_active : activeModal st = None;
  rest_timers : timers st = [];
  rest_closed :
    forall id modal, In (id, modal) (modals st) ->
                     is_active (dom st) (element modal) = false
}.

(** A page [init] turns into such a manager: the resolved ids are non-empty,
    the modal elements are distinct nodes and none carries [active]. *)
Definition page_element (m : string * Elem * option Elem * option Elem) : Elem :=
  snd (fst (fst m)).

Record page_ok (pg : Page) : Prop := {
  page_ids :
    forall id el ov btn, In (id, el, ov, btn) (page_modals pg) -> id <> "";
  page_closed :
    forall m, In m (page_modals pg) -> is_active (page_dom pg) (page_element m) = false;
  page_distinct : NoDup (map page_element (page_modals pg))
}.

(** Decision procedures for the two, for concrete states. *)
Fixpoint nodupb (l : list string) : bool :=
  match l with
  | [] => true
  | x :: l' => negb (existsb (String.eqb x) l') && nodupb l'
  end.

Definition wf_registry_b (m : list (string * Modal)) : bool :=
  nodupb (JsMap.keys m)
  && forallb (fun entry => negb (String.eqb (fst entry) "")) m
  && forallb
       (fun e1 =>
          forallb
            (fun e2 =>
               negb (Nat.eqb (element (snd e1)) (element (snd e2)))
               || String.eqb (fst e1) (fst e2))
            m)
       m.

Definition at_rest_b (st : State) : bool :=
  match activeModal st, timers st with
  | None, [] =>
      forallb (fun entry => negb (is_active (dom st) (element (snd entry)))) (modals st)
  | _, _ => false
  end.

(** What sequential mode maintains over such a registry: an element that
    carries [active] belongs to the modal [activeModal] names, and a pending
    300ms callback holds the record registered under its id. *)
Record seq_inv (st : State) : Prop := {
  si_sequential : sequential st = true;
  si_registry : wf_registry (modals st);
  si_active :
    forall id modal, In (id, modal) (modals st) ->
                     is_active (dom st) (element modal) = true ->
                     activeModal st = Some id;
  si_timers :
    forall t modalId modal silent,
      In t (timers st) -> act t = SettleTimer modalId modal silent ->
      JsMap.get modalId (modals st) = Some modal;
  si_truthy : forall id, activeModal st = Some id -> id <> ""
}.

(** *** Forgetting the stored per-record [closeOnOverlay]

    [erase] overwrites the option stored in every record the state holds, in
    the registry and in the closures of pending timers. Two states with the
    same erasure differ in nothing but those stored options. *)
Definition erase_modal (m : Modal) : Modal :=
  mkModal (element m) (overlay m) (closeBtn m)
    (mkModalOptions (onOpen (options m)) (onClose (options m))
       (beforeClose (options m)) false).

Definition erase_entry (entry : string * Modal) : string * Modal :=
  (fst entry, erase_modal (snd entry)).

Definition erase_act (a : TimerAct) : TimerAct :=
  match a with
  | ShowTimer modal => ShowTimer (erase_modal modal)
  | SettleTimer modalId modal silent => SettleTimer modalId (erase_modal modal) silent
  end.

Definition erase_timer (t : Timer) : Timer := mkTimer (due t) (erase_act (act t)).

Definition erase (st : State) : State :=
  set_timers (map erase_timer (timers st))
    (set_modals (map erase_entry (modals st)) st).

(** The same registration with another per-record [closeOnOverlay]. *)
Definition with_closeOnOverlay (v : JsVal) (o : RegisterOptions) : RegisterOptions :=
  mkRegisterOptions (ro_onOpen o) (ro_onClose o) (ro_beforeClose o) v.

(** The record [register] stores. *)
Definition stored_modal (el : Elem) (ov btn : option Elem) (o : RegisterOptions)
    (st : State) : Modal :=
  mkModal el ov btn
    (mkModalOptions (ro_onOpen o) (ro_onClose o) (ro_beforeClose o)
       (if negb (is_false (ro_closeOnOverlay o)) then closeOnOverlay st else false)).

(** The listeners [register] adds. *)
Definition wired (id : string) (ov btn : option Elem) (st : State) : list Listener :=
  match btn with
  | Some b => [mkListener b (CloseBtnClick id)]
  | None => []
  end
  ++ match ov with
     | Some v => if closeOnOverlay st then [mkListener v (OverlayClick v id)] else []
     | None => []
     end.

(** *** The pieces of [open] and of the 300ms callback *)

(** The hand-off inside [open]: the silent close of the modal that is
    active when it is another one. *)
Definition handoff (id : string) (st : State) : State :=
  if truthy (activeModal st) && negb (same_id (activeModal st) id)
  then close (activeModal st) true st
  else st.

(** The callbacks a call to [open] makes. *)
Definition open_calls (id : string) (data : JsVal) (st : State) : list Event :=
  if sequential st && truthy (activeModal st) then []
  else
    match JsMap.get id (modals st) with
    | Some modal =>
        match onOpen (options modal) with
        | Some cb => [EvOnOpen cb (payload data)]
        | None => []
        end
    | None => []
    end.

(** The callbacks the 300ms callback of a close makes for the closed modal. *)
Definition close_calls (modal : Modal) (silent : bool) : list Event :=
  match onClose (options modal) with
  | Some cb => if negb silent then [EvOnClose cb] else []
  | None => []
  end.

(** The state in which the 300ms callback looks at the queue. *)
Definition settled (modalId : string) (modal : Modal) (silent : bool) (st : State)
  : State :=
  let st2 := style_display (element modal) ""
               (classList_remove (element modal) "active" st) in
  let st3 :=
    if bodyScrollLock st2 && negb (hasOtherActiveModals st2)
    then set_bodyOverflow "" st2
    else st2 in
  let st4 := if same_id (activeModal st3) modalId then set_activeModal None st3 else st3 in
  match onClose (options modal) with
  | Some cb => if negb silent then call (EvOnClose cb) st4 else st4
  | None => st4
  end.

(** The [onOpen] call of a record, if it defines one. *)
Definition onOpen_call (modal : Modal) (data : JsVal) : list Event :=
  match onOpen (options modal) with
  | Some cb => [EvOnOpen cb data]
  | None => []
  end.

(** A non-silent close of [id] followed by the firing of the 300ms timer it
    scheduled (the last one pending when [close] returns). *)
Definition close_and_settle (id : string) (st : State) : State :=
  fire (List.length (timers st)) (close (Some id) false st).

(** The scroll-lock discipline: while a registered modal is active the
    lock is engaged. *)
Definition lock_held (st : State) : Prop :=
  hasOtherActiveModals st = true -> locked st.


(** A trace that registers nothing. *)
Definition no_register (tr : list Action) : bool :=
  forallb (fun a => negb (is_register a)) tr.

(** *** Callbacks on the close side *)

Definition is_onClose (ev : Event) : bool :=
  match ev with
  | EvOnClose _ => true
  | _ => false
  end.

Definition is_close_callback (ev : Event) : bool :=
  match ev with
  | EvOnClose _ | EvBeforeClose _ => true
  | EvOnOpen _ _ => false
  end.

(** The [onClose] and [beforeClose] calls of a log, in order. *)
Definition close_callbacks (l : list Event) : list Event :=
  filter is_close_callback l.

(** A pending timer that calls no [onClose]: a show timer or the 300ms
    callback of a silent close. *)
Definition silent_timer (t : Timer) : bool :=
  match act t with
  | ShowTimer _ => true
  | SettleTimer _ _ silent => silent
  end.

(** The 300ms timer a close at [st] schedules. *)
Definition settle_timer (st : State) (silent : bool) (entry : string * Modal) : Timer :=
  mkTimer (clock st + 300) (SettleTimer (fst entry) (snd entry) silent).

(** A small page used for the worked scenarios: three modals with callbacks;
    ["guarded"] has a [beforeClose] that always answers [false]. *)
Module Sample.
Definition blank : Dom := fun _ => mkElem [] "".

Definition page : Page := mkPage blank "" [] [].

Definition callbacks (n : nat) : RegisterOptions :=
  mkRegisterOptions (Some n) (Some (100 + n)) None VUndefined.

Definition refusing : RegisterOptions :=
  mkRegisterOptions None (Some 104) (Some (mkBeforeClose 204 (fun _ => VBool false)))
    VUndefined.

Definition manager (seq : bool) : State :=
  register "guarded" 40 None (Some 42) refusing
    (register "C" 30 None None (callbacks 3)
       (register "B" 20 (Some 21) (Some 22) (callbacks 2)
          (register "A" 10 (Some 11) (Some 12) (callbacks 1)
             (new_ModalManager
                (mkManagerOptions VUndefined VUndefined VUndefined seq) page)))).

Definition modalA : Modal :=
  mkModal 10 (Some 11) (Some 12) (mkModalOptions (Some 1) (Some 101) None true).
Definition modalB : Modal :=
  mkModal 20 (Some 21) (Some 22) (mkModalOptions (Some 2) (Some 102) None true).
Definition modalC : Modal :=
  mkModal 30 None None (mkModalOptions (Some 3) (Some 103) None true).
Definition modalG : Modal :=
  mkModal 40 None (Some 42)
    (mkModalOptions None (Some 104)
       (Some (mkBeforeClose 204 (fun _ => VBool false))) true).
End Sample.

(* ================================================================= *)
(** ** Further vocabulary for the modal manager *)

(** What is left to do before the manager is quiet: every pending timer
    fires once, and every queued request can cost a hand-off and a show. *)
Definition pending_work (st : State) : nat :=
  List.length (timers st) + 2 * List.length (queue st).

(** The keyboard listeners of a state. *)
Definition key_listeners (st : State) : list Listener :=
  filter (fun l => negb (is_click (handler l))) (listeners st).

(** No listener is attached to node [e]. *)
Definition unwired (e : Elem) (st : State) : bool :=
  forallb (fun l => negb (Nat.eqb (target l) e)) (listeners st).

(** An overlay handle other than node [e]. *)
Definition overlay_not (e : Elem) (ov : option Elem) : bool :=
  match ov with
  | Some v => negb (Nat.eqb v e)
  | None => true
  end.

(** What no action changes: the constructor's options and the keyboard
    listeners. *)
Definition same_config (st1 st : State) : Prop :=
  sequential st1 = sequential st /\
  closeOnEsc st1 = closeOnEsc st /\
  bodyScrollLock st1 = bodyScrollLock st /\
  closeOnOverlay st1 = closeOnOverlay st /\
  key_listeners st1 = key_listeners st.

(** A manager that is not sequential and has nothing queued. *)
Definition unqueued (st : State) : Prop :=
  sequential st = false /\ queue st = [].

(** A pending enter timer (the 10ms callback of [open]). *)
Definition is_show (t : Timer) : bool :=
  match act t with
  | ShowTimer _ => true
  | SettleTimer _ _ _ => false
  end.

(** The pending 300ms callbacks of closes, in scheduling order. *)
Definition settles (st : State) : list Timer :=
  filter (fun t => negb (is_show t)) (timers st).

(** No close is waiting for its 300ms callback. *)
Definition no_settle_pending (st : State) : Prop := settles st = [].

(** A sequential manager between the close of the active modal [A] and its
    300ms callback, the only one pending, with [B] first in the queue. *)
Definition handing_over (M : list (string * Modal)) (A : string) (mA : Modal)
    (B : string) (dB : JsVal) (rest : list (string * JsVal)) (L : list Event)
    (s : State) : Prop :=
  sequential s = true /\ modals s = M /\ activeModal s = Some A /\
  queue s = (B, dB) :: rest /\ log s = L /\
  exists due, settles s = [mkTimer due (SettleTimer A mA false)].

(** The manager once that callback has run: [B] is the active modal. *)
Definition handed_over (M : list (string * Modal)) (B : string) (mB : Modal)
    (rest : list (string * JsVal)) (L : list Event) (s : State) : Prop :=
  sequential s = true /\ modals s = M /\ activeModal s = Some B /\
  queue s = rest /\ log s = L /\ settles s = [] /\
  is_active (dom s) (element mB) = true.

(* ================================================================= *)
(** ** Vocabulary for the other widgets *)

(** [x] is an accordion item that has a content, so [closeAll] closes it. *)
Definition collapsible (a : Accordion.t) (x : Elem) : bool :=
  existsb
    (fun i =>
       match Accordion.content i with
       | Some _ => Nat.eqb x (Accordion.item i)
       | None => false
       end)
    (Accordion.items a).

(** [x] is the content of an accordion item. *)
Definition is_content (a : Accordion.t) (x : Elem) : bool :=
  existsb
    (fun i =>
       match Accordion.content i with
       | Some ct => Nat.eqb x ct
       | None => false
       end)
    (Accordion.items a).

(** The click listeners [Accordion.init] adds, item by item. *)
Definition accordion_listeners (a : Accordion.t) : list (Elem * Elem * Elem) :=
  flat_map
    (fun i =>
       match Accordion.trigger i, Accordion.content i with
       | Some tr, Some ct => [(tr, Accordion.item i, ct)]
       | _, _ => []
       end)
    (Accordion.items a).

(** Every dropdown menu of the page has an enclosing dropdown. *)
Definition all_enclosed (ms : Dropdown.Menus) : bool :=
  forallb (fun p => match snd p with Some _ => true | None => false end) ms.

(** [x] is a dropdown menu of the page, or the dropdown that encloses one. *)
Definition dropdown_part (ms : Dropdown.Menus) (x : Elem) : bool :=
  existsb
    (fun p =>
       Nat.eqb x (fst p)
       || match snd p with
          | Some d => Nat.eqb x d
          | None => false
          end)
    ms.

(** A [Swap] callback of [next] or [prev] is still pending. *)
Definition swap_pending (s : Lightbox.t) : bool :=
  existsb
    (fun p => match snd p with
              | Lightbox.Swap => true
              | _ => false
              end)
    (Lightbox.timers s).

(** What every call keeps once the lightbox exists. *)
Definition lightbox_inv (srcs : list JsVal) (s : Lightbox.t) : Prop :=
  Lightbox.created s = true /\
  Lightbox.images s = srcs /\
  (swap_pending s = false ->
   Lightbox.img_src s = Some (Lightbox.image_at srcs (Lightbox.currentIndex s))).

(** Several toasts shown in one go, no timer firing in between. *)
Definition toast_burst (reqs : list (string * string * option Z)) (s : Toast.t) : Toast.t :=
  fold_left
    (fun s r => Toast.state_of (Toast.show (fst (fst r)) (snd (fst r)) (snd r) s))
    reqs s.

(** The delay [show] uses for the automatic removal. *)
Definition toast_delay (dur : option Z) (s : Toast.t) : Z :=
  match dur with
  | Some d => d
  | None => Toast.duration s
  end.

(** A burst of calls of a debounced function: each call with the time that
    passed since the call before. *)
Definition debounce_burst (b : list (nat * list JsVal)) (s : Debounce.t) : Debounce.t :=
  fold_left (fun s p => Debounce.invoke (snd p) (Debounce.elapse (fst p) s)) b s.

(** Times in increasing order, each at least [limit] after the one before. *)
Fixpoint spaced (limit : nat) (ts : list nat) : bool :=
  match ts with
  | [] => true
  | t1 :: rest =>
      match rest with
      | [] => true
      | t2 :: _ => Nat.leb (t1 + limit) t2 && spaced limit rest
      end
  end.

(** What keeps the calls of a throttled function apart. *)
Definition throttle_inv (s : Throttle.t) : Prop :=
  spaced (Throttle.limit s) (map fst (Throttle.calls s)) = true /\
  match hd_error (rev (map fst (Throttle.calls s))) with
  | Some t =>
      t <= Throttle.clock s /\
      (if Throttle.inThrottle s
       then Throttle.timers s = [t + Throttle.limit s]
       else Throttle.timers s = [] /\ t + Throttle.limit s <= Throttle.clock s)
  | None => Throttle.inThrottle s = false /\ Throttle.timers s = []
  end.

(** What a field's parent shows of a verdict: the error class and the
    message for an invalid field, the success class for a valid one. *)
Definition shows (errorClass successClass : string) (v : FormValidator.Verdict)
    (p : FormValidator.Parent) : Prop :=
  ClassList.contains errorClass (FormValidator.classes p)
  = negb (FormValidator.is_valid v) /\
  ClassList.contains successClass (FormValidator.classes p) = FormValidator.is_valid v /\
  match v with
  | FormValidator.Invalid m => hd_error (FormValidator.error_messages p) = Some m
  | _ => True
  end.
(* ================================================================= *)
(** ** Basic facts *)

Ltac break_match :=
  match goal with
  | |- context [match ?x with _ => _ end] => destruct x eqn:?
  end.

(** Closes a conjunction of closed equations by evaluation. *)
Ltac by_evaluation :=
  intros;
  repeat match goal with |- _ /\ _ => split end;
  vm_compute; reflexivity.

Module ClassListFacts.
Import ClassList.

Lemma contains_app c l1 l2 :
  contains c (l1 ++ l2) = contains c l1 || contains c l2.
Proof. unfold contains. apply existsb_app. Qed.

Lemma contains_add_same c l : contains c (add c l) = true.
Proof.
  unfold add. destruct (contains c l) eqn:E; [exact E|].
  rewrite contains_app, E. simpl. now rewrite String.eqb_refl.
Qed.

Lemma contains_add_other c d l : c <> d -> contains c (add d l) = contains c l.
Proof.
  intros Hne. unfold add. destruct (contains d l); [reflexivity|].
  rewrite contains_app. simpl.
  destruct (String.eqb_spec c d); [contradiction|].
  now rewrite !orb_false_r.
Qed.

Lemma contains_remove_same c l : contains c (remove c l) = false.
Proof.
  unfold contains, remove. induction l as [|x l IH]; [reflexivity|].
  simpl. destruct (String.eqb c x) eqn:E; simpl; [exact IH|].
  now rewrite E.
Qed.

Lemma contains_remove_other c d l : c <> d -> contains c (remove d l) = contains c l.
Proof.
  intros Hne. unfold contains, remove. induction l as [|x l IH]; [reflexivity|].
  simpl. destruct (String.eqb_spec d x) as [->|Hdx]; simpl.
  - destruct (String.eqb_spec c x); [contradiction|]. exact IH.
  - now rewrite IH.
Qed.

Lemma remove_absent c l : contains c l = false -> remove c l = l.
Proof.
  unfold contains, remove. induction l as [|x l IH]; [reflexivity|].
  simpl. intros H. apply orb_false_iff in H as [Hx Hl].
  rewrite Hx. simpl. now rewrite IH.
Qed.
End ClassListFacts.

Lemma truthy_Some id : truthy (Some id) = true <-> id <> "".
Proof.
  simpl. destruct (String.eqb_spec id ""); simpl; split; congruence.
Qed.

Lemma truthy_false_inv a : truthy a = false -> a = None \/ a = Some "".
Proof.
  destruct a as [s|]; [|now left]. simpl.
  destruct (String.eqb_spec s ""); [subst; now right|discriminate].
Qed.

Lemma same_id_true slot id : same_id slot id = true <-> slot = Some id.
Proof.
  destruct slot as [s|]; simpl.
  - destruct (String.eqb_spec s id); split; congruence.
  - split; discriminate.
Qed.

Lemma close_target_Some id st : id <> "" -> close_target (Some id) st = Some id.
Proof.
  intros H. apply truthy_Some in H. unfold close_target. now rewrite H, H.
Qed.

Lemma close_target_active st :
  truthy (activeModal st) = true ->
  close_target (activeModal st) st = activeModal st.
Proof. intros H. unfold close_target. now rewrite H, H. Qed.

Lemma close_target_truthy id st t : close_target id st = Some t -> t <> "".
Proof.
  unfold close_target. intros H.
  destruct (truthy (if truthy id then id else activeModal st)) eqn:E; [|discriminate].
  rewrite H in E. now apply truthy_Some.
Qed.

(** *** The count of [hasOtherActiveModals] *)

Lemma count_active_from d (m : list (string * Modal)) n :
  fold_left
    (fun c (entry : string * Modal) =>
       if is_active d (element (snd entry)) then S c else c) m n
  = n + fold_left
          (fun c (entry : string * Modal) =>
             if is_active d (element (snd entry)) then S c else c) m 0.
Proof.
  revert n. induction m as [|x m IH]; intros n; simpl; [lia|].
  destruct (is_active d (element (snd x))).
  - rewrite (IH (S n)), (IH 1). lia.
  - apply IH.
Qed.

Lemma hasOtherActiveModals_existsb st :
  hasOtherActiveModals st
  = existsb (fun entry => is_active (dom st) (element (snd entry))) (modals st).
Proof.
  unfold hasOtherActiveModals. induction (modals st) as [|x m IH]; [reflexivity|].
  simpl. destruct (is_active (dom st) (element (snd x))); simpl.
  - rewrite count_active_from. reflexivity.
  - exact IH.
Qed.

Lemma get_In {V} k (v : V) m : JsMap.get k m = Some v -> In (k, v) m.
Proof.
  induction m as [|[k' v'] m IH]; simpl; [discriminate|].
  destruct (String.eqb_spec k' k) as [->|]; intros H.
  - injection H as ->. now left.
  - right. now apply IH.
Qed.

Lemma In_get {V} k (v : V) m :
  NoDup (JsMap.keys m) -> In (k, v) m -> JsMap.get k m = Some v.
Proof.
  induction m as [|[k' v'] m IH]; simpl; [contradiction|].
  intros Hnd [H|H]; inversion Hnd as [|? ? Hni Hnd']; subst.
  - injection H as -> ->. now rewrite String.eqb_refl.
  - destruct (String.eqb_spec k' k) as [->|]; [|now apply IH].
    exfalso. apply Hni. change k with (fst (k, v)). now apply in_map.
Qed.

Lemma hasOtherActiveModals_true st :
  hasOtherActiveModals st = true <->
  exists id modal, In (id, modal) (modals st) /\ is_active (dom st) (element modal) = true.
Proof.
  rewrite hasOtherActiveModals_existsb, existsb_exists. split.
  - intros [[id modal] [Hin Ha]]. now exists id, modal.
  - intros (id & modal & Hin & Ha). now exists (id, modal).
Qed.

Lemma fold_left_inv {A S} (P : S -> Prop) (f : S -> A -> S) (l : list A) (s : S) :
  (forall s a, P s -> P (f s a)) -> P s -> P (fold_left f l s).
Proof.
  intros Hf. revert s. induction l as [|a l IH]; intros s Hs; simpl; [exact Hs|].
  apply IH. now apply Hf.
Qed.

Lemma existsb_pointwise {A} (f g : A -> bool) (l : list A) :
  (forall x, f x = g x) -> existsb f l = existsb g l.
Proof.
  intros H. induction l as [|x l IH]; simpl; [reflexivity|]. now rewrite H, IH.
Qed.

(** The host's next timer, when one timer is pending. *)
Lemma tick_single st t :
  timers st = [t] ->
  tick st = run_timer t (set_clock (Nat.max (clock st) (due t)) (set_timers [] st)).
Proof. intros E. unfold tick, fire. rewrite E. reflexivity. Qed.

(** Firing a pending timer runs its callback on the state without it. *)
Lemma fire_nth st i t :
  nth_error (timers st) i = Some t ->
  fire i st
  = run_timer t (set_clock (Nat.max (clock st) (due t))
                   (set_timers (remove_nth i (timers st)) st)).
Proof. intros E. unfold fire. now rewrite E. Qed.

(** The 10ms callback only adds [show]. *)
Lemma show_fields modal s :
  let s1 := show modal s in
  sequential s1 = sequential s /\ modals s1 = modals s /\
  activeModal s1 = activeModal s /\ queue s1 = queue s /\ log s1 = log s /\
  timers s1 = timers s /\
  (forall e, is_active (dom s1) e = is_active (dom s) e).
Proof.
  cbv zeta. unfold show, classList_add. simpl.
  split; [reflexivity|]. split; [reflexivity|]. split; [reflexivity|].
  split; [reflexivity|]. split; [reflexivity|]. split; [reflexivity|].
  intros e. unfold is_active, dom_update. destruct (Nat.eqb e (element modal)); simpl.
  - apply ClassListFacts.contains_add_other. discriminate.
  - reflexivity.
Qed.

(* ================================================================= *)
(** ** What a single call to [close] does *)

Lemma consult_beforeClose_fields modal silent st :
  let st1 := fst (consult_beforeClose modal silent st) in
  modals st1 = modals st /\ activeModal st1 = activeModal st /\
  queue st1 = queue st /\ dom st1 = dom st /\
  bodyOverflow st1 = bodyOverflow st /\ timers st1 = timers st /\
  clock st1 = clock st /\ listeners st1 = listeners st /\
  sequential st1 = sequential st /\ bodyScrollLock st1 = bodyScrollLock st /\
  closeOnOverlay st1 = closeOnOverlay st /\ closeOnEsc st1 = closeOnEsc st.
Proof.
  unfold consult_beforeClose.
  destruct (beforeClose (options modal)); [destruct silent|]; simpl; repeat split.
Qed.

Lemma consult_beforeClose_silent modal st :
  consult_beforeClose modal true st = (st, false).
Proof. unfold consult_beforeClose. now destruct (beforeClose (options modal)). Qed.

Lemma consult_beforeClose_log modal st :
  log (fst (consult_beforeClose modal false st))
  = log st ++ match beforeClose (options modal) with
              | Some bc => [EvBeforeClose (bc_fn bc)]
              | None => []
              end.
Proof.
  unfold consult_beforeClose. destruct (beforeClose (options modal)); simpl.
  - reflexivity.
  - now rewrite app_nil_r.
Qed.

(** [close] as its three outcomes: nothing to close, vetoed, or started. *)
Lemma close_unfold id silent st :
  close id silent st =
  match close_target id st with
  | None => st
  | Some modalId =>
      match JsMap.get modalId (modals st) with
      | None => st
      | Some modal =>
          if snd (consult_beforeClose modal silent st)
          then fst (consult_beforeClose modal silent st)
          else setTimeout (SettleTimer modalId modal silent) 300
                 (classList_remove (element modal) "show"
                    (fst (consult_beforeClose modal silent st)))
      end
  end.
Proof.
  unfold close. destruct (close_target id st); [|reflexivity].
  destruct (JsMap.get s (modals st)); [|reflexivity].
  now destruct (consult_beforeClose m silent st).
Qed.

Lemma is_active_remove_show d e x :
  is_active
    (dom_update e (fun s => mkElem (ClassList.remove "show" (classList s)) (display s)) d) x
  = is_active d x.
Proof.
  unfold is_active, dom_update. destruct (Nat.eqb x e); [|reflexivity].
  simpl. now apply ClassListFacts.contains_remove_other.
Qed.

(** The fields a call to [close] never touches. *)
Lemma close_fields id silent st :
  let st1 := close id silent st in
  modals st1 = modals st /\ activeModal st1 = activeModal st /\
  queue st1 = queue st /\ bodyOverflow st1 = bodyOverflow st /\
  clock st1 = clock st /\ listeners st1 = listeners st /\
  sequential st1 = sequential st /\ bodyScrollLock st1 = bodyScrollLock st /\
  closeOnOverlay st1 = closeOnOverlay st /\ closeOnEsc st1 = closeOnEsc st /\
  (forall e, is_active (dom st1) e = is_active (dom st) e) /\
  (forall e, display (dom st1 e) = display (dom st e)).
Proof.
  cbv zeta. rewrite close_unfold.
  destruct (close_target id st) as [modalId|]; [|repeat split].
  destruct (JsMap.get modalId (modals st)) as [modal|]; [|repeat split].
  pose proof (consult_beforeClose_fields modal silent st) as H. cbv zeta in H.
  destruct H as (H1 & H2 & H3 & H4 & H5 & H6 & H7 & H8 & H9 & H10 & H11 & H12).
  destruct (snd (consult_beforeClose modal silent st)).
  - rewrite H4. repeat split; assumption.
  - simpl. rewrite H4. repeat split; try assumption.
    + intros e. apply is_active_remove_show.
    + intros e. unfold dom_update. now destruct (Nat.eqb e (element modal)).
Qed.

(** Claim C3 (veto integrity). For a registered modal, under a non-empty id,
    whose [beforeClose] answers [false], a non-silent [close(id)] returns the
    state it was given, with nothing but the [beforeClose] call itself
    recorded: registry, [activeModal], queue, every element's class list and
    display, the body overflow and the pending timers are all unchanged, so no
    settle timer is scheduled, no [onClose] is called and an Open modal stays
    Open. *)
Theorem close_veto_is_atomic (id : string) (modal : Modal) (bc : BeforeClose)
    (st : State) :
  id <> "" ->
  JsMap.get id (modals st) = Some modal ->
  beforeClose (options modal) = Some bc ->
  bc_ret bc (log st) = VBool false ->
  let st1 := close (Some id) false st in
  st1 = call (EvBeforeClose (bc_fn bc)) st /\
  modals st1 = modals st /\
  activeModal st1 = activeModal st /\
  queue st1 = queue st /\
  dom st1 = dom st /\
  bodyOverflow st1 = bodyOverflow st /\
  timers st1 = timers st /\
  log st1 = log st ++ [EvBeforeClose (bc_fn bc)] /\
  is_open st1 id = is_open st id.
Proof.
  intros Hid Hget Hbc Hret st1.
  assert (E : st1 = call (EvBeforeClose (bc_fn bc)) st).
  { subst st1. unfold close. rewrite (close_target_Some _ _ Hid), Hget.
    unfold consult_beforeClose. rewrite Hbc. simpl. now rewrite Hret. }
  rewrite E. repeat split.
Qed.

Lemma close_veto_is_atomic_witness :
  let st := open "guarded" VNull (Sample.manager false) in
  let st1 := close (Some "guarded") false st in
  st1 = call (EvBeforeClose 204) st /\
  modals st1 = modals st /\
  activeModal st1 = activeModal st /\
  queue st1 = queue st /\
  dom st1 = dom st /\
  bodyOverflow st1 = bodyOverflow st /\
  timers st1 = timers st /\
  log st1 = log st ++ [EvBeforeClose 204] /\
  is_open st1 "guarded" = is_open st "guarded".
Proof.
  intros st.
  apply (close_veto_is_atomic "guarded" Sample.modalG
           (mkBeforeClose 204 (fun _ => VBool false)) st).
  - discriminate.
  - reflexivity.
  - reflexivity.
  - reflexivity.
Defined.

Lemma remove_nth_last {A} (l : list A) (x : A) :
  remove_nth (List.length l) (l ++ [x]) = l.
Proof. induction l as [|y l IH]; simpl; [reflexivity|]. now rewrite IH. Qed.

(** A close that is not vetoed schedules its 300ms callback last. *)
Lemma close_started id silent st modalId modal :
  close_target id st = Some modalId ->
  JsMap.get modalId (modals st) = Some modal ->
  snd (consult_beforeClose modal silent st) = false ->
  close id silent st
  = setTimeout (SettleTimer modalId modal silent) 300
      (classList_remove (element modal) "show"
         (fst (consult_beforeClose modal silent st))) /\
  timers (close id silent st)
  = timers st ++ [mkTimer (clock st + 300) (SettleTimer modalId modal silent)].
Proof.
  intros Ht Hget Hveto.
  pose proof (consult_beforeClose_fields modal silent st) as C. cbv zeta in C.
  destruct C as (_ & _ & _ & _ & _ & Ct & Cc & _).
  assert (E : close id silent st
              = setTimeout (SettleTimer modalId modal silent) 300
                  (classList_remove (element modal) "show"
                     (fst (consult_beforeClose modal silent st)))).
  { now rewrite close_unfold, Ht, Hget, Hveto. }
  split; [exact E|]. rewrite E. simpl. now rewrite Ct, Cc.
Qed.

(** Firing that timer runs [settle] on the state the close returned. *)
Lemma close_fire id silent st modalId modal :
  close_target id st = Some modalId ->
  JsMap.get modalId (modals st) = Some modal ->
  snd (consult_beforeClose modal silent st) = false ->
  fire (List.length (timers st)) (close id silent st)
  = settle modalId modal silent
      (set_clock (Nat.max (clock st) (clock st + 300))
         (set_timers (timers st) (close id silent st))).
Proof.
  intros Ht Hget Hveto.
  destruct (close_started id silent st modalId modal Ht Hget Hveto) as [_ Htm].
  pose proof (close_fields id silent st) as F. cbv zeta in F.
  destruct F as (_ & _ & _ & _ & Fc & _).
  unfold fire. rewrite Htm, nth_error_app2, Nat.sub_diag by lia. simpl.
  rewrite remove_nth_last. unfold run_timer. simpl. now rewrite Fc.
Qed.

(* ================================================================= *)
(** ** What a single call to [open] does *)

Lemma open_queued id data st :
  sequential st && truthy (activeModal st) = true ->
  open id data st = set_queue (queue st ++ [(id, payload data)]) st.
Proof. intros H. unfold open. now rewrite H. Qed.

Lemma open_unknown id data st :
  sequential st && truthy (activeModal st) = false ->
  JsMap.get id (modals st) = None ->
  open id data st = st.
Proof. intros H Hget. unfold open. now rewrite H, Hget. Qed.

Lemma open_known id data st modal :
  sequential st && truthy (activeModal st) = false ->
  JsMap.get id (modals st) = Some modal ->
  open id data st =
  let st6 :=
    setTimeout (ShowTimer modal) 10
      (set_activeModal (Some id)
         (let st3 := style_display (element modal) "flex"
                       (classList_add (element modal) "active" (handoff id st)) in
          if bodyScrollLock st3 then set_bodyOverflow "hidden" st3 else st3)) in
  match onOpen (options modal) with
  | Some cb => call (EvOnOpen cb (payload data)) st6
  | None => st6
  end.
Proof. intros H Hget. unfold open, handoff, payload. now rewrite H, Hget. Qed.

Lemma handoff_fields id st :
  let st1 := handoff id st in
  modals st1 = modals st /\ activeModal st1 = activeModal st /\
  queue st1 = queue st /\ bodyOverflow st1 = bodyOverflow st /\
  clock st1 = clock st /\ listeners st1 = listeners st /\
  sequential st1 = sequential st /\ bodyScrollLock st1 = bodyScrollLock st /\
  closeOnOverlay st1 = closeOnOverlay st /\ closeOnEsc st1 = closeOnEsc st /\
  (forall e, is_active (dom st1) e = is_active (dom st) e) /\
  (forall e, display (dom st1 e) = display (dom st e)).
Proof.
  unfold handoff.
  destruct (truthy (activeModal st) && negb (same_id (activeModal st) id)).
  - apply close_fields.
  - repeat split.
Qed.

Lemma close_silent_log id st : log (close id true st) = log st.
Proof.
  rewrite close_unfold.
  destruct (close_target id st) as [modalId|]; [|reflexivity].
  destruct (JsMap.get modalId (modals st)) as [modal|]; [|reflexivity].
  now rewrite consult_beforeClose_silent.
Qed.

Lemma handoff_log id st : log (handoff id st) = log st.
Proof.
  unfold handoff.
  destruct (truthy (activeModal st) && negb (same_id (activeModal st) id));
    [apply close_silent_log|reflexivity].
Qed.

(** [open] calls [onOpen] of the opened modal and nothing else. *)
Lemma open_log id data st :
  log (open id data st) = log st ++ open_calls id data st.
Proof.
  unfold open_calls.
  destruct (sequential st && truthy (activeModal st)) eqn:Hq.
  - rewrite (open_queued _ _ _ Hq). simpl. now rewrite app_nil_r.
  - destruct (JsMap.get id (modals st)) as [modal|] eqn:Hget.
    + rewrite (open_known _ _ _ _ Hq Hget). cbv zeta.
      destruct (onOpen (options modal)); simpl;
        destruct (bodyScrollLock (handoff id st)); simpl;
        rewrite handoff_log; now rewrite ?app_nil_r.
    + rewrite (open_unknown _ _ _ Hq Hget). now rewrite app_nil_r.
Qed.

Lemma settle_unfold modalId modal silent st :
  settle modalId modal silent st =
  match queue (settled modalId modal silent st) with
  | [] => settled modalId modal silent st
  | (nid, ndata) :: rest =>
      open nid ndata (set_queue rest (settled modalId modal silent st))
  end.
Proof. reflexivity. Qed.

Lemma settled_fields modalId modal silent st :
  let st1 := settled modalId modal silent st in
  modals st1 = modals st /\ queue st1 = queue st /\
  clock st1 = clock st /\ listeners st1 = listeners st /\ timers st1 = timers st /\
  sequential st1 = sequential st /\ bodyScrollLock st1 = bodyScrollLock st /\
  closeOnOverlay st1 = closeOnOverlay st /\ closeOnEsc st1 = closeOnEsc st /\
  log st1 = log st ++ close_calls modal silent /\
  activeModal st1 = (if same_id (activeModal st) modalId then None else activeModal st) /\
  dom st1 = dom_update (element modal) (fun s => mkElem (classList s) "")
              (dom_update (element modal)
                 (fun s => mkElem (ClassList.remove "active" (classList s)) (display s))
                 (dom st)).
Proof.
  unfold settled, close_calls. cbv zeta.
  set (st2 := style_display (element modal) ""
                (classList_remove (element modal) "active" st)).
  destruct (bodyScrollLock st2 && negb (hasOtherActiveModals st2));
    destruct (onClose (options modal)); [destruct silent| |destruct silent|];
    simpl; destruct (same_id (activeModal st) modalId); simpl;
    rewrite ?app_nil_r; repeat split.
Qed.

(** The callbacks a settle makes: [onClose] of the closed modal unless
    silent, then whatever the [open] of the queue's front entry calls. *)
Lemma settle_log modalId modal silent st :
  exists opened,
    log (settle modalId modal silent st)
    = log st ++ close_calls modal silent ++ opened /\
    (forall ev, In ev opened -> exists cb data, ev = EvOnOpen cb data).
Proof.
  rewrite settle_unfold.
  pose proof (settled_fields modalId modal silent st) as F. cbv zeta in F.
  destruct F as (_ & _ & _ & _ & _ & _ & _ & _ & _ & Hlog & _).
  destruct (queue (settled modalId modal silent st)) as [|[nid ndata] rest].
  - exists []. rewrite app_nil_r. split; [exact Hlog|intros ev []].
  - exists (open_calls nid ndata (set_queue rest (settled modalId modal silent st))).
    split.
    + rewrite open_log. simpl log at 1. rewrite Hlog. now rewrite app_assoc.
    + intros ev. unfold open_calls.
      repeat break_match; simpl; try contradiction.
      intros [<-|[]]. eauto.
Qed.

Lemma is_active_add_active d e x :
  is_active
    (dom_update e (fun s => mkElem (classList s) "flex")
       (dom_update e (fun s => mkElem (ClassList.add "active" (classList s)) (display s)) d)) x
  = Nat.eqb x e || is_active d x.
Proof.
  unfold is_active, dom_update. destruct (Nat.eqb x e); [|reflexivity].
  simpl. apply ClassListFacts.contains_add_same.
Qed.

(** What an [open] that gets past the queue and finds its record leaves. *)
Lemma open_known_fields id data st modal :
  sequential st && truthy (activeModal st) = false ->
  JsMap.get id (modals st) = Some modal ->
  let st1 := open id data st in
  modals st1 = modals st /\ activeModal st1 = Some id /\
  queue st1 = queue st /\
  bodyOverflow st1 = (if bodyScrollLock st then "hidden" else bodyOverflow st) /\
  clock st1 = clock st /\ listeners st1 = listeners st /\
  sequential st1 = sequential st /\ bodyScrollLock st1 = bodyScrollLock st /\
  closeOnOverlay st1 = closeOnOverlay st /\ closeOnEsc st1 = closeOnEsc st /\
  (forall e, is_active (dom st1) e = Nat.eqb e (element modal) || is_active (dom st) e) /\
  timers st1 = timers (handoff id st) ++ [mkTimer (clock st + 10) (ShowTimer modal)].
Proof.
  intros Hq Hget. cbv zeta. rewrite (open_known _ _ _ _ Hq Hget). cbv zeta.
  pose proof (handoff_fields id st) as F. cbv zeta in F.
  destruct F as (F1 & F2 & F3 & F4 & F5 & F6 & F7 & F8 & F9 & F10 & F11 & F12).
  destruct (onOpen (options modal)); simpl;
    destruct (bodyScrollLock (handoff id st)) eqn:Hb; simpl;
    rewrite <- F8, Hb, F5;
    (repeat split; try assumption;
     intros e; rewrite is_active_add_active; now rewrite F11).
Qed.

(** The fields no [open] touches. *)
Lemma open_fields id data st :
  let st1 := open id data st in
  modals st1 = modals st /\
  clock st1 = clock st /\ listeners st1 = listeners st /\
  sequential st1 = sequential st /\ bodyScrollLock st1 = bodyScrollLock st /\
  closeOnOverlay st1 = closeOnOverlay st /\ closeOnEsc st1 = closeOnEsc st.
Proof.
  cbv zeta. destruct (sequential st && truthy (activeModal st)) eqn:Hq.
  - rewrite (open_queued _ _ _ Hq). repeat split.
  - destruct (JsMap.get id (modals st)) as [modal|] eqn:Hget.
    + pose proof (open_known_fields id data st modal Hq Hget) as F. cbv zeta in F.
      repeat split; apply F.
    + rewrite (open_unknown _ _ _ Hq Hget). repeat split.
Qed.

(* ================================================================= *)
(** ** Unknown ids and misuse *)

(** Claim C5, as the code has it. [close(id)] for a non-empty id that is not
    registered changes nothing in any state. [open(id)] for an unregistered
    id changes nothing when the manager is not sequential or no modal is
    active; in sequential mode with a modal active the request is appended to
    the queue like any other, and nothing else changes. *)
Theorem unknown_id_is_absorbed (id : string) (data : JsVal) (silent : bool)
    (st : State) :
  id <> "" ->
  JsMap.get id (modals st) = None ->
  close (Some id) silent st = st /\
  (sequential st && truthy (activeModal st) = false -> open id data st = st) /\
  (sequential st && truthy (activeModal st) = true ->
   open id data st = set_queue (queue st ++ [(id, payload data)]) st).
Proof.
  intros Hid Hget. split; [|split].
  - unfold close. now rewrite (close_target_Some _ _ Hid), Hget.
  - intros Hq. now apply open_unknown.
  - intros Hq. now apply open_queued.
Qed.

Lemma unknown_id_is_absorbed_witness :
  let st := open "A" VNull (Sample.manager true) in
  close (Some "nonexistent") false st = st /\
  (sequential st && truthy (activeModal st) = false ->
   open "nonexistent" VUndefined st = st) /\
  (sequential st && truthy (activeModal st) = true ->
   open "nonexistent" VUndefined st
   = set_queue (queue st ++ [("nonexistent", payload VUndefined)]) st).
Proof.
  intros st. apply (unknown_id_is_absorbed "nonexistent" VUndefined false st).
  - discriminate.
  - reflexivity.
Defined.

(** Claim C5 fails as stated: in sequential mode with ["A"] active,
    [open("nonexistent")] leaves the request in the queue. *)
Lemma open_unknown_id_is_queued :
  let st := open "A" VNull (Sample.manager true) in
  JsMap.get "nonexistent" (modals st) = None /\
  sequential st = true /\
  activeModal st = Some "A" /\
  queue st = [] /\
  queue (open "nonexistent" VNull st) = [("nonexistent", VNull)].
Proof. by_evaluation. Qed.

(** Claim C4, as the code has it. In sequential mode [open(id, data)] is
    appended to the queue exactly when some modal is active, whichever it is:
    the request is queued, and nothing else happens, also when the active
    modal is [id] itself; with no modal active the queue is left alone. *)
Theorem sequential_open_queues_when_active (id : string) (data : JsVal)
    (st : State) :
  sequential st = true ->
  (truthy (activeModal st) = true ->
   open id data st = set_queue (queue st ++ [(id, payload data)]) st) /\
  (truthy (activeModal st) = false -> queue (open id data st) = queue st) /\
  (id <> "" -> activeModal st = Some id ->
   let st1 := open id data st in
   queue st1 = queue st ++ [(id, payload data)] /\
   dom st1 = dom st /\ log st1 = log st /\ timers st1 = timers st).
Proof.
  intros Hseq. split; [|split].
  - intros Ha. apply open_queued. now rewrite Hseq, Ha.
  - intros Ha.
    assert (Hq : sequential st && truthy (activeModal st) = false)
      by now rewrite Ha, andb_false_r.
    destruct (JsMap.get id (modals st)) as [modal|] eqn:Hget.
    + apply (open_known_fields id data st modal Hq Hget).
    + now rewrite (open_unknown _ _ _ Hq Hget).
  - intros Hid Ha st1. subst st1. rewrite open_queued.
    + repeat split.
    + rewrite Hseq, Ha. now apply truthy_Some.
Qed.

Lemma sequential_open_queues_when_active_witness :
  let st := open "A" VNull (Sample.manager true) in
  (truthy (activeModal st) = true ->
   open "A" (VNum 7) st = set_queue (queue st ++ [("A", payload (VNum 7))]) st) /\
  (truthy (activeModal st) = false -> queue (open "A" (VNum 7) st) = queue st) /\
  ("A" <> "" -> activeModal st = Some "A" ->
   let st1 := open "A" (VNum 7) st in
   queue st1 = queue st ++ [("A", payload (VNum 7))] /\
   dom st1 = dom st /\ log st1 = log st /\ timers st1 = timers st).
Proof.
  intros st. apply (sequential_open_queues_when_active "A" (VNum 7) st).
  reflexivity.
Defined.

(** Claim C4 fails as stated: in sequential mode, [open("A")] while ["A"] is
    the active modal is queued; no flag is applied again and [onOpen] is not
    called. *)
Lemma reopen_of_active_id_is_queued :
  let st := open "A" VNull (Sample.manager true) in
  let st1 := open "A" VNull st in
  sequential st = true /\
  activeModal st = Some "A" /\
  queue st = [] /\
  queue st1 = [("A", VNull)] /\
  log st1 = log st /\
  timers st1 = timers st /\
  dom st1 = dom st.
Proof. by_evaluation. Qed.

Lemma is_shown_remove_show_absent d e x :
  is_shown d e = false ->
  is_shown
    (dom_update e (fun s => mkElem (ClassList.remove "show" (classList s)) (display s)) d) x
  = is_shown d x.
Proof.
  intros H. unfold is_shown, dom_update.
  destruct (Nat.eqb_spec x e) as [->|]; [|reflexivity].
  simpl. now rewrite ClassListFacts.remove_absent.
Qed.

(** Claim C6, as the code has it. No misuse throws. [close()] with no
    argument while no modal is active changes nothing. [close(id)] on a
    registered modal that is already Closed returns with [activeModal], the
    queue, the scroll lock and every element's [active] and [show] flags
    unchanged, but it is a close like any other: [beforeClose], when defined,
    is consulted, and unless it vetoes the 300ms callback is scheduled, which
    calls the modal's [onClose] (when defined) once more. *)
Theorem close_misuse (id : string) (modal : Modal) (st : State) :
  id <> "" ->
  JsMap.get id (modals st) = Some modal ->
  is_closed st modal ->
  (truthy (activeModal st) = false -> forall silent, close None silent st = st) /\
  let st1 := close (Some id) false st in
  activeModal st1 = activeModal st /\
  queue st1 = queue st /\
  bodyOverflow st1 = bodyOverflow st /\
  (forall e, is_active (dom st1) e = is_active (dom st) e /\
             is_shown (dom st1) e = is_shown (dom st) e) /\
  log st1 = log st ++ match beforeClose (options modal) with
                      | Some bc => [EvBeforeClose (bc_fn bc)]
                      | None => []
                      end /\
  (vetoes modal st = false ->
   timers st1 = timers st ++ [mkTimer (clock st + 300) (SettleTimer id modal false)] /\
   forall cb st2,
     onClose (options modal) = Some cb ->
     exists opened,
       log (settle id modal false st2) = log st2 ++ EvOnClose cb :: opened).
Proof.
  intros Hid Hget [Hact Hshow]. split.
  { intros Ha silent. unfold close, close_target. simpl. now rewrite Ha. }
  intros st1.
  pose proof (close_fields (Some id) false st) as F. cbv zeta in F. fold st1 in F.
  destruct F as (_ & Fa & Fq & Fb & _ & _ & _ & _ & _ & _ & Fact & _).
  pose proof (consult_beforeClose_fields modal false st) as C. cbv zeta in C.
  destruct C as (_ & _ & _ & Cd & _ & Ct & Cc & _).
  assert (E : st1 = if vetoes modal st
                    then fst (consult_beforeClose modal false st)
                    else setTimeout (SettleTimer id modal false) 300
                           (classList_remove (element modal) "show"
                              (fst (consult_beforeClose modal false st)))).
  { subst st1. now rewrite close_unfold, (close_target_Some _ _ Hid), Hget. }
  split; [exact Fa|]. split; [exact Fq|]. split; [exact Fb|].
  split; [|split].
  - intros e. split; [apply Fact|].
    rewrite E. destruct (vetoes modal st); simpl; rewrite Cd; [reflexivity|].
    now apply is_shown_remove_show_absent.
  - rewrite E. destruct (vetoes modal st); simpl; apply consult_beforeClose_log.
  - intros Hveto. split.
    + rewrite E, Hveto. simpl. now rewrite Ct, Cc.
    + intros cb st2 Hcb.
      destruct (settle_log id modal false st2) as (opened & Hlog & _).
      exists opened. rewrite Hlog. unfold close_calls. now rewrite Hcb.
Qed.

Lemma close_misuse_witness :
  let st := Sample.manager false in
  (truthy (activeModal st) = false -> forall silent, close None silent st = st) /\
  let st1 := close (Some "B") false st in
  activeModal st1 = activeModal st /\
  queue st1 = queue st /\
  bodyOverflow st1 = bodyOverflow st /\
  (forall e, is_active (dom st1) e = is_active (dom st) e /\
             is_shown (dom st1) e = is_shown (dom st) e) /\
  log st1 = log st ++ match beforeClose (options Sample.modalB) with
                      | Some bc => [EvBeforeClose (bc_fn bc)]
                      | None => []
                      end /\
  (vetoes Sample.modalB st = false ->
   timers st1
   = timers st ++ [mkTimer (clock st + 300) (SettleTimer "B" Sample.modalB false)] /\
   forall cb st2,
     onClose (options Sample.modalB) = Some cb ->
     exists opened,
       log (settle "B" Sample.modalB false st2) = log st2 ++ EvOnClose cb :: opened).
Proof.
  intros st. apply (close_misuse "B" Sample.modalB st).
  - discriminate.
  - reflexivity.
  - split; reflexivity.
Defined.

(** Claim C6 fails as stated: ["A"] is opened, closed and settled, so it is
    Closed; a second [close("A")] calls its [onClose] a second time when the
    300ms callback runs. *)
Lemma double_close_calls_onClose_again :
  let st := tick (close (Some "A") false (tick (open "A" VNull (Sample.manager false)))) in
  let st2 := tick (close (Some "A") false st) in
  is_open st "A" = false /\
  is_shown (dom st) (element Sample.modalA) = false /\
  activeModal st = None /\
  timers st = [] /\
  log st = [EvOnOpen 1 VNull; EvOnClose 101] /\
  log st2 = [EvOnOpen 1 VNull; EvOnClose 101; EvOnClose 101].
Proof. by_evaluation. Qed.

(* ================================================================= *)
(** ** Silent closes *)

Lemma close_silent_known id modal st :
  id <> "" ->
  JsMap.get id (modals st) = Some modal ->
  close (Some id) true st
  = setTimeout (SettleTimer id modal true) 300
      (classList_remove (element modal) "show" st).
Proof.
  intros Hid Hget.
  now rewrite close_unfold, (close_target_Some _ _ Hid), Hget,
    consult_beforeClose_silent.
Qed.

Lemma close_silent_timers id st :
  exists ts, timers (close id true st) = timers st ++ ts /\
             forallb silent_timer ts = true.
Proof.
  rewrite close_unfold.
  destruct (close_target id st) as [modalId|];
    [|exists []; now rewrite app_nil_r].
  destruct (JsMap.get modalId (modals st)) as [modal|];
    [|exists []; now rewrite app_nil_r].
  rewrite consult_beforeClose_silent. simpl.
  now exists [mkTimer (clock st + 300) (SettleTimer modalId modal true)].
Qed.

Lemma handoff_timers id st :
  exists ts, timers (handoff id st) = timers st ++ ts /\
             forallb silent_timer ts = true.
Proof.
  unfold handoff.
  destruct (truthy (activeModal st) && negb (same_id (activeModal st) id)).
  - apply close_silent_timers.
  - exists []. now rewrite app_nil_r.
Qed.

Lemma open_timers id data st :
  exists ts, timers (open id data st) = timers st ++ ts /\
             forallb silent_timer ts = true.
Proof.
  destruct (sequential st && truthy (activeModal st)) eqn:Hq.
  - rewrite (open_queued _ _ _ Hq). exists []. now rewrite app_nil_r.
  - destruct (JsMap.get id (modals st)) as [modal|] eqn:Hget.
    + pose proof (open_known_fields id data st modal Hq Hget) as F. cbv zeta in F.
      destruct F as (_ & _ & _ & _ & _ & _ & _ & _ & _ & _ & _ & Ft).
      destruct (handoff_timers id st) as (ts & Hts & Hs).
      exists (ts ++ [mkTimer (clock st + 10) (ShowTimer modal)]).
      rewrite Ft, Hts, <- app_assoc. split; [reflexivity|].
      rewrite forallb_app, Hs. reflexivity.
    + rewrite (open_unknown _ _ _ Hq Hget). exists []. now rewrite app_nil_r.
Qed.

Lemma close_callbacks_app l1 l2 :
  close_callbacks (l1 ++ l2) = close_callbacks l1 ++ close_callbacks l2.
Proof. apply filter_app. Qed.

Lemma close_callbacks_open_calls id data st :
  close_callbacks (open_calls id data st) = [].
Proof. unfold open_calls. repeat break_match; reflexivity. Qed.

Lemma filter_onClose_open_calls id data st :
  filter is_onClose (open_calls id data st) = [].
Proof. unfold open_calls. repeat break_match; reflexivity. Qed.

(** The log after a settle, exactly. *)
Lemma settle_log_eq modalId modal silent st :
  log (settle modalId modal silent st)
  = log st ++ close_calls modal silent
      ++ match queue st with
         | [] => []
         | (nid, ndata) :: rest =>
             open_calls nid ndata (set_queue rest (settled modalId modal silent st))
         end.
Proof.
  rewrite settle_unfold.
  pose proof (settled_fields modalId modal silent st) as F. cbv zeta in F.
  destruct F as (_ & Fq & _ & _ & _ & _ & _ & _ & _ & Hlog & _).
  rewrite Fq. destruct (queue st) as [|[nid ndata] rest].
  - now rewrite app_nil_r.
  - rewrite open_log. simpl log at 1. rewrite Hlog. now rewrite app_assoc.
Qed.

Lemma settle_silent_close_callbacks modalId modal st :
  close_callbacks (log (settle modalId modal true st)) = close_callbacks (log st).
Proof.
  rewrite settle_log_eq, !close_callbacks_app.
  assert (Hc : close_calls modal true = []).
  { unfold close_calls. now destruct (onClose (options modal)). }
  rewrite Hc. simpl.
  destruct (queue st) as [|[nid ndata] rest]; simpl.
  - now rewrite app_nil_r.
  - now rewrite close_callbacks_open_calls, app_nil_r.
Qed.

Lemma settle_timers modalId modal silent st :
  exists ts, timers (settle modalId modal silent st) = timers st ++ ts /\
             forallb silent_timer ts = true.
Proof.
  rewrite settle_unfold.
  pose proof (settled_fields modalId modal silent st) as F. cbv zeta in F.
  destruct F as (_ & _ & _ & _ & Ft & _).
  destruct (queue (settled modalId modal silent st)) as [|[nid ndata] rest].
  - exists []. now rewrite app_nil_r.
  - destruct (open_timers nid ndata (set_queue rest (settled modalId modal silent st)))
      as (ts & Hts & Hs).
    exists ts. rewrite Hts. simpl. now rewrite Ft.
Qed.

Lemma forallb_remove_nth {A} (f : A -> bool) i l :
  forallb f l = true -> forallb f (remove_nth i l) = true.
Proof.
  revert i. induction l as [|x l IH]; intros i H; [now destruct i|].
  simpl in H. apply andb_true_iff in H as [Hx Hl].
  destruct i; simpl; [exact Hl|]. now rewrite Hx, IH.
Qed.

Lemma forallb_nth_error {A} (f : A -> bool) i l x :
  forallb f l = true -> nth_error l i = Some x -> f x = true.
Proof.
  intros H Hn. apply nth_error_In in Hn.
  rewrite forallb_forall in H. now apply H.
Qed.

(** While every pending timer is silent, firing one calls no [onClose] and
    no [beforeClose], and leaves only silent timers pending. *)
Lemma fire_silent i st :
  forallb silent_timer (timers st) = true ->
  forallb silent_timer (timers (fire i st)) = true /\
  close_callbacks (log (fire i st)) = close_callbacks (log st).
Proof.
  intros H. unfold fire.
  destruct (nth_error (timers st) i) as [t|] eqn:Hn; [|now split].
  pose proof (forallb_nth_error _ _ _ _ H Hn) as Ht.
  pose proof (forallb_remove_nth silent_timer i _ H) as Hr.
  unfold run_timer. unfold silent_timer in Ht.
  destruct (act t) as [modal|modalId modal silent].
  - split; [exact Hr|reflexivity].
  - subst silent. split.
    + destruct (settle_timers modalId modal true
                  (set_clock (Nat.max (clock st) (due t))
                     (set_timers (remove_nth i (timers st)) st)))
        as (ts & Hts & Hs).
      rewrite Hts, forallb_app, Hs. simpl. now rewrite Hr.
    + now rewrite settle_silent_close_callbacks.
Qed.

Lemma fires_silent (fires : list nat) st :
  forallb silent_timer (timers st) = true ->
  close_callbacks (log (run (map Fire fires) st)) = close_callbacks (log st).
Proof.
  revert st. induction fires as [|i fires IH]; intros st H; [reflexivity|].
  destruct (fire_silent i st H) as [Ht Hl].
  change (run (map Fire (i :: fires)) st) with (run (map Fire fires) (fire i st)).
  rewrite (IH _ Ht). exact Hl.
Qed.

(** The loop of [closeAll], over any part of the registry. *)
Lemma closeAll_loop_log (l : list (string * Modal)) st :
  let st1 := fold_left (fun s entry => close (Some (fst entry)) true s) l st in
  log st1 = log st /\ queue st1 = queue st /\
  exists ts, timers st1 = timers st ++ ts /\ forallb silent_timer ts = true.
Proof.
  revert st. induction l as [|x l IH]; intros st; simpl.
  - repeat split. exists []. now rewrite app_nil_r.
  - destruct (IH (close (Some (fst x)) true st)) as (Hl & Hq & ts & Hts & Hs).
    rewrite Hl, Hq, close_silent_log.
    pose proof (close_fields (Some (fst x)) true st) as F. cbv zeta in F.
    destruct F as (_ & _ & Fq & _).
    destruct (close_silent_timers (Some (fst x)) st) as (ts0 & Hts0 & Hs0).
    repeat split; [exact Fq|].
    exists (ts0 ++ ts). rewrite Hts, Hts0, <- app_assoc. split; [reflexivity|].
    now rewrite forallb_app, Hs0, Hs.
Qed.

Lemma is_shown_remove_show d e x :
  is_shown
    (dom_update e (fun s => mkElem (ClassList.remove "show" (classList s)) (display s)) d) x
  = negb (Nat.eqb x e) && is_shown d x.
Proof.
  unfold is_shown, dom_update. destruct (Nat.eqb x e); [|reflexivity].
  simpl. apply ClassListFacts.contains_remove_same.
Qed.

Lemma close_keeps_unshown id silent st e :
  is_shown (dom st) e = false -> is_shown (dom (close id silent st)) e = false.
Proof.
  intros H. rewrite close_unfold.
  destruct (close_target id st) as [modalId|]; [|exact H].
  destruct (JsMap.get modalId (modals st)) as [modal|]; [|exact H].
  pose proof (consult_beforeClose_fields modal silent st) as C. cbv zeta in C.
  destruct C as (_ & _ & _ & Cd & _).
  destruct (snd (consult_beforeClose modal silent st)).
  - now rewrite Cd.
  - simpl. rewrite Cd, is_shown_remove_show, H. apply andb_false_r.
Qed.

Lemma closeAll_loop_timers (l : list (string * Modal)) st :
  (forall id modal, In (id, modal) l ->
                    id <> "" /\ JsMap.get id (modals st) = Some modal) ->
  let st1 := fold_left (fun s entry => close (Some (fst entry)) true s) l st in
  timers st1 = timers st ++ map (settle_timer st true) l /\
  (forall id modal, In (id, modal) l -> is_shown (dom st1) (element modal) = false).
Proof.
  revert st. induction l as [|[id modal] l IH]; intros st H; simpl.
  - split; [now rewrite app_nil_r|]. intros ? ? [].
  - destruct (H id modal (or_introl eq_refl)) as [Hid Hget].
    pose proof (close_fields (Some id) true st) as F. cbv zeta in F.
    destruct F as (Fm & _ & _ & _ & Fc & _).
    destruct (IH (close (Some id) true st)) as [Ht Hshow].
    { intros id' modal' Hin. rewrite Fm. apply H. now right. }
    assert (Hts : timers (close (Some id) true st)
                  = timers st ++ [settle_timer st true (id, modal)]).
    { now rewrite (close_silent_known _ _ _ Hid Hget). }
    assert (Hmap : map (settle_timer (close (Some id) true st) true) l
                   = map (settle_timer st true) l).
    { apply map_ext. intros entry. unfold settle_timer. now rewrite Fc. }
    split.
    + rewrite Ht, Hts, Hmap, <- app_assoc. reflexivity.
    + intros id' modal' [Heq|Hin]; [|now apply (Hshow id' modal')].
      injection Heq as <- <-.
      apply (fold_left_inv (fun s => is_shown (dom s) (element modal) = false)).
      * intros s entry Hs. now apply close_keeps_unshown.
      * rewrite (close_silent_known _ _ _ Hid Hget). simpl.
        rewrite is_shown_remove_show, Nat.eqb_refl. reflexivity.
Qed.

(** Claim C9 (silent closes suppress callbacks).
    [closeAll()] empties the queue and calls nothing; over a registry of
    unique non-empty ids it starts a silent close of every registered modal,
    in registration order, and once it has run no firing of the timers then
    pending calls any [onClose] or [beforeClose] (given that none of an
    earlier non-silent close was still pending). [open] itself calls neither
    and schedules only silent timers: its hand-off is such a silent close of
    the active modal, and the 300ms callback of a silent close calls neither. An ordinary close that is not vetoed calls
    no [onClose] when it returns and its 300ms callback calls the modal's
    [onClose] exactly once. *)
Theorem silent_closes_suppress_callbacks :
  (forall st,
      queue (closeAll st) = [] /\
      log (closeAll st) = log st /\
      (NoDup (JsMap.keys (modals st)) ->
       (forall id modal, In (id, modal) (modals st) -> id <> "") ->
       timers (closeAll st) = timers st ++ map (settle_timer st true) (modals st) /\
       forall id modal, In (id, modal) (modals st) ->
                        is_shown (dom (closeAll st)) (element modal) = false) /\
      (forallb silent_timer (timers st) = true ->
       forall fires,
         close_callbacks (log (run (map Fire fires) (closeAll st)))
         = close_callbacks (log st))) /\
  (forall id data st,
      close_callbacks (log (open id data st)) = close_callbacks (log st) /\
      exists ts, timers (open id data st) = timers st ++ ts /\
                 forallb silent_timer ts = true) /\
  (forall id st,
      log (handoff id st) = log st /\
      forall active modal,
        activeModal st = Some active -> active <> "" -> active <> id ->
        JsMap.get active (modals st) = Some modal ->
        timers (handoff id st) = timers st ++ [settle_timer st true (active, modal)]) /\
  (forall modalId modal st,
      close_callbacks (log (settle modalId modal true st)) = close_callbacks (log st)) /\
  (forall id st modalId modal cb,
      close_target id st = Some modalId ->
      JsMap.get modalId (modals st) = Some modal ->
      vetoes modal st = false ->
      onClose (options modal) = Some cb ->
      filter is_onClose (log (close id false st)) = filter is_onClose (log st) /\
      timers (close id false st) = timers st ++ [settle_timer st false (modalId, modal)] /\
      forall st2,
        filter is_onClose (log (settle modalId modal false st2))
        = filter is_onClose (log st2) ++ [EvOnClose cb]).
Proof.
  split; [|split; [|split; [|split]]].
  - intros st. unfold closeAll.
    pose proof (closeAll_loop_log (modals st) st) as L. cbv zeta in L.
    destruct L as (Hl & Hq & ts & Hts & Hs).
    split; [reflexivity|]. split; [exact Hl|]. split.
    + intros Hnd Hne.
      destruct (closeAll_loop_timers (modals st) st) as [Ht Hshow].
      { intros id modal Hin. split; [now apply (Hne id modal)|now apply In_get]. }
      split; [exact Ht|].
      intros id modal Hin. simpl. now apply (Hshow id modal).
    + intros Hsil fires. rewrite fires_silent.
      * simpl. now rewrite Hl.
      * simpl. now rewrite Hts, forallb_app, Hsil, Hs.
  - intros id data st. split; [|apply open_timers].
    now rewrite open_log, close_callbacks_app, close_callbacks_open_calls, app_nil_r.
  - intros id st. split; [apply handoff_log|].
    intros active modal Ha Hne Hid Hget. unfold handoff. rewrite Ha. simpl.
    destruct (String.eqb_spec active ""); [contradiction|].
    destruct (String.eqb_spec active id); [contradiction|]. simpl.
    now rewrite (close_silent_known _ _ _ Hne Hget).
  - apply settle_silent_close_callbacks.
  - intros id st modalId modal cb Ht Hget Hveto Hcb.
    assert (E : close id false st
                = setTimeout (SettleTimer modalId modal false) 300
                    (classList_remove (element modal) "show"
                       (fst (consult_beforeClose modal false st)))).
    { rewrite close_unfold, Ht, Hget. unfold vetoes in Hveto. now rewrite Hveto. }
    pose proof (consult_beforeClose_fields modal false st) as C. cbv zeta in C.
    destruct C as (_ & _ & _ & _ & _ & Ct & Cc & _).
    split; [|split].
    + rewrite E. simpl. rewrite consult_beforeClose_log, filter_app.
      destruct (beforeClose (options modal)); simpl; now rewrite app_nil_r.
    + rewrite E. simpl. now rewrite Ct, Cc.
    + intros st2. rewrite settle_log_eq, !filter_app.
      unfold close_calls. rewrite Hcb. simpl.
      destruct (queue st2) as [|[nid ndata] rest]; simpl; [reflexivity|].
      now rewrite filter_onClose_open_calls.
Qed.

Lemma silent_closes_suppress_callbacks_witness :
  let st := open "B" VNull (open "A" VNull (Sample.manager false)) in
  (queue (closeAll st) = [] /\ log (closeAll st) = log st /\
   timers (closeAll st) = timers st ++ map (settle_timer st true) (modals st) /\
   close_callbacks (log (run (map Fire [0; 0; 0; 0; 0; 0; 0]) (closeAll st)))
   = close_callbacks (log st)) /\
  timers (handoff "B" (open "A" VNull (Sample.manager false)))
  = timers (open "A" VNull (Sample.manager false))
      ++ [settle_timer (open "A" VNull (Sample.manager false)) true ("A", Sample.modalA)] /\
  filter is_onClose (log (settle "B" Sample.modalB false (close (Some "B") false st)))
  = filter is_onClose (log (close (Some "B") false st)) ++ [EvOnClose 102].
Proof.
  intros st.
  destruct silent_closes_suppress_callbacks
    as (HcloseAll & _ & Hhandoff & _ & Hclose).
  destruct (HcloseAll st) as (Hq & Hl & Ht & Hf).
  split; [|split].
  - split; [exact Hq|]. split; [exact Hl|]. split.
    + apply Ht.
      * vm_compute. repeat constructor; simpl; intuition discriminate.
      * intros id modal Hin.
        assert (F : forallb (fun entry => negb (String.eqb (fst entry) ""))
                      (modals st) = true) by (vm_compute; reflexivity).
        rewrite forallb_forall in F. specialize (F _ Hin). simpl in F.
        now destruct (String.eqb_spec id "").
    + apply Hf. vm_compute. reflexivity.
  - apply (Hhandoff "B" (open "A" VNull (Sample.manager false)));
      try discriminate; vm_compute; reflexivity.
  - apply (Hclose (Some "B") st "B" Sample.modalB 102); vm_compute; reflexivity.
Defined.

(* ================================================================= *)
(** ** The queue *)

Lemma payload_idem data : payload (payload data) = payload data.
Proof. now destruct data. Qed.

Lemma settle_pops modalId modal silent st nid ndata rest :
  queue st = (nid, ndata) :: rest ->
  settle modalId modal silent st
  = open nid ndata (set_queue rest (settled modalId modal silent st)).
Proof.
  intros Hq. rewrite settle_unfold.
  pose proof (settled_fields modalId modal silent st) as F. cbv zeta in F.
  destruct F as (_ & Fq & _). now rewrite Fq, Hq.
Qed.

(** In sequential mode, closing the active modal hands over to the front of
    the queue. *)
Lemma close_settle_pops a b ma mb db rest st :
  sequential st = true ->
  activeModal st = Some a ->
  a <> "" ->
  JsMap.get a (modals st) = Some ma ->
  vetoes ma st = false ->
  queue st = (b, db) :: rest ->
  JsMap.get b (modals st) = Some mb ->
  let st1 := close_and_settle a st in
  activeModal st1 = Some b /\
  queue st1 = rest /\
  is_open st1 b = true /\
  sequential st1 = true /\
  modals st1 = modals st /\
  log st1 = log (close (Some a) false st) ++ close_calls ma false
              ++ onOpen_call mb (payload db).
Proof.
  intros Hseq Ha Hne Hga Hveto Hq Hgb. cbv zeta. unfold close_and_settle.
  rewrite (close_fire (Some a) false st a ma (close_target_Some _ _ Hne) Hga Hveto).
  pose proof (close_fields (Some a) false st) as F. cbv zeta in F.
  destruct F as (Fm & Fa & Fq & _ & _ & _ & Fs & _).
  set (s0 := set_clock _ _).
  assert (Hq0 : queue s0 = (b, db) :: rest) by (subst s0; simpl; congruence).
  rewrite (settle_pops _ _ _ _ _ _ _ Hq0).
  pose proof (settled_fields a ma false s0) as S. cbv zeta in S.
  destruct S as (Sm & _ & _ & _ & _ & Ss & _ & _ & _ & Sl & Sa & _).
  set (s1 := set_queue rest (settled a ma false s0)).
  assert (Hact : activeModal s1 = None).
  { subst s1. simpl. rewrite Sa. subst s0. simpl. rewrite Fa, Ha. simpl.
    now rewrite String.eqb_refl. }
  assert (Hgate : sequential s1 && truthy (activeModal s1) = false)
    by (rewrite Hact; apply andb_false_r).
  assert (Hmod : modals s1 = modals st).
  { subst s1. simpl. rewrite Sm. subst s0. simpl. exact Fm. }
  assert (Hgb1 : JsMap.get b (modals s1) = Some mb) by now rewrite Hmod.
  pose proof (open_known_fields b db s1 mb Hgate Hgb1) as O. cbv zeta in O.
  destruct O as (Om & Oa & Oq & _ & _ & _ & Os & _ & _ & _ & Oact & _).
  repeat split.
  - exact Oa.
  - exact Oq.
  - unfold is_open. rewrite Om, Hgb1, Oact, Nat.eqb_refl. reflexivity.
  - rewrite Os. subst s1. simpl. rewrite Ss. subst s0. simpl. congruence.
  - congruence.
  - rewrite open_log. unfold open_calls. rewrite Hgate, Hgb1.
    subst s1. simpl log. rewrite Sl. subst s0. simpl log.
    unfold onOpen_call. now rewrite app_assoc.
Qed.

(* ================================================================= *)
(** ** The shared scroll lock *)

Lemma hasOtherActiveModals_ext st1 st :
  modals st1 = modals st ->
  (forall e, is_active (dom st1) e = is_active (dom st) e) ->
  hasOtherActiveModals st1 = hasOtherActiveModals st.
Proof.
  intros Hm Ha. rewrite !hasOtherActiveModals_existsb, Hm.
  apply existsb_pointwise. intros entry. apply Ha.
Qed.

Lemma settled_is_active modalId modal silent st e :
  is_active (dom (settled modalId modal silent st)) e
  = negb (Nat.eqb e (element modal)) && is_active (dom st) e.
Proof.
  pose proof (settled_fields modalId modal silent st) as F. cbv zeta in F.
  destruct F as (_ & _ & _ & _ & _ & _ & _ & _ & _ & _ & _ & Fd).
  rewrite Fd. unfold is_active, dom_update.
  destruct (Nat.eqb e (element modal)); [|reflexivity].
  simpl. apply ClassListFacts.contains_remove_same.
Qed.

(** The decision of the 300ms callback, read off the state it leaves. *)
Lemma settled_overflow modalId modal silent st :
  bodyOverflow (settled modalId modal silent st)
  = if bodyScrollLock st && negb (hasOtherActiveModals (settled modalId modal silent st))
    then "" else bodyOverflow st.
Proof.
  set (st2 := style_display (element modal) ""
                (classList_remove (element modal) "active" st)).
  assert (Hh : hasOtherActiveModals (settled modalId modal silent st)
               = hasOtherActiveModals st2).
  { apply hasOtherActiveModals_ext.
    - pose proof (settled_fields modalId modal silent st) as F. apply F.
    - intros e. rewrite settled_is_active. subst st2. simpl.
      unfold is_active, dom_update.
      destruct (Nat.eqb e (element modal)); [|reflexivity].
      simpl. now rewrite ClassListFacts.contains_remove_same. }
  rewrite Hh. unfold settled. cbv zeta. fold st2.
  change (bodyScrollLock st2) with (bodyScrollLock st).
  destruct (bodyScrollLock st && negb (hasOtherActiveModals st2));
    destruct (onClose (options modal)); [destruct silent| |destruct silent|];
    simpl; destruct (same_id (activeModal st) modalId); reflexivity.
Qed.














Lemma released_not_locked st : locked st -> ~ released st.
Proof. unfold locked, released. intros -> H. discriminate. Qed.







(* ================================================================= *)
(** ** The two phases of a close *)

(** Claim C8 (two-phase close). A [close] that is not vetoed returns having
    only removed [show] from the modal's element (after the [beforeClose]
    consultation, if any): [activeModal], every [active] flag and display,
    the scroll lock and the queue are as before and no [onClose] has been
    called. Everything else is in the one callback it scheduled for 300ms
    later, which runs only when that timer fires, whenever that is and
    whatever has happened since; from a manager with no other timer pending
    it is what the host runs next. In the state [s] it then finds, the
    callback removes [active] from the modal's element and resets its
    display, releases the scroll lock when the lock is enabled and no
    registered modal is left active, clears [activeModal] when it is still
    this id, calls [onClose] unless silent, and then drains the queue by one:
    with a request waiting it takes the front one and [open]s it. *)
Theorem close_is_two_phase (id : option string) (silent : bool) (st : State)
    (modalId : string) (modal : Modal) :
  close_target id st = Some modalId ->
  JsMap.get modalId (modals st) = Some modal ->
  snd (consult_beforeClose modal silent st) = false ->
  let st1 := close id silent st in
  (* synchronously: only [show] is dropped *)
  activeModal st1 = activeModal st /\
  queue st1 = queue st /\
  bodyOverflow st1 = bodyOverflow st /\
  (forall e, is_active (dom st1) e = is_active (dom st) e) /\
  (forall e, display (dom st1 e) = display (dom st e)) /\
  is_shown (dom st1) (element modal) = false /\
  (forall e, e <> element modal -> dom st1 e = dom st e) /\
  (forall cb, ~ In (EvOnClose cb) (skipn (List.length (log st)) (log st1))) /\
  (* the rest is deferred by 300ms *)
  timers st1
  = timers st ++ [mkTimer (clock st + 300) (SettleTimer modalId modal silent)] /\
  fire (List.length (timers st)) st1
  = settle modalId modal silent
      (set_clock (Nat.max (clock st) (clock st + 300))
         (set_timers (timers st) st1)) /\
  (timers st = [] ->
   tick st1
   = settle modalId modal silent
       (set_clock (Nat.max (clock st) (clock st + 300)) (set_timers [] st1))) /\
  (forall s i due,
      nth_error (timers s) i = Some (mkTimer due (SettleTimer modalId modal silent)) ->
      fire i s
      = settle modalId modal silent
          (set_clock (Nat.max (clock s) due) (set_timers (remove_nth i (timers s)) s))) /\
  (* what the callback does in the state [s] it finds *)
  (forall s,
      let s2 := settled modalId modal silent s in
      (forall e, is_active (dom s2) e
                 = negb (Nat.eqb e (element modal)) && is_active (dom s) e) /\
      display (dom s2 (element modal)) = "" /\
      (forall e, e <> element modal -> dom s2 e = dom s e) /\
      bodyOverflow s2
      = (if bodyScrollLock s && negb (hasOtherActiveModals s2) then "" else bodyOverflow s) /\
      activeModal s2 = (if same_id (activeModal s) modalId then None else activeModal s) /\
      log s2 = log s ++ (match onClose (options modal) with
                         | Some cb => if silent then [] else [EvOnClose cb]
                         | None => []
                         end) /\
      modals s2 = modals s /\ queue s2 = queue s /\ timers s2 = timers s /\
      settle modalId modal silent s
      = match queue s with
        | [] => s2
        | (nid, ndata) :: rest => open nid ndata (set_queue rest s2)
        end).
Proof.
  intros Ht Hget Hveto st1.
  pose proof (close_fields id silent st) as F. cbv zeta in F. fold st1 in F.
  destruct F as (_ & Fa & Fq & Fb & Fc & _ & _ & _ & _ & _ & Fact & Fdisp).
  pose proof (consult_beforeClose_fields modal silent st) as C. cbv zeta in C.
  destruct C as (_ & _ & _ & Cd & _ & Ct & Cc & _).
  assert (E : st1 = setTimeout (SettleTimer modalId modal silent) 300
                      (classList_remove (element modal) "show"
                         (fst (consult_beforeClose modal silent st)))).
  { subst st1. now rewrite close_unfold, Ht, Hget, Hveto. }
  assert (Htm : timers st1
                = timers st ++ [mkTimer (clock st + 300) (SettleTimer modalId modal silent)]).
  { rewrite E. simpl. now rewrite Ct, Cc. }
  split; [exact Fa|]. split; [exact Fq|]. split; [exact Fb|].
  split; [exact Fact|]. split; [exact Fdisp|].
  split.
  { rewrite E. simpl. unfold is_shown, dom_update. rewrite Nat.eqb_refl. simpl.
    apply ClassListFacts.contains_remove_same. }
  split.
  { intros e He. rewrite E. simpl. unfold dom_update.
    destruct (Nat.eqb_spec e (element modal)); [contradiction|]. now rewrite Cd. }
  split.
  { intros cb Hin. rewrite E in Hin. simpl in Hin.
    unfold consult_beforeClose in Hin.
    destruct (beforeClose (options modal)); [destruct silent|]; simpl in Hin.
    - rewrite skipn_all in Hin. exact Hin.
    - rewrite skipn_app, skipn_all, Nat.sub_diag in Hin. simpl in Hin.
      destruct Hin as [Hin|[]]. discriminate.
    - rewrite skipn_all in Hin. exact Hin. }
  split; [exact Htm|].
  split; [subst st1; now apply close_fire|].
  split.
  { intros Hno. rewrite Hno in Htm. rewrite (tick_single st1 _ Htm).
    unfold run_timer. simpl act. cbv iota. simpl due. now rewrite Fc. }
  split.
  { intros s i due Hn. now rewrite (fire_nth s i _ Hn). }
  intros s s2.
  pose proof (settled_fields modalId modal silent s) as S. cbv zeta in S. fold s2 in S.
  destruct S as (Sm & Sq & _ & _ & St & _ & _ & _ & _ & Sl & Sa & Sd).
  split; [intros e; apply settled_is_active|].
  split; [rewrite Sd; unfold dom_update; now rewrite Nat.eqb_refl|].
  split.
  { intros e He. rewrite Sd. unfold dom_update.
    destruct (Nat.eqb_spec e (element modal)); [contradiction|reflexivity]. }
  split; [apply settled_overflow|].
  split; [exact Sa|].
  split.
  { rewrite Sl. unfold close_calls. now destruct (onClose (options modal)), silent. }
  split; [exact Sm|]. split; [exact Sq|]. split; [exact St|].
  rewrite settle_unfold. fold s2. now rewrite Sq.
Qed.

Lemma close_is_two_phase_witness :
  let st := tick (open "A" VNull (Sample.manager true)) in
  let st1 := close (Some "A") false st in
  (activeModal st1 = Some "A" /\ is_open st1 "A" = true /\ bodyOverflow st1 = "hidden" /\
   log st1 = [EvOnOpen 1 VNull]) /\
  (activeModal (tick st1) = None /\ is_open (tick st1) "A" = false /\
   bodyOverflow (tick st1) = "" /\ log (tick st1) = [EvOnOpen 1 VNull; EvOnClose 101]) /\
  tick st1
  = settle "A" Sample.modalA false
      (set_clock (Nat.max (clock st) (clock st + 300)) (set_timers [] st1)).
Proof.
  intros st st1.
  split; [repeat split; vm_compute; reflexivity|].
  split; [repeat split; vm_compute; reflexivity|].
  assert (H1 : close_target (Some "A") st = Some "A") by (vm_compute; reflexivity).
  assert (H2 : JsMap.get "A" (modals st) = Some Sample.modalA) by (vm_compute; reflexivity).
  assert (H3 : snd (consult_beforeClose Sample.modalA false st) = false)
    by (vm_compute; reflexivity).
  assert (H4 : timers st = []) by (vm_compute; reflexivity).
  destruct (close_is_two_phase (Some "A") false st "A" Sample.modalA H1 H2 H3)
    as (_ & _ & _ & _ & _ & _ & _ & _ & _ & _ & Htick & _).
  exact (Htick H4).
Defined.

(* ================================================================= *)
(** ** At most one modal is open in sequential mode *)

Lemma close_timers_cases id silent st :
  timers (close id silent st) = timers st \/
  exists modalId modal,
    JsMap.get modalId (modals st) = Some modal /\
    timers (close id silent st)
    = timers st ++ [mkTimer (clock st + 300) (SettleTimer modalId modal silent)].
Proof.
  destruct (close_target id st) as [modalId|] eqn:Ht;
    [|left; now rewrite close_unfold, Ht].
  destruct (JsMap.get modalId (modals st)) as [modal|] eqn:Hget;
    [|left; now rewrite close_unfold, Ht, Hget].
  destruct (snd (consult_beforeClose modal silent st)) eqn:Hveto.
  - left. rewrite close_unfold, Ht, Hget, Hveto.
    apply (consult_beforeClose_fields modal silent st).
  - right. exists modalId, modal. split; [exact Hget|].
    now apply close_started.
Qed.

Lemma seq_inv_close id silent st : seq_inv st -> seq_inv (close id silent st).
Proof.
  intros [Hs Hwf Ha Ht Hn].
  pose proof (close_fields id silent st) as F. cbv zeta in F.
  destruct F as (Fm & Fa & _ & _ & _ & _ & Fs & _ & _ & _ & Fact & _).
  constructor.
  - congruence.
  - now rewrite Fm.
  - intros i m Hin Hact. rewrite Fm in Hin. rewrite Fact in Hact. rewrite Fa. eauto.
  - intros t modalId modal sil Hin Hact. rewrite Fm.
    destruct (close_timers_cases id silent st) as [E|(mid & m & Hget & E)];
      rewrite E in Hin; [eauto|].
    apply in_app_or in Hin as [Hin|[<-|[]]]; [eauto|].
    simpl in Hact. injection Hact as <- <- _. exact Hget.
  - intros i Hi. rewrite Fa in Hi. eauto.
Qed.

Lemma seq_inv_set_queue q st : seq_inv st -> seq_inv (set_queue q st).
Proof. intros [Hs Hwf Ha Ht Hn]. now constructor. Qed.

Lemma seq_inv_set_clock c st : seq_inv st -> seq_inv (set_clock c st).
Proof. intros [Hs Hwf Ha Ht Hn]. now constructor. Qed.

Lemma In_remove_nth {A} (x : A) i l : In x (remove_nth i l) -> In x l.
Proof.
  revert i. induction l as [|y l IH]; intros i H; [now destruct i|].
  destruct i; simpl in H; [now right|].
  destruct H as [H|H]; [now left|right; eauto].
Qed.

Lemma seq_inv_drop_timer i st :
  seq_inv st -> seq_inv (set_timers (remove_nth i (timers st)) st).
Proof.
  intros [Hs Hwf Ha Ht Hn]. constructor; try assumption.
  intros t modalId modal sil Hin Hact. simpl in Hin.
  apply In_remove_nth in Hin. simpl. eauto.
Qed.

Lemma seq_inv_open id data st : seq_inv st -> seq_inv (open id data st).
Proof.
  intros H.
  destruct (sequential st && truthy (activeModal st)) eqn:Hq.
  { rewrite (open_queued _ _ _ Hq). now apply seq_inv_set_queue. }
  destruct (JsMap.get id (modals st)) as [modal|] eqn:Hget;
    [|now rewrite (open_unknown _ _ _ Hq Hget)].
  destruct H as [Hs Hwf Ha Ht Hn].
  assert (Hnone : activeModal st = None).
  { rewrite Hs in Hq. simpl in Hq.
    destruct (truthy_false_inv _ Hq) as [E|E]; [exact E|].
    now elim (Hn _ E). }
  assert (Hh : handoff id st = st) by (unfold handoff; now rewrite Hnone).
  pose proof (open_known_fields id data st modal Hq Hget) as F. cbv zeta in F.
  destruct F as (Fm & Fa & _ & _ & _ & _ & Fs & _ & _ & _ & Fact & Ft).
  rewrite Hh in Ft.
  pose proof (get_In _ _ _ Hget) as Hin0.
  constructor.
  - congruence.
  - now rewrite Fm.
  - intros i m Hin Hact. rewrite Fm in Hin. rewrite Fact in Hact. rewrite Fa.
    apply orb_true_iff in Hact as [He|Hact].
    + apply Nat.eqb_eq in He. f_equal. symmetry.
      exact (wf_elements _ Hwf _ _ _ _ Hin Hin0 He).
    + rewrite (Ha _ _ Hin Hact) in Hnone. discriminate.
  - intros t modalId m sil Hin Hact. rewrite Fm. rewrite Ft in Hin.
    apply in_app_or in Hin as [Hin|[<-|[]]]; [eauto|]. discriminate.
  - intros i Hi. rewrite Fa in Hi. injection Hi as <-.
    exact (wf_nonempty _ Hwf _ _ Hin0).
Qed.

Lemma seq_inv_settle modalId modal silent st :
  seq_inv st ->
  JsMap.get modalId (modals st) = Some modal ->
  seq_inv (settle modalId modal silent st).
Proof.
  intros [Hs Hwf Ha Ht Hn] Hget.
  pose proof (settled_fields modalId modal silent st) as F. cbv zeta in F.
  destruct F as (Fm & _ & _ & _ & Ftm & Fs & _ & _ & _ & _ & Fa & _).
  assert (Hsd : seq_inv (settled modalId modal silent st)).
  { constructor.
    - congruence.
    - now rewrite Fm.
    - intros i m Hin Hact. rewrite Fm in Hin. rewrite settled_is_active in Hact.
      apply andb_true_iff in Hact as [Hne Hact].
      rewrite Fa, (Ha _ _ Hin Hact). simpl.
      destruct (String.eqb_spec i modalId) as [->|]; [|reflexivity].
      rewrite (In_get _ _ _ (wf_nodup _ Hwf) Hin) in Hget.
      injection Hget as ->. now rewrite Nat.eqb_refl in Hne.
    - intros t mid m sil Hin Hact. rewrite Fm. rewrite Ftm in Hin. eauto.
    - intros i Hi. rewrite Fa in Hi.
      destruct (same_id (activeModal st) modalId); [discriminate|eauto]. }
  rewrite settle_unfold.
  destruct (queue (settled modalId modal silent st)) as [|[nid ndata] rest];
    [exact Hsd|].
  apply seq_inv_open. now apply seq_inv_set_queue.
Qed.

Lemma seq_inv_show modal st : seq_inv st -> seq_inv (show modal st).
Proof.
  intros [Hs Hwf Ha Ht Hn]. constructor; try assumption.
  intros i m Hin Hact. apply (Ha i m Hin).
  revert Hact. unfold show. simpl. unfold is_active, dom_update.
  destruct (Nat.eqb (element m) (element modal)); [|easy].
  simpl. now rewrite ClassListFacts.contains_add_other.
Qed.

Lemma seq_inv_fire i st : seq_inv st -> seq_inv (fire i st).
Proof.
  intros H. unfold fire.
  destruct (nth_error (timers st) i) as [t|] eqn:Hn; [|exact H].
  pose proof (seq_inv_set_clock (Nat.max (clock st) (due t)) _
                (seq_inv_drop_timer i st H)) as H1.
  unfold run_timer. destruct (act t) as [modal|modalId modal silent] eqn:Hact.
  - now apply seq_inv_show.
  - apply seq_inv_settle; [exact H1|]. simpl.
    apply (si_timers st H t modalId modal silent); [|exact Hact].
    now apply nth_error_In in Hn.
Qed.

Lemma seq_inv_handle etarget h st : seq_inv st -> seq_inv (handle etarget h st).
Proof.
  intros H. destruct h as [id|v id|tid|]; simpl.
  - now apply seq_inv_close.
  - destruct (Nat.eqb etarget v); [now apply seq_inv_close|exact H].
  - now apply seq_inv_open.
  - destruct (truthy (activeModal st)); [now apply seq_inv_close|exact H].
Qed.

Lemma seq_inv_step a st :
  is_register a = false -> seq_inv st -> seq_inv (step a st).
Proof.
  intros Hr H.
  destruct a as [id data|id silent| |id el ov btn o|et cur|cur|i|d]; simpl;
    try discriminate.
  - now apply seq_inv_open.
  - now apply seq_inv_close.
  - unfold closeAll. apply seq_inv_set_queue.
    apply fold_left_inv; [|exact H].
    intros s entry Hs. now apply seq_inv_close.
  - unfold dispatch. apply fold_left_inv; [|exact H].
    intros s l Hs.
    destruct (Nat.eqb (target l) cur && Bool.eqb (is_click (handler l)) true);
      [now apply seq_inv_handle|exact Hs].
  - unfold dispatch. apply fold_left_inv; [|exact H].
    intros s l Hs.
    destruct (Nat.eqb (target l) cur && Bool.eqb (is_click (handler l)) false);
      [now apply seq_inv_handle|exact Hs].
  - now apply seq_inv_fire.
  - now apply seq_inv_set_clock.
Qed.

Lemma seq_inv_run tr st :
  no_register tr = true -> seq_inv st -> seq_inv (run tr st).
Proof.
  revert st. induction tr as [|a tr IH]; intros st Hn H; [exact H|].
  simpl in Hn. apply andb_true_iff in Hn as [Ha Htr].
  apply negb_true_iff in Ha.
  change (run (a :: tr) st) with (run tr (step a st)).
  apply IH; [exact Htr|]. now apply seq_inv_step.
Qed.

Lemma seq_inv_at_rest st :
  sequential st = true -> wf_registry (modals st) -> at_rest st -> seq_inv st.
Proof.
  intros Hs Hwf [Ha Ht Hc]. constructor; try assumption.
  - intros id modal Hin Hact. rewrite (Hc _ _ Hin) in Hact. discriminate.
  - intros t ? ? ? Hin. rewrite Ht in Hin. contradiction.
  - intros id Hi. rewrite Ha in Hi. discriminate.
Qed.

(** *** The constructor yields such a manager *)

Lemma register_unfold id el ov btn o st :
  register id el ov btn o st
  = set_listeners (listeners st ++ wired id ov btn st)
      (set_modals (JsMap.set id (stored_modal el ov btn o st) (modals st)) st).
Proof.
  unfold register, wired, stored_modal, on.
  destruct btn as [b|]; destruct ov as [w|];
    cbn [closeOnOverlay listeners set_listeners set_modals];
    try destruct (closeOnOverlay st);
    cbn [listeners set_listeners set_modals app];
    rewrite <- ?app_assoc, ?app_nil_r; reflexivity.
Qed.

Lemma register_listeners id el ov btn o st :
  listeners (register id el ov btn o st) = listeners st ++ wired id ov btn st.
Proof. now rewrite register_unfold. Qed.

Lemma register_modals id el ov btn o st :
  modals (register id el ov btn o st)
  = JsMap.set id (stored_modal el ov btn o st) (modals st).
Proof. now rewrite register_unfold. Qed.

Lemma In_set {V} k (v : V) k' v' m :
  In (k', v') (JsMap.set k v m) -> (k', v') = (k, v) \/ In (k', v') m.
Proof.
  induction m as [|[k0 v0] m IH]; simpl.
  - intros [H|[]]. now left.
  - destruct (String.eqb k0 k); simpl; intros [H|H]; auto.
    destruct (IH H); auto.
Qed.

Lemma keys_set {V} k (v : V) m :
  JsMap.keys (JsMap.set k v m)
  = if existsb (String.eqb k) (JsMap.keys m) then JsMap.keys m else JsMap.keys m ++ [k].
Proof.
  unfold JsMap.keys. induction m as [|[k0 v0] m IH]; simpl; [reflexivity|].
  rewrite (String.eqb_sym k k0).
  destruct (String.eqb_spec k0 k) as [->|]; simpl; [reflexivity|].
  rewrite IH. now destruct (existsb (String.eqb k) (map fst m)).
Qed.

Lemma NoDup_keys_set {V} k (v : V) m :
  NoDup (JsMap.keys m) -> NoDup (JsMap.keys (JsMap.set k v m)).
Proof.
  intros H. rewrite keys_set.
  destruct (existsb (String.eqb k) (JsMap.keys m)) eqn:E; [exact H|].
  apply NoDup_app; [exact H|repeat constructor; intros []|].
  intros x Hx [Ex|[]]. subst x.
  assert (existsb (String.eqb k) (JsMap.keys m) = true); [|congruence].
  apply existsb_exists. exists k. split; [exact Hx|apply String.eqb_refl].
Qed.

(** The registry [init] builds, one page modal after the other: [seen] are
    the elements registered so far. *)
Lemma init_registers (l : list (string * Elem * option Elem * option Elem)) :
  forall (seen : list Elem) (st : State),
    NoDup (seen ++ map page_element l) ->
    (forall id el ov btn, In (id, el, ov, btn) l -> id <> "") ->
    wf_registry (modals st) ->
    (forall id modal, In (id, modal) (modals st) -> In (element modal) seen) ->
    let st1 :=
      fold_left
        (fun s (m : string * Elem * option Elem * option Elem) =>
           let '(id, el, ov, btn) := m in register id el ov btn no_options s)
        l st in
    wf_registry (modals st1) /\
    (forall id modal, In (id, modal) (modals st1) ->
                      In (element modal) (seen ++ map page_element l)) /\
    activeModal st1 = activeModal st /\ timers st1 = timers st /\
    dom st1 = dom st /\ sequential st1 = sequential st.
Proof.
  induction l as [|[[[id el] ov] btn] l IH]; intros seen st Hnd Hids Hwf Hseen; simpl.
  - rewrite app_nil_r. split; [exact Hwf|]. split; [exact Hseen|]. repeat split.
  - assert (Hel : ~ In el seen).
    { intros Hin. apply NoDup_remove_2 in Hnd. apply Hnd.
      apply in_or_app. now left. }
    assert (Hnd' : NoDup ((seen ++ [el]) ++ map page_element l)).
    { now rewrite <- app_assoc. }
    destruct (IH (seen ++ [el]) (register id el ov btn no_options st) Hnd') as
      (W & S & A & T & D & Q).
    + intros id' el' ov' btn' Hin. apply (Hids id' el' ov' btn'). now right.
    + rewrite register_modals. destruct Hwf as [Wn We Wi]. constructor.
      * now apply NoDup_keys_set.
      * intros id' m' Hin. apply In_set in Hin as [E|Hin]; [|eauto].
        injection E as -> _. apply (Hids id el ov btn). now left.
      * intros id1 m1 id2 m2 H1 H2 He.
        apply In_set in H1 as [E1|H1]; apply In_set in H2 as [E2|H2].
        -- injection E1 as -> _. now injection E2 as -> _.
        -- injection E1 as -> ->. simpl in He. exfalso. apply Hel.
           rewrite He. eauto.
        -- injection E2 as -> ->. simpl in He. exfalso. apply Hel.
           rewrite <- He. eauto.
        -- eauto.
    + intros id' m' Hin. rewrite register_modals in Hin.
      apply in_or_app. apply In_set in Hin as [E|Hin].
      * injection E as _ ->. right. now left.
      * left. eauto.
    + split; [exact W|]. split.
      * intros id' m' Hin. specialize (S id' m' Hin).
        now rewrite <- app_assoc in S.
      * rewrite A, T, D, Q, !register_unfold. repeat split.
Qed.

Lemma fold_on_fields (l : list (Elem * string)) st :
  let st1 := fold_left (fun s (t : Elem * string) => on (fst t) (TriggerClick (snd t)) s)
               l st in
  modals st1 = modals st /\ activeModal st1 = activeModal st /\
  timers st1 = timers st /\ dom st1 = dom st /\ sequential st1 = sequential st.
Proof.
  revert st. induction l as [|t l IH]; intros st; simpl; [repeat split|].
  destruct (IH (on (fst t) (TriggerClick (snd t)) st)) as (M & A & T & D & Q).
  rewrite M, A, T, D, Q. repeat split.
Qed.

(** [new ModalManager(options)] over such a page is a manager at rest over a
    well-formed registry. *)
Lemma new_ModalManager_at_rest o pg :
  page_ok pg ->
  let st := new_ModalManager o pg in
  sequential st = mo_sequential o /\ wf_registry (modals st) /\ at_rest st.
Proof.
  intros [Hids Hclosed Hnd]. cbv zeta. unfold new_ModalManager, init.
  set (st0 := mkState _ _ _ _ _ _ _ _ _ _ _ _ _).
  pose proof (init_registers (page_modals pg) [] st0) as R.
  cbv zeta in R. destruct R as (W & S & A & T & D & Q).
  { exact Hnd. }
  { exact Hids. }
  { constructor; [constructor|intros ? ? []|intros ? ? ? ? []]. }
  { intros ? ? []. }
  set (st1 := fold_left _ (page_modals pg) st0) in *.
  pose proof (fold_on_fields (page_triggers pg) st1) as F. cbv zeta in F.
  set (st2 := fold_left _ (page_triggers pg) st1) in *.
  destruct F as (M2 & A2 & T2 & D2 & Q2).
  assert (G : forall s, modals s = modals st2 -> activeModal s = activeModal st2 ->
                        timers s = timers st2 -> dom s = dom st2 ->
                        sequential s = sequential st2 ->
                        sequential s = mo_sequential o /\ wf_registry (modals s) /\
                        at_rest s).
  { intros s Ms As Ts Ds Qs. split; [|split].
    - rewrite Qs, Q2, Q. reflexivity.
    - now rewrite Ms, M2.
    - constructor.
      + rewrite As, A2, A. reflexivity.
      + rewrite Ts, T2, T. reflexivity.
      + intros id modal Hin. rewrite Ms, M2 in Hin. rewrite Ds, D2, D.
        specialize (S id modal Hin). simpl in S.
        apply in_map_iff in S as (m & Em & Hm). rewrite <- Em.
        now apply Hclosed. }
  destruct (closeOnEsc st2); apply G; reflexivity.
Qed.

(** Claim C1 (at most one Open in sequential mode). Take a manager in
    sequential mode over a registry of unique non-empty ids with an element
    each, at rest with every modal Closed. After any sequence of [open],
    [close] and [closeAll] calls, clicks and key presses, interleaved in any
    way with the firing of pending timers, any two registered ids that are
    Open are the same id, and that id is [activeModal]. This holds in every
    state reached, so in particular once all timers have fired.
    ([new_ModalManager_at_rest]: the constructor gives such a manager over a
    page whose modal elements are distinct, Closed and have non-empty ids.) *)
Theorem sequential_at_most_one_open (st0 : State) (tr : list Action) :
  sequential st0 = true ->
  wf_registry (modals st0) ->
  at_rest st0 ->
  no_register tr = true ->
  let st := run tr st0 in
  forall a b,
    is_open st a = true -> is_open st b = true ->
    a = b /\ activeModal st = Some a.
Proof.
  intros Hs Hwf Hrest Hn st a b Hoa Hob.
  assert (H : seq_inv st).
  { apply seq_inv_run; [exact Hn|]. now apply seq_inv_at_rest. }
  unfold is_open in Hoa, Hob.
  destruct (JsMap.get a (modals st)) as [ma|] eqn:Hga; [|discriminate].
  destruct (JsMap.get b (modals st)) as [mb|] eqn:Hgb; [|discriminate].
  pose proof (si_active st H a ma (get_In _ _ _ Hga) Hoa) as Ea.
  pose proof (si_active st H b mb (get_In _ _ _ Hgb) Hob) as Eb.
  split; [congruence|exact Ea].
Qed.

Lemma nodupb_sound l : nodupb l = true -> NoDup l.
Proof.
  induction l as [|x l IH]; simpl; intros H; constructor.
  - apply andb_true_iff in H as [H _]. apply negb_true_iff in H.
    intros Hin. assert (E : existsb (String.eqb x) l = true).
    { apply existsb_exists. exists x. split; [exact Hin|apply String.eqb_refl]. }
    congruence.
  - apply IH. now apply andb_true_iff in H as [_ H].
Qed.

Lemma wf_registry_b_sound m : wf_registry_b m = true -> wf_registry m.
Proof.
  unfold wf_registry_b. intros H.
  apply andb_true_iff in H as [H H3]. apply andb_true_iff in H as [H1 H2].
  rewrite forallb_forall in H2, H3. constructor.
  - now apply nodupb_sound.
  - intros id modal Hin. specialize (H2 _ Hin). simpl in H2.
    now destruct (String.eqb_spec id "").
  - intros id1 m1 id2 m2 Hin1 Hin2 He. specialize (H3 _ Hin1).
    rewrite forallb_forall in H3. specialize (H3 _ Hin2). simpl in H3.
    rewrite He, Nat.eqb_refl in H3. simpl in H3. now apply String.eqb_eq.
Qed.

Lemma at_rest_b_sound st : at_rest_b st = true -> at_rest st.
Proof.
  unfold at_rest_b. intros H.
  destruct (activeModal st) eqn:Ha; [discriminate|].
  destruct (timers st) eqn:Ht; [|discriminate].
  rewrite forallb_forall in H. constructor; try assumption.
  intros id modal Hin. specialize (H _ Hin). simpl in H.
  now apply negb_true_iff in H.
Qed.

Lemma sequential_at_most_one_open_witness :
  let st :=
    run [Open "A" VNull; Open "B" VNull; Click 12 12; Open "C" VNull;
         Fire 1; Fire 0; Elapse 5; Close (Some "C") false; Fire 1]
      (Sample.manager true) in
  is_open st "B" = true /\
  ("B" = "B" /\ activeModal st = Some "B") /\
  ("A" = "B" /\ activeModal st = Some "A" -> is_open st "A" = false).
Proof.
  intros st.
  assert (Hb : is_open st "B" = true) by (vm_compute; reflexivity).
  split; [exact Hb|]. split.
  - apply (sequential_at_most_one_open (Sample.manager true)
             [Open "A" VNull; Open "B" VNull; Click 12 12; Open "C" VNull;
              Fire 1; Fire 0; Elapse 5; Close (Some "C") false; Fire 1]).
    + vm_compute. reflexivity.
    + apply wf_registry_b_sound. vm_compute. reflexivity.
    + apply at_rest_b_sound. vm_compute. reflexivity.
    + vm_compute. reflexivity.
    + exact Hb.
    + exact Hb.
  - intros [E _]. discriminate.
Defined.

(* ================================================================= *)
(** ** The stored per-record [closeOnOverlay] is never read *)

Lemma get_erase id m :
  JsMap.get id (map erase_entry m) = option_map erase_modal (JsMap.get id m).
Proof.
  induction m as [|[k v] m IH]; simpl; [reflexivity|].
  now destruct (String.eqb k id).
Qed.

Lemma set_erase id modal m :
  map erase_entry (JsMap.set id modal m)
  = JsMap.set id (erase_modal modal) (map erase_entry m).
Proof.
  induction m as [|[k v] m IH]; simpl; [reflexivity|].
  destruct (String.eqb k id); simpl; [reflexivity|]. now rewrite IH.
Qed.

Lemma hasOtherActiveModals_erase st :
  hasOtherActiveModals (erase st) = hasOtherActiveModals st.
Proof.
  rewrite !hasOtherActiveModals_existsb. simpl.
  induction (modals st) as [|x m IH]; simpl; [reflexivity|]. now rewrite IH.
Qed.

Lemma erase_close id silent st :
  erase (close id silent st) = close id silent (erase st).
Proof.
  unfold close. change (close_target id (erase st)) with (close_target id st).
  destruct (close_target id st) as [modalId|]; [|reflexivity].
  change (modals (erase st)) with (map erase_entry (modals st)).
  rewrite get_erase.
  destruct (JsMap.get modalId (modals st)) as [modal|]; [|reflexivity].
  simpl. unfold consult_beforeClose. simpl.
  destruct (beforeClose (options modal)) as [bc|]; [destruct silent|]; simpl.
  - unfold erase, setTimeout. simpl. now rewrite map_app.
  - destruct (is_false (bc_ret bc (log st))); [reflexivity|].
    unfold erase, setTimeout. simpl. now rewrite map_app.
  - unfold erase, setTimeout. simpl. now rewrite map_app.
Qed.

Lemma erase_open id data st :
  erase (open id data st) = open id data (erase st).
Proof.
  unfold open.
  change (sequential (erase st)) with (sequential st).
  change (activeModal (erase st)) with (activeModal st).
  destruct (sequential st && truthy (activeModal st)); [reflexivity|].
  change (modals (erase st)) with (map erase_entry (modals st)).
  rewrite get_erase.
  destruct (JsMap.get id (modals st)) as [modal|]; [|reflexivity].
  simpl option_map. cbv iota.
  destruct (truthy (activeModal st) && negb (same_id (activeModal st) id)).
  - rewrite <- erase_close. generalize (close (activeModal st) true st). intros s.
    unfold erase, setTimeout. simpl.
    destruct (onOpen (options modal)); destruct (bodyScrollLock s); simpl;
      now rewrite map_app.
  - unfold erase, setTimeout. simpl.
    destruct (onOpen (options modal)); destruct (bodyScrollLock st); simpl;
      now rewrite map_app.
Qed.

Lemma erase_set_queue q st : erase (set_queue q st) = set_queue q (erase st).
Proof. reflexivity. Qed.

Lemma erase_settle modalId modal silent st :
  erase (settle modalId modal silent st)
  = settle modalId (erase_modal modal) silent (erase st).
Proof.
  rewrite !settle_unfold.
  assert (E : erase (settled modalId modal silent st)
              = settled modalId (erase_modal modal) silent (erase st)).
  { unfold settled. cbv zeta. simpl element. simpl options. simpl onClose.
    set (st2 := style_display (element modal) ""
                  (classList_remove (element modal) "active" st)).
    change (style_display (element modal) ""
              (classList_remove (element modal) "active" (erase st)))
      with (erase st2).
    change (bodyScrollLock (erase st2)) with (bodyScrollLock st2).
    rewrite hasOtherActiveModals_erase.
    destruct (bodyScrollLock st2 && negb (hasOtherActiveModals st2));
      destruct (onClose (options modal)); [destruct silent| |destruct silent|];
      simpl; destruct (same_id (activeModal st) modalId); reflexivity. }
  rewrite <- E. change (queue (erase (settled modalId modal silent st)))
    with (queue (settled modalId modal silent st)).
  destruct (queue (settled modalId modal silent st)) as [|[nid ndata] rest];
    [reflexivity|].
  now rewrite erase_open.
Qed.

Lemma remove_nth_map {A B} (f : A -> B) i l :
  remove_nth i (map f l) = map f (remove_nth i l).
Proof.
  revert i. induction l as [|x l IH]; intros i; [now destruct i|].
  destruct i; simpl; [reflexivity|]. now rewrite IH.
Qed.

Lemma erase_fire i st : erase (fire i st) = fire i (erase st).
Proof.
  unfold fire. change (timers (erase st)) with (map erase_timer (timers st)).
  rewrite nth_error_map.
  destruct (nth_error (timers st) i) as [t|]; [|reflexivity].
  simpl option_map. cbv iota. rewrite remove_nth_map.
  unfold run_timer. simpl.
  destruct (act t) as [modal|modalId modal silent]; simpl.
  - reflexivity.
  - now rewrite erase_settle.
Qed.

Lemma erase_handle etarget h st :
  erase (handle etarget h st) = handle etarget h (erase st).
Proof.
  destruct h as [id|v id|tid|]; simpl.
  - apply erase_close.
  - destruct (Nat.eqb etarget v); [apply erase_close|reflexivity].
  - apply erase_open.
  - destruct (truthy (activeModal st)); [apply erase_close|reflexivity].
Qed.

Lemma erase_fold_left {A} (f : State -> A -> State) (l : list A) st :
  (forall s a, erase (f s a) = f (erase s) a) ->
  erase (fold_left f l st) = fold_left f l (erase st).
Proof.
  intros H. revert st. induction l as [|a l IH]; intros st; simpl; [reflexivity|].
  now rewrite IH, H.
Qed.

Lemma erase_dispatch click etarget current st :
  erase (dispatch click etarget current st) = dispatch click etarget current (erase st).
Proof.
  unfold dispatch. change (listeners (erase st)) with (listeners st).
  apply erase_fold_left. intros s l.
  destruct (Nat.eqb (target l) current && Bool.eqb (is_click (handler l)) click);
    [apply erase_handle|reflexivity].
Qed.

Lemma erase_closeAll st : erase (closeAll st) = closeAll (erase st).
Proof.
  unfold closeAll. rewrite erase_set_queue. f_equal.
  change (modals (erase st)) with (map erase_entry (modals st)).
  generalize (modals st) as l. intros l. revert st.
  induction l as [|x l IH]; intros st; simpl; [reflexivity|].
  now rewrite IH, erase_close.
Qed.

Lemma erase_idem st : erase (erase st) = erase st.
Proof.
  destruct st as [m a q co ce bl sq d bo c t l lg].
  unfold erase, set_timers, set_modals. simpl. rewrite !map_map.
  f_equal; apply map_ext; intros [x y]; try reflexivity; destruct y; reflexivity.
Qed.

Lemma map_erase_entry_idem m :
  map erase_entry (map erase_entry m) = map erase_entry m.
Proof. rewrite map_map. apply map_ext. now intros [k v]. Qed.

(** What is left of a registration once the stored option is forgotten. *)
Lemma erase_register_eq id el ov btn o st :
  erase (register id el ov btn o st)
  = set_listeners (listeners st ++ wired id ov btn st)
      (set_modals
         (JsMap.set id
            (mkModal el ov btn
               (mkModalOptions (ro_onOpen o) (ro_onClose o) (ro_beforeClose o) false))
            (map erase_entry (modals st)))
         (erase st)).
Proof.
  rewrite register_unfold. unfold erase at 1.
  cbn [modals timers set_listeners set_modals set_timers].
  rewrite set_erase. reflexivity.
Qed.

(** [register] reads its [closeOnOverlay] option once, to store it. *)
Lemma erase_register id el ov btn o v st :
  erase (register id el ov btn (with_closeOnOverlay v o) st)
  = erase (register id el ov btn o (erase st)).
Proof.
  rewrite !erase_register_eq, erase_idem.
  change (modals (erase st)) with (map erase_entry (modals st)).
  rewrite map_erase_entry_idem. reflexivity.
Qed.

Lemma with_closeOnOverlay_same o : with_closeOnOverlay (ro_closeOnOverlay o) o = o.
Proof. now destruct o. Qed.

Lemma erase_step_commute a st : erase (step a st) = erase (step a (erase st)).
Proof.
  destruct a as [id data|id silent| |id el ov btn o|et cur|cur|i|d]; simpl.
  - now rewrite !erase_open, erase_idem.
  - now rewrite !erase_close, erase_idem.
  - now rewrite !erase_closeAll, erase_idem.
  - rewrite <- (erase_register id el ov btn o (ro_closeOnOverlay o) st).
    now rewrite with_closeOnOverlay_same.
  - now rewrite !erase_dispatch, erase_idem.
  - now rewrite !erase_dispatch, erase_idem.
  - now rewrite !erase_fire, erase_idem.
  - change (erase (set_clock (clock st + d) (erase st)))
      with (set_clock (clock st + d) (erase (erase st))).
    now rewrite erase_idem.
Qed.

Lemma erase_step a st1 st2 :
  erase st1 = erase st2 -> erase (step a st1) = erase (step a st2).
Proof.
  intros E. rewrite (erase_step_commute a st1), (erase_step_commute a st2).
  now rewrite E.
Qed.

Lemma erase_run tr st1 st2 :
  erase st1 = erase st2 -> erase (run tr st1) = erase (run tr st2).
Proof.
  revert st1 st2. induction tr as [|a tr IH]; intros st1 st2 E; [exact E|].
  change (run (a :: tr) st1) with (run tr (step a st1)).
  change (run (a :: tr) st2) with (run tr (step a st2)).
  apply IH. now apply erase_step.
Qed.

Lemma get_set_same {V} k (v : V) m : JsMap.get k (JsMap.set k v m) = Some v.
Proof.
  induction m as [|[k' v'] m IH]; simpl.
  - now rewrite String.eqb_refl.
  - destruct (String.eqb k' k) eqn:E; simpl.
    + now rewrite String.eqb_refl.
    + now rewrite E.
Qed.

(** Claim C10 (the stored per-record [closeOnOverlay] is dead). No action
    reads the option stored in a record: two states that differ only in those
    stored options stay so under every action, [register] included, and so
    under every trace. The listeners [register] wires are the close button's
    when it is present and the overlay's when it is present and the
    manager's own [closeOnOverlay] is on, whatever the options say. So
    registering with another per-record [closeOnOverlay], [false] included,
    changes nothing but the stored option: after any trace the elements, the
    body overflow, [activeModal], the queue, the callbacks made and the
    listeners are the same; with the manager's option on, the overlay listener
    is wired although the record stores [false]. *)
Theorem stored_closeOnOverlay_is_never_read :
  (forall tr st1 st2, erase st1 = erase st2 -> erase (run tr st1) = erase (run tr st2)) /\
  (forall id el ov btn o st,
      listeners (register id el ov btn o st) = listeners st ++ wired id ov btn st) /\
  (forall id el ov btn o v tr st,
      let s1 := run tr (register id el ov btn o st) in
      let s2 := run tr (register id el ov btn (with_closeOnOverlay v o) st) in
      erase s1 = erase s2 /\
      dom s1 = dom s2 /\ bodyOverflow s1 = bodyOverflow s2 /\
      activeModal s1 = activeModal s2 /\ queue s1 = queue s2 /\
      log s1 = log s2 /\ listeners s1 = listeners s2 /\ clock s1 = clock s2) /\
  (forall id el v btn o st,
      closeOnOverlay st = true ->
      let s := register id el (Some v) btn (with_closeOnOverlay (VBool false) o) st in
      (exists modal, JsMap.get id (modals s) = Some modal /\
                     opt_closeOnOverlay (options modal) = false) /\
      In (mkListener v (OverlayClick v id)) (listeners s) /\
      forall etarget s', handle etarget (OverlayClick v id) s'
                         = if Nat.eqb etarget v then close (Some id) false s' else s').
Proof.
  split; [|split; [|split]].
  - apply erase_run.
  - apply register_listeners.
  - intros id el ov btn o v tr st s1 s2.
    assert (E : erase s1 = erase s2).
    { apply erase_run.
      rewrite (erase_register id el ov btn o v st).
      rewrite <- (erase_register id el ov btn o (ro_closeOnOverlay o) st).
      now rewrite with_closeOnOverlay_same. }
    split; [exact E|].
    split; [exact (f_equal dom E)|].
    split; [exact (f_equal bodyOverflow E)|].
    split; [exact (f_equal activeModal E)|].
    split; [exact (f_equal queue E)|].
    split; [exact (f_equal log E)|].
    split; [exact (f_equal listeners E)|exact (f_equal clock E)].
  - intros id el v btn o st Hc s. split; [|split].
    + eexists. split.
      * subst s. rewrite register_modals. apply get_set_same.
      * reflexivity.
    + subst s. rewrite register_listeners. apply in_or_app. right.
      unfold wired. rewrite Hc. apply in_or_app. right. now left.
    + reflexivity.
Qed.

Lemma stored_closeOnOverlay_is_never_read_witness :
  let st := Sample.manager false in
  let o := Sample.callbacks 5 in
  let tr := [Open "D" VNull; Fire 0; Click 51 51; Fire 0] in
  let s := register "D" 50 (Some 51) None (with_closeOnOverlay (VBool false) o) st in
  ((exists modal, JsMap.get "D" (modals s) = Some modal /\
                  opt_closeOnOverlay (options modal) = false) /\
   In (mkListener 51 (OverlayClick 51 "D")) (listeners s)) /\
  (dom (run tr (register "D" 50 (Some 51) None o st)) = dom (run tr s) /\
   log (run tr (register "D" 50 (Some 51) None o st)) = log (run tr s)) /\
  log (run tr s) = [EvOnOpen 5 VNull; EvOnClose 105].
Proof.
  intros st o tr s.
  destruct stored_closeOnOverlay_is_never_read as (_ & _ & Hsame & Hwired).
  split; [|split].
  - destruct (Hwired "D" 50 51 None o st) as (Hstored & Hin & _).
    + vm_compute. reflexivity.
    + split; [exact Hstored|exact Hin].
  - destruct (Hsame "D" 50 (Some 51) None o (VBool false) tr st)
      as (_ & Hdom & _ & _ & _ & Hlog & _).
    split; [exact Hdom|exact Hlog].
  - vm_compute. reflexivity.
Defined.

(* ================================================================= *)
(** ** More on the modal manager: registration *)

Lemma get_set_other {V} k k' (v : V) m :
  k' <> k -> JsMap.get k' (JsMap.set k v m) = JsMap.get k' m.
Proof.
  intros Hne. induction m as [|[k0 v0] m IH]; simpl.
  - destruct (String.eqb_spec k k'); [congruence|reflexivity].
  - destruct (String.eqb_spec k0 k) as [->|]; simpl.
    + destruct (String.eqb_spec k k'); [congruence|reflexivity].
    + now rewrite IH.
Qed.

Lemma existsb_key_get {V} k (m : list (string * V)) :
  existsb (String.eqb k) (JsMap.keys m) = true <-> JsMap.get k m <> None.
Proof.
  unfold JsMap.keys. induction m as [|[k0 v0] m IH]; simpl.
  - split; [discriminate|congruence].
  - rewrite (String.eqb_sym k k0). destruct (String.eqb k0 k); simpl.
    + split; [discriminate|reflexivity].
    + exact IH.
Qed.

(** Property X1. [register] stores the record under its id, replacing what was there in
    place; every other id keeps its record, and nothing but the registry and
    the listeners changes. *)
Theorem register_lookup (id : string) (el : Elem) (ov btn : option Elem)
    (o : RegisterOptions) (st : State) :
  let st1 := register id el ov btn o st in
  JsMap.get id (modals st1) = Some (stored_modal el ov btn o st) /\
  (forall id', id' <> id -> JsMap.get id' (modals st1) = JsMap.get id' (modals st)) /\
  (JsMap.get id (modals st) <> None ->
   JsMap.keys (modals st1) = JsMap.keys (modals st)) /\
  (JsMap.get id (modals st) = None ->
   JsMap.keys (modals st1) = JsMap.keys (modals st) ++ [id]) /\
  activeModal st1 = activeModal st /\ queue st1 = queue st /\
  dom st1 = dom st /\ bodyOverflow st1 = bodyOverflow st /\
  timers st1 = timers st /\ log st1 = log st.
Proof.
  cbv zeta. rewrite register_unfold. cbn [modals set_listeners set_modals].
  split; [apply get_set_same|]. split; [intros id' Hne; now apply get_set_other|].
  split; [|split].
  - intros H. apply existsb_key_get in H. now rewrite keys_set, H.
  - intros H. rewrite keys_set.
    destruct (existsb (String.eqb id) (JsMap.keys (modals st))) eqn:E; [|reflexivity].
    apply existsb_key_get in E. congruence.
  - repeat split.
Qed.

Lemma register_lookup_witness :
  let st := Sample.manager false in
  let st1 := register "B" 50 None None (Sample.callbacks 5) st in
  JsMap.keys (modals st1) = ["A"; "B"; "C"; "guarded"] /\
  JsMap.get "A" (modals st1) = Some Sample.modalA /\
  option_map element (JsMap.get "B" (modals st1)) = Some 50.
Proof.
  intros st st1.
  destruct (register_lookup "B" 50 None None (Sample.callbacks 5) st)
    as (Hid & Hother & Hkeys & _).
  split; [|split].
  - etransitivity; [apply Hkeys; vm_compute; discriminate|vm_compute; reflexivity].
  - etransitivity; [apply Hother; discriminate|vm_compute; reflexivity].
  - fold st1 in Hid. rewrite Hid. reflexivity.
Defined.

(* ================================================================= *)
(** ** What no action changes *)

Lemma same_config_refl st : same_config st st.
Proof. repeat split. Qed.

Lemma same_config_trans st2 st1 st :
  same_config st2 st1 -> same_config st1 st -> same_config st2 st.
Proof.
  intros (A1 & A2 & A3 & A4 & A5) (B1 & B2 & B3 & B4 & B5).
  repeat split; congruence.
Qed.

Lemma same_config_close id silent st : same_config (close id silent st) st.
Proof.
  pose proof (close_fields id silent st) as F. cbv zeta in F.
  destruct F as (_ & _ & _ & _ & _ & Fl & Fs & Fb & Fo & Fe & _).
  unfold same_config, key_listeners. rewrite Fl. repeat split; assumption.
Qed.

Lemma same_config_open id data st : same_config (open id data st) st.
Proof.
  pose proof (open_fields id data st) as F. cbv zeta in F.
  destruct F as (_ & _ & Fl & Fs & Fb & Fo & Fe).
  unfold same_config, key_listeners. rewrite Fl. repeat split; assumption.
Qed.

Lemma same_config_settle modalId modal silent st :
  same_config (settle modalId modal silent st) st.
Proof.
  pose proof (settled_fields modalId modal silent st) as F. cbv zeta in F.
  destruct F as (_ & _ & _ & Fl & _ & Fs & Fb & Fo & Fe & _).
  assert (S : same_config (settled modalId modal silent st) st).
  { unfold same_config, key_listeners. rewrite Fl. repeat split; assumption. }
  rewrite settle_unfold.
  destruct (queue (settled modalId modal silent st)) as [|[nid ndata] rest];
    [exact S|].
  eapply same_config_trans; [apply same_config_open|exact S].
Qed.

Lemma same_config_fold {A} (f : State -> A -> State) (l : list A) st :
  (forall s a, same_config (f s a) s) -> same_config (fold_left f l st) st.
Proof.
  intros H. revert st. induction l as [|a l IH]; intros st; simpl.
  - apply same_config_refl.
  - eapply same_config_trans; [apply IH|apply H].
Qed.

Lemma same_config_handle etarget h st : same_config (handle etarget h st) st.
Proof.
  destruct h as [id|v id|tid|]; simpl.
  - apply same_config_close.
  - destruct (Nat.eqb etarget v); [apply same_config_close|apply same_config_refl].
  - apply same_config_open.
  - destruct (truthy (activeModal st)); [apply same_config_close|apply same_config_refl].
Qed.

Lemma same_config_dispatch click etarget current st :
  same_config (dispatch click etarget current st) st.
Proof.
  unfold dispatch. apply same_config_fold. intros s l.
  destruct (Nat.eqb (target l) current && Bool.eqb (is_click (handler l)) click);
    [apply same_config_handle|apply same_config_refl].
Qed.

Lemma key_listeners_wired id ov btn st :
  filter (fun l => negb (is_click (handler l))) (wired id ov btn st) = [].
Proof.
  unfold wired. destruct btn; destruct ov; simpl;
    try destruct (closeOnOverlay st); reflexivity.
Qed.

Lemma same_config_register id el ov btn o st :
  same_config (register id el ov btn o st) st.
Proof.
  rewrite register_unfold. unfold same_config, key_listeners.
  cbn [listeners set_listeners set_modals sequential closeOnEsc bodyScrollLock
       closeOnOverlay].
  rewrite filter_app, key_listeners_wired, app_nil_r. repeat split.
Qed.

Lemma same_config_step a st : same_config (step a st) st.
Proof.
  destruct a as [id data|id silent| |id el ov btn o|et cur|cur|i|d]; simpl.
  - apply same_config_open.
  - apply same_config_close.
  - unfold closeAll.
    change (same_config
              (fold_left (fun s entry => close (Some (fst entry)) true s)
                 (modals st) st) st).
    apply same_config_fold. intros s entry. apply same_config_close.
  - apply same_config_register.
  - apply same_config_dispatch.
  - apply same_config_dispatch.
  - unfold fire. destruct (nth_error (timers st) i) as [t|];
      [|apply same_config_refl].
    unfold run_timer. destruct (act t) as [modal|modalId modal silent].
    + repeat split.
    + eapply same_config_trans; [apply same_config_settle|repeat split].
  - repeat split.
Qed.

Lemma same_config_run tr st : same_config (run tr st) st.
Proof.
  revert st. induction tr as [|a tr IH]; intros st; [apply same_config_refl|].
  change (run (a :: tr) st) with (run tr (step a st)).
  eapply same_config_trans; [apply IH|apply same_config_step].
Qed.

(* ================================================================= *)
(** ** The Escape key *)

Lemma fold_left_filter {A} (p q : A -> bool) (f : State -> A -> State) l st :
  fold_left (fun s a => if p a && q a then f s a else s) l st
  = fold_left (fun s a => if p a then f s a else s) (filter q l) st.
Proof.
  revert st. induction l as [|a l IH]; intros st; simpl; [reflexivity|].
  destruct (q a); simpl.
  - rewrite andb_true_r. apply IH.
  - rewrite andb_false_r. apply IH.
Qed.

Lemma dispatch_key etarget current st :
  dispatch false etarget current st
  = fold_left
      (fun s l => if Nat.eqb (target l) current then handle etarget (handler l) s else s)
      (key_listeners st) st.
Proof.
  unfold dispatch, key_listeners.
  rewrite <- (fold_left_filter (fun l => Nat.eqb (target l) current)
                (fun l => negb (is_click (handler l)))
                (fun s l => handle etarget (handler l) s)).
  f_equal.
Qed.

Lemma same_config_on e h st :
  is_click h = true -> same_config (on e h st) st.
Proof.
  intros H. unfold same_config, key_listeners, on. simpl.
  rewrite filter_app. simpl. rewrite H. simpl. rewrite app_nil_r. repeat split.
Qed.

Lemma key_listeners_new o pg :
  key_listeners (new_ModalManager o pg)
  = if negb (is_false (mo_closeOnEsc o)) then [mkListener document EscKeydown] else [].
Proof.
  unfold new_ModalManager, init.
  set (st0 := mkState _ _ _ _ _ _ _ _ _ _ _ _ _).
  set (st1 := fold_left _ (page_modals pg) st0).
  set (st2 := fold_left _ (page_triggers pg) st1).
  assert (S1 : same_config st1 st0).
  { subst st1. apply same_config_fold. intros s [[[id el] ov] btn].
    apply same_config_register. }
  assert (S2 : same_config st2 st1).
  { subst st2. apply same_config_fold. intros s t. now apply same_config_on. }
  destruct (same_config_trans _ _ _ S2 S1) as (_ & He & _ & _ & Hk).
  rewrite He. change (closeOnEsc st0) with (negb (is_false (mo_closeOnEsc o))).
  destruct (negb (is_false (mo_closeOnEsc o))).
  - unfold key_listeners, on. simpl. rewrite filter_app. simpl.
    fold (key_listeners st2). now rewrite Hk.
  - exact Hk.
Qed.

(** Property X2. On a manager built by the constructor, after any trace: an Escape
    key that reaches [document] closes the active modal as [close()] does
    when [closeOnEsc] is on and a modal is active, and does nothing
    otherwise. The manager has no other keyboard listener: the one on
    [document], which [init] adds when [closeOnEsc] is on, is the only one it
    ever has, so it is there that a key pressed anywhere in the page comes to
    the manager. *)
Theorem escape_closes_active_modal (o : ManagerOptions) (pg : Page)
    (tr : list Action) :
  let st := run tr (new_ModalManager o pg) in
  closeOnEsc st = negb (is_false (mo_closeOnEsc o)) /\
  step (Keydown document) st
  = (if closeOnEsc st && truthy (activeModal st) then close None false st else st) /\
  key_listeners st = (if closeOnEsc st then [mkListener document EscKeydown] else []).
Proof.
  intros st.
  destruct (same_config_run tr (new_ModalManager o pg)) as (_ & He & _ & _ & Hk).
  fold st in He, Hk.
  assert (E : closeOnEsc st = negb (is_false (mo_closeOnEsc o))).
  { rewrite He. unfold new_ModalManager, init.
    set (st0 := mkState _ _ _ _ _ _ _ _ _ _ _ _ _).
    set (st1 := fold_left _ (page_modals pg) st0).
    set (st2 := fold_left _ (page_triggers pg) st1).
    assert (S1 : same_config st1 st0).
    { subst st1. apply same_config_fold. intros s [[[id el] ov] btn].
      apply same_config_register. }
    assert (S2 : same_config st2 st1).
    { subst st2. apply same_config_fold. intros s t. now apply same_config_on. }
    destruct (same_config_trans _ _ _ S2 S1) as (_ & He2 & _).
    assert (X : forall s, closeOnEsc (if closeOnEsc s then on document EscKeydown s else s)
                          = closeOnEsc s).
    { intros s. destruct (closeOnEsc s) eqn:Es; exact Es. }
    rewrite X, He2. reflexivity. }
  rewrite key_listeners_new in Hk.
  split; [exact E|]. split.
  - simpl. rewrite dispatch_key, Hk, E.
    destruct (negb (is_false (mo_closeOnEsc o))); simpl; reflexivity.
  - rewrite Hk, E. reflexivity.
Qed.

Lemma escape_closes_active_modal_witness :
  let o := mkManagerOptions VUndefined VUndefined VUndefined false in
  let pg := mkPage Sample.blank "" [("A", 10, Some 11, Some 12)] [(5, "A")] in
  let st := run [Click 5 5; Fire 0] (new_ModalManager o pg) in
  (activeModal st = Some "A" /\ closeOnEsc st = true) /\
  closeOnEsc st = negb (is_false (mo_closeOnEsc o)) /\
  step (Keydown document) st
  = (if closeOnEsc st && truthy (activeModal st) then close None false st else st) /\
  key_listeners st = (if closeOnEsc st then [mkListener document EscKeydown] else []).
Proof.
  intros o pg.
  split; [split; vm_compute; reflexivity|].
  exact (escape_closes_active_modal o pg [Click 5 5; Fire 0]).
Defined.

(* ================================================================= *)
(** ** The queue outside sequential mode *)

Lemma unqueued_close id silent st : unqueued st -> unqueued (close id silent st).
Proof.
  intros [Hs Hq].
  pose proof (close_fields id silent st) as F. cbv zeta in F.
  destruct F as (_ & _ & Fq & _ & _ & _ & Fs & _). split; congruence.
Qed.

Lemma unqueued_open id data st : unqueued st -> unqueued (open id data st).
Proof.
  intros [Hs Hq].
  assert (Hg : sequential st && truthy (activeModal st) = false) by now rewrite Hs.
  destruct (JsMap.get id (modals st)) as [modal|] eqn:Hget.
  - pose proof (open_known_fields id data st modal Hg Hget) as F. cbv zeta in F.
    destruct F as (_ & _ & Fq & _ & _ & _ & Fs & _). split; congruence.
  - rewrite (open_unknown _ _ _ Hg Hget). now split.
Qed.

Lemma unqueued_settle modalId modal silent st :
  unqueued st ->
  unqueued (settle modalId modal silent st) /\
  settle modalId modal silent st = settled modalId modal silent st.
Proof.
  intros [Hs Hq].
  pose proof (settled_fields modalId modal silent st) as F. cbv zeta in F.
  destruct F as (_ & Fq & _ & _ & _ & Fs & _).
  rewrite settle_unfold, Fq, Hq. repeat split; congruence.
Qed.

Lemma unqueued_handle etarget h st : unqueued st -> unqueued (handle etarget h st).
Proof.
  intros H. destruct h as [id|v id|tid|]; simpl.
  - now apply unqueued_close.
  - destruct (Nat.eqb etarget v); [now apply unqueued_close|exact H].
  - now apply unqueued_open.
  - destruct (truthy (activeModal st)); [now apply unqueued_close|exact H].
Qed.

Lemma unqueued_step a st : unqueued st -> unqueued (step a st).
Proof.
  intros H.
  destruct a as [id data|id silent| |id el ov btn o|et cur|cur|i|d]; simpl.
  - now apply unqueued_open.
  - now apply unqueued_close.
  - split; [|reflexivity]. unfold closeAll. cbn [sequential set_queue].
    apply (fold_left_inv (fun s => sequential s = false)); [|apply H].
    intros s entry Hs.
    pose proof (close_fields (Some (fst entry)) true s) as F. cbv zeta in F.
    destruct F as (_ & _ & _ & _ & _ & _ & Fs & _). congruence.
  - rewrite register_unfold. exact H.
  - unfold dispatch. apply fold_left_inv; [|exact H]. intros s l Hs.
    destruct (Nat.eqb (target l) cur && Bool.eqb (is_click (handler l)) true);
      [now apply unqueued_handle|exact Hs].
  - unfold dispatch. apply fold_left_inv; [|exact H]. intros s l Hs.
    destruct (Nat.eqb (target l) cur && Bool.eqb (is_click (handler l)) false);
      [now apply unqueued_handle|exact Hs].
  - unfold fire. destruct (nth_error (timers st) i) as [t|]; [|exact H].
    unfold run_timer. destruct (act t) as [modal|modalId modal silent].
    + exact H.
    + apply unqueued_settle. exact H.
  - exact H.
Qed.

(** Property X3. Outside sequential mode nothing is ever queued: from a manager with
    [sequential] off and an empty queue, the queue is empty after every trace,
    registrations included, so no 300ms callback ever opens a modal. *)
Theorem queue_stays_empty_when_not_sequential (tr : list Action) (st : State) :
  sequential st = false ->
  queue st = [] ->
  queue (run tr st) = [] /\
  sequential (run tr st) = false /\
  forall modalId modal silent,
    settle modalId modal silent (run tr st)
    = settled modalId modal silent (run tr st).
Proof.
  intros Hs Hq.
  assert (H : unqueued (run tr st)).
  { assert (H0 : unqueued st) by now split. clear Hs Hq.
    revert st H0. induction tr as [|a tr IH]; intros st H0; [exact H0|].
    change (run (a :: tr) st) with (run tr (step a st)).
    apply IH. now apply unqueued_step. }
  destruct H as [Hs' Hq']. split; [exact Hq'|]. split; [exact Hs'|].
  intros modalId modal silent. apply unqueued_settle. now split.
Qed.

Lemma queue_stays_empty_when_not_sequential_witness :
  let st := Sample.manager false in
  let tr := [Open "A" VNull; Open "B" (VNum 3); Click 22 22; Fire 0; Fire 0;
             CloseAll; Fire 1; Open "nonexistent" VNull] in
  queue (run tr st) = [] /\
  sequential (run tr st) = false /\
  forall modalId modal silent,
    settle modalId modal silent (run tr st)
    = settled modalId modal silent (run tr st).
Proof.
  intros st tr.
  apply (queue_stays_empty_when_not_sequential tr st); vm_compute; reflexivity.
Defined.

(* ================================================================= *)
(** ** The manager comes to rest *)

Lemma handoff_timers_length id st :
  List.length (timers (handoff id st)) <= S (List.length (timers st)).
Proof.
  unfold handoff.
  destruct (truthy (activeModal st) && negb (same_id (activeModal st) id)); [|lia].
  destruct (close_timers_cases (activeModal st) true st) as [E|(mid & m & _ & E)];
    rewrite E; [lia|]. rewrite length_app. simpl. lia.
Qed.

Lemma pending_work_open id data st :
  pending_work (open id data st) <= pending_work st + 2.
Proof.
  unfold pending_work.
  destruct (sequential st && truthy (activeModal st)) eqn:Hq.
  - rewrite (open_queued _ _ _ Hq). simpl. rewrite length_app. simpl. lia.
  - destruct (JsMap.get id (modals st)) as [modal|] eqn:Hget.
    + pose proof (open_known_fields id data st modal Hq Hget) as F. cbv zeta in F.
      destruct F as (_ & _ & Fq & _ & _ & _ & _ & _ & _ & _ & _ & Ft).
      rewrite Fq, Ft, length_app. simpl.
      pose proof (handoff_timers_length id st). lia.
    + rewrite (open_unknown _ _ _ Hq Hget). lia.
Qed.

Lemma pending_work_settle modalId modal silent st :
  pending_work (settle modalId modal silent st) <= pending_work st.
Proof.
  pose proof (settled_fields modalId modal silent st) as F. cbv zeta in F.
  destruct F as (_ & Fq & _ & _ & Ft & _).
  rewrite settle_unfold.
  destruct (queue (settled modalId modal silent st)) as [|[nid ndata] rest] eqn:E.
  - unfold pending_work. rewrite Ft, E, <- Fq. lia.
  - pose proof (pending_work_open nid ndata
                  (set_queue rest (settled modalId modal silent st))) as O.
    unfold pending_work in *. cbn [timers queue set_queue] in O. rewrite Ft in O.
    rewrite <- Fq. simpl List.length. lia.
Qed.

Lemma length_remove_nth {A} i (l : list A) :
  i < List.length l -> S (List.length (remove_nth i l)) = List.length l.
Proof.
  revert i. induction l as [|x l IH]; intros i H; simpl in H; [lia|].
  destruct i; simpl; [reflexivity|]. rewrite IH by lia. reflexivity.
Qed.

Lemma pending_work_fire i st :
  i < List.length (timers st) -> pending_work (fire i st) < pending_work st.
Proof.
  intros Hi. unfold fire.
  destruct (nth_error (timers st) i) as [t|] eqn:Hn;
    [|apply nth_error_None in Hn; lia].
  set (s0 := set_clock _ _).
  assert (W0 : S (pending_work s0) = pending_work st).
  { unfold pending_work. subst s0. simpl.
    rewrite <- (length_remove_nth i (timers st) Hi). reflexivity. }
  unfold run_timer. destruct (act t) as [modal|modalId modal silent].
  - unfold pending_work in *. simpl in *. lia.
  - pose proof (pending_work_settle modalId modal silent s0). lia.
Qed.

Lemma earliest_from_bound ts i best :
  fst best < i -> earliest_from ts i best < i + List.length ts.
Proof.
  revert i best. induction ts as [|t ts IH]; intros i best H; simpl; [lia|].
  destruct (Nat.ltb (due t) (snd best)).
  - specialize (IH (S i) (i, due t)). simpl in IH. lia.
  - specialize (IH (S i) best). lia.
Qed.

Lemma earliest_bound ts i : earliest ts = Some i -> i < List.length ts.
Proof.
  destruct ts as [|t ts]; simpl; [discriminate|].
  intros H. injection H as <-.
  pose proof (earliest_from_bound ts 1 (0, due t)). simpl in *. lia.
Qed.

Lemma pending_work_tick st :
  timers st <> [] -> pending_work (tick st) < pending_work st.
Proof.
  intros H. unfold tick. destruct (earliest (timers st)) as [i|] eqn:E.
  - apply pending_work_fire. now apply earliest_bound.
  - destruct (timers st); [congruence|discriminate].
Qed.

Lemma ticks_at_rest n st : timers st = [] -> ticks n st = st.
Proof.
  intros E. induction n as [|n IH]; simpl; [reflexivity|].
  assert (Et : tick st = st) by (unfold tick; now rewrite E).
  now rewrite Et.
Qed.

Lemma ticks_drain n st : pending_work st <= n -> timers (ticks n st) = [].
Proof.
  revert st. induction n as [|n IH]; intros st H.
  - simpl. unfold pending_work in H. destruct (timers st); [reflexivity|simpl in H; lia].
  - destruct (timers st) as [|t ts] eqn:E.
    + now rewrite ticks_at_rest.
    + simpl. apply IH. assert (Hne : timers st <> []) by congruence.
      pose proof (pending_work_tick st Hne). lia.
Qed.

(** Property X4. Left alone, the manager comes to rest: firing any pending timer lowers
    [pending_work], so after at most as many firings as there are pending
    timers plus twice the queued requests no timer is pending, and from then
    on nothing changes. *)
Theorem manager_comes_to_rest (n : nat) (st : State) :
  pending_work st <= n ->
  timers (ticks n st) = [] /\
  tick (ticks n st) = ticks n st /\
  (forall i, i < List.length (timers st) ->
             pending_work (fire i st) < pending_work st).
Proof.
  intros H. pose proof (ticks_drain n st H) as E. split; [exact E|]. split.
  - unfold tick. now rewrite E.
  - intros i. apply pending_work_fire.
Qed.

Lemma manager_comes_to_rest_witness :
  let st :=
    run [Open "A" VNull; Open "B" VNull; Open "C" VNull; Close (Some "A") false]
      (Sample.manager true) in
  timers (ticks 6 st) = [] /\
  tick (ticks 6 st) = ticks 6 st /\
  (forall i, i < List.length (timers st) ->
             pending_work (fire i st) < pending_work st).
Proof.
  intros st. apply (manager_comes_to_rest 6 st). vm_compute. lia.
Defined.

(* ================================================================= *)
(** ** The hand-off outside sequential mode *)

Lemma remove_nth_app {A} (l r : list A) (x : A) :
  remove_nth (List.length l) (l ++ x :: r) = l ++ r.
Proof. induction l as [|y l IH]; simpl; [reflexivity|]. now rewrite IH. Qed.

Lemma fire_appended st1 (l r : list Timer) (t : Timer) :
  timers st1 = l ++ t :: r ->
  fire (List.length l) st1
  = run_timer t (set_clock (Nat.max (clock st1) (due t)) (set_timers (l ++ r) st1)).
Proof.
  intros E. unfold fire.
  rewrite E, nth_error_app2, Nat.sub_diag by lia. simpl.
  now rewrite remove_nth_app.
Qed.

Lemma open_known_dom id data st modal :
  sequential st && truthy (activeModal st) = false ->
  JsMap.get id (modals st) = Some modal ->
  dom (open id data st)
  = dom_update (element modal) (fun s => mkElem (classList s) "flex")
      (dom_update (element modal)
         (fun s => mkElem (ClassList.add "active" (classList s)) (display s))
         (dom (handoff id st))).
Proof.
  intros Hg Hget. rewrite (open_known _ _ _ _ Hg Hget). cbv zeta.
  destruct (onOpen (options modal));
    match goal with |- context [if ?b then _ else _] => destruct b end;
    reflexivity.
Qed.

(** Property X5. Outside sequential mode, from a manager with no timer pending,
    opening [B] while another modal [A] is active hands over: [A] starts
    leaving at once, silently, and [B] is the active modal. The host then
    runs [B]'s 10ms timer and [A]'s 300ms callback, in that order; the
    callback takes [A]'s [active] flag away and nothing else: [B] stays Open,
    shown and active, the scroll lock is as it was, and no callback of [A]
    is made. *)
Theorem handoff_replaces_active_modal (st : State) (A B : string)
    (mA mB : Modal) (data : JsVal) :
  sequential st = false ->
  queue st = [] ->
  timers st = [] ->
  activeModal st = Some A ->
  A <> "" -> A <> B ->
  JsMap.get A (modals st) = Some mA ->
  JsMap.get B (modals st) = Some mB ->
  element mA <> element mB ->
  let st1 := open B data st in
  let st2 := ticks 2 st1 in
  (activeModal st1 = Some B /\ is_open st1 B = true /\
   is_shown (dom st1) (element mA) = false /\
   timers st1 = [settle_timer st true (A, mA);
                 mkTimer (clock st + 10) (ShowTimer mB)] /\
   log st1 = log st ++ onOpen_call mB (payload data)) /\
  (tick st1 = fire 1 st1 /\
   activeModal st2 = Some B /\ is_open st2 B = true /\
   is_shown (dom st2) (element mB) = true /\ is_open st2 A = false /\
   bodyOverflow st2 = bodyOverflow st1 /\ log st2 = log st1 /\
   timers st2 = []).
Proof.
  intros Hs Hq Htm Ha HA HAB HgA HgB Hel st1 st2.
  assert (Hg : sequential st && truthy (activeModal st) = false) by now rewrite Hs.
  assert (Hh : handoff B st
               = setTimeout (SettleTimer A mA true) 300
                   (classList_remove (element mA) "show" st)).
  { unfold handoff. rewrite Ha. simpl.
    destruct (String.eqb_spec A ""); [contradiction|].
    destruct (String.eqb_spec A B); [contradiction|]. simpl.
    now apply close_silent_known. }
  pose proof (open_known_fields B data st mB Hg HgB) as F. cbv zeta in F.
  fold st1 in F.
  destruct F as (Fm & Fa & Fq & Fo & Fc & _ & _ & Fb & _ & _ & Fact & Ft).
  assert (Ft' : timers st1 = [settle_timer st true (A, mA);
                              mkTimer (clock st + 10) (ShowTimer mB)]).
  { rewrite Ft, Hh. simpl. now rewrite Htm. }
  assert (Hshow : is_shown (dom st1) (element mA) = false).
  { subst st1. rewrite (open_known_dom _ _ _ _ Hg HgB), Hh.
    unfold is_shown at 1. unfold dom_update at 1 2.
    destruct (Nat.eqb_spec (element mA) (element mB)); [contradiction|].
    fold (is_shown (dom (setTimeout (SettleTimer A mA true) 300
                           (classList_remove (element mA) "show" st))) (element mA)).
    simpl. now rewrite is_shown_remove_show, Nat.eqb_refl. }
  assert (Hlog : log st1 = log st ++ onOpen_call mB (payload data)).
  { subst st1. rewrite open_log. unfold open_calls. now rewrite Hg, HgB. }
  assert (HoB : is_open st1 B = true).
  { unfold is_open. now rewrite Fm, HgB, Fact, Nat.eqb_refl. }
  split.
  { repeat split; assumption. }
  (* the host runs [B]'s enter timer first *)
  assert (K1 : tick st1 = fire 1 st1).
  { unfold tick. rewrite Ft'. unfold settle_timer. simpl.
    destruct (Nat.ltb_spec (clock st + 10) (clock st + 300)); [reflexivity|lia]. }
  set (s2 := fire 1 st1) in *.
  set (s1' := set_clock (Nat.max (clock st1) (clock st + 10))
                (set_timers [settle_timer st true (A, mA)] st1)).
  assert (E2 : s2 = show mB s1').
  { subst s2. unfold fire. rewrite Ft'. reflexivity. }
  pose proof (show_fields mB s1') as W. cbv zeta in W. rewrite <- E2 in W.
  destruct W as (_ & Wm & Wa & Wq & Wl & Wt & Wact).
  assert (T2 : timers s2 = [settle_timer st true (A, mA)]) by (rewrite Wt; reflexivity).
  set (s3 := set_clock (Nat.max (clock s2) (due (settle_timer st true (A, mA))))
               (set_timers [] s2)).
  assert (E3 : st2 = settled A mA true s3).
  { subst st2. simpl ticks. rewrite K1, (tick_single s2 _ T2).
    unfold run_timer. simpl act. cbv iota. fold s3.
    rewrite settle_unfold.
    pose proof (settled_fields A mA true s3) as S. cbv zeta in S.
    destruct S as (_ & Sq & _). rewrite Sq.
    assert (Q3 : queue s3 = []).
    { subst s3. simpl. rewrite Wq. subst s1'. simpl. congruence. }
    now rewrite Q3. }
  pose proof (settled_fields A mA true s3) as S. cbv zeta in S.
  destruct S as (Sm & _ & _ & _ & St & _ & Sb & _ & _ & Sl & Sa & Sd).
  assert (Hact3 : forall e, is_active (dom s3) e = is_active (dom st1) e).
  { intros e. subst s3. simpl. rewrite Wact. reflexivity. }
  assert (HactB : is_active (dom st2) (element mB) = true).
  { rewrite E3, settled_is_active, Hact3, Fact, Nat.eqb_refl.
    destruct (Nat.eqb_spec (element mB) (element mA)); [congruence|reflexivity]. }
  assert (Hm2 : modals st2 = modals st).
  { rewrite E3, Sm. subst s3. simpl. rewrite Wm. subst s1'. simpl. exact Fm. }
  split; [exact K1|]. split.
  { rewrite E3, Sa. subst s3. simpl. rewrite Wa. subst s1'. simpl. rewrite Fa. simpl.
    destruct (String.eqb_spec B A); [congruence|reflexivity]. }
  split; [unfold is_open; now rewrite Hm2, HgB|].
  split.
  { rewrite E3, Sd. unfold is_shown, dom_update.
    destruct (Nat.eqb_spec (element mB) (element mA)); [congruence|].
    subst s3. simpl. rewrite E2. simpl. unfold dom_update.
    rewrite Nat.eqb_refl. simpl. apply ClassListFacts.contains_add_same. }
  split.
  { unfold is_open. rewrite Hm2, HgA, E3, settled_is_active, Nat.eqb_refl.
    reflexivity. }
  split.
  { rewrite E3, settled_overflow.
    assert (Hh2 : hasOtherActiveModals (settled A mA true s3) = true).
    { apply hasOtherActiveModals_true. exists B, mB. split.
      - rewrite <- E3, Hm2. now apply get_In.
      - now rewrite <- E3. }
    rewrite Hh2, andb_false_r. subst s3. simpl. rewrite E2. reflexivity. }
  split.
  { rewrite E3, Sl. unfold close_calls. subst s3. simpl log. rewrite Wl.
    destruct (onClose (options mA)); simpl; now rewrite app_nil_r. }
  rewrite E3, St. reflexivity.
Qed.

Lemma handoff_replaces_active_modal_witness :
  let st := tick (open "A" VNull (Sample.manager false)) in
  let st1 := open "B" (VNum 2) st in
  let st2 := ticks 2 st1 in
  (activeModal st1 = Some "B" /\ is_open st1 "B" = true /\
   is_shown (dom st1) (element Sample.modalA) = false /\
   timers st1 = [settle_timer st true ("A", Sample.modalA);
                 mkTimer (clock st + 10) (ShowTimer Sample.modalB)] /\
   log st1 = log st ++ onOpen_call Sample.modalB (payload (VNum 2))) /\
  (tick st1 = fire 1 st1 /\
   activeModal st2 = Some "B" /\ is_open st2 "B" = true /\
   is_shown (dom st2) (element Sample.modalB) = true /\ is_open st2 "A" = false /\
   bodyOverflow st2 = bodyOverflow st1 /\ log st2 = log st1 /\
   timers st2 = []).
Proof.
  intros st.
  apply (handoff_replaces_active_modal st "A" "B" Sample.modalA Sample.modalB (VNum 2));
    try discriminate; vm_compute; reflexivity.
Defined.

(* ================================================================= *)
(** ** Registering an id again *)

Lemma dispatch_fold_unwired click etarget b (l : list Listener) s :
  forallb (fun x => negb (Nat.eqb (target x) b)) l = true ->
  fold_left
    (fun s (x : Listener) =>
       if Nat.eqb (target x) b && Bool.eqb (is_click (handler x)) click
       then handle etarget (handler x) s else s) l s = s.
Proof.
  revert s. induction l as [|x l IH]; intros s H; simpl; [reflexivity|].
  simpl in H. apply andb_true_iff in H as [Hx Hl].
  apply negb_true_iff in Hx. rewrite Hx. simpl. now apply IH.
Qed.

Lemma dispatch_fold_wired etarget b id ov st0 s :
  overlay_not b ov = true ->
  fold_left
    (fun s (x : Listener) =>
       if Nat.eqb (target x) b && Bool.eqb (is_click (handler x)) true
       then handle etarget (handler x) s else s)
    (wired id ov (Some b) st0) s
  = close (Some id) false s.
Proof.
  intros Hov. unfold wired. simpl. rewrite Nat.eqb_refl. simpl.
  destruct ov as [v|]; [|reflexivity].
  destruct (closeOnOverlay st0); [|reflexivity].
  simpl in *. apply negb_true_iff in Hov. now rewrite Hov.
Qed.

Lemma close_plain id modal st :
  id <> "" ->
  JsMap.get id (modals st) = Some modal ->
  beforeClose (options modal) = None ->
  close (Some id) false st
  = setTimeout (SettleTimer id modal false) 300
      (classList_remove (element modal) "show" st).
Proof.
  intros Hid Hget Hbc. unfold close.
  rewrite (close_target_Some _ _ Hid), Hget. unfold consult_beforeClose.
  now rewrite Hbc.
Qed.

(** Property X6. [register] never removes a listener. Registering an id a second time
    with the same close button leaves two listeners on the button, so one
    click runs [close(id)] twice: without a [beforeClose] that is two 300ms
    callbacks for the newly stored record, and [onClose] will be called
    twice. *)
Theorem reregistration_doubles_close_button (st : State) (id : string)
    (el1 el2 b : Elem) (ov1 ov2 : option Elem) (o1 o2 : RegisterOptions) :
  unwired b st = true ->
  overlay_not b ov1 = true ->
  overlay_not b ov2 = true ->
  let st1 := register id el1 ov1 (Some b) o1 st in
  let st2 := register id el2 ov2 (Some b) o2 st1 in
  let modal := stored_modal el2 ov2 (Some b) o2 st1 in
  listeners st2 = listeners st ++ wired id ov1 (Some b) st ++ wired id ov2 (Some b) st1 /\
  step (Click b b) st2 = close (Some id) false (close (Some id) false st2) /\
  (id <> "" -> ro_beforeClose o2 = None ->
   timers (step (Click b b) st2)
   = timers st2 ++ [settle_timer st2 false (id, modal); settle_timer st2 false (id, modal)]).
Proof.
  intros Hun H1 H2 st1 st2 modal.
  assert (Hl : listeners st2
               = listeners st ++ wired id ov1 (Some b) st ++ wired id ov2 (Some b) st1).
  { subst st2 st1. rewrite !register_listeners. now rewrite <- app_assoc. }
  assert (Hc : step (Click b b) st2 = close (Some id) false (close (Some id) false st2)).
  { simpl. unfold dispatch. rewrite Hl, !fold_left_app.
    rewrite (dispatch_fold_unwired true b b (listeners st) st2 Hun).
    rewrite (dispatch_fold_wired b b id ov1 st st2 H1).
    now rewrite (dispatch_fold_wired b b id ov2 st1 _ H2). }
  split; [exact Hl|]. split; [exact Hc|].
  intros Hid Hbc. rewrite Hc.
  assert (Hget : JsMap.get id (modals st2) = Some modal).
  { subst st2. rewrite register_modals. apply get_set_same. }
  rewrite (close_plain id modal st2 Hid Hget Hbc).
  rewrite (close_plain id modal); [|exact Hid|exact Hget|exact Hbc].
  simpl. now rewrite <- app_assoc.
Qed.

Lemma reregistration_doubles_close_button_witness :
  let st := Sample.manager false in
  let st1 := register "D" 50 (Some 51) (Some 52) (Sample.callbacks 5) st in
  let st2 := register "D" 60 None (Some 52) (Sample.callbacks 6) st1 in
  let modal := stored_modal 60 None (Some 52) (Sample.callbacks 6) st1 in
  (listeners st2
   = listeners st ++ wired "D" (Some 51) (Some 52) st ++ wired "D" None (Some 52) st1 /\
   step (Click 52 52) st2 = close (Some "D") false (close (Some "D") false st2) /\
   ("D" <> "" -> ro_beforeClose (Sample.callbacks 6) = None ->
    timers (step (Click 52 52) st2)
    = timers st2 ++ [settle_timer st2 false ("D", modal);
                     settle_timer st2 false ("D", modal)])) /\
  log (ticks 2 (step (Click 52 52) st2)) = [EvOnClose 106; EvOnClose 106].
Proof.
  intros st st1 st2 modal. split.
  - apply (reregistration_doubles_close_button st "D" 50 60 52 (Some 51) None
             (Sample.callbacks 5) (Sample.callbacks 6));
      vm_compute; reflexivity.
  - vm_compute. reflexivity.
Defined.



(* ================================================================= *)
(** ** Closing before the enter timer *)

(** Property X8. The 10ms enter timer is never cancelled. When a modal is closed before
    it has fired, the timer still adds [show] afterwards and the 300ms
    callback takes only [active] away: the modal ends Closed for the manager
    ([activeModal] cleared, no [active]) with the [show] class left on. *)
Theorem close_before_enter_leaves_show (st : State) (id : string)
    (modal : Modal) (data : JsVal) :
  id <> "" ->
  JsMap.get id (modals st) = Some modal ->
  truthy (activeModal st) = false ->
  timers st = [] ->
  queue st = [] ->
  beforeClose (options modal) = None ->
  let st1 := close (Some id) false (open id data st) in
  let st2 := ticks 2 st1 in
  timers st1 = [mkTimer (clock st + 10) (ShowTimer modal);
                mkTimer (clock st + 300) (SettleTimer id modal false)] /\
  is_shown (dom st1) (element modal) = false /\
  timers st2 = [] /\
  activeModal st2 = None /\
  is_active (dom st2) (element modal) = false /\
  is_shown (dom st2) (element modal) = true.
Proof.
  intros Hid Hget Ha Ht Hq Hbc st1 st2.
  assert (Hg : sequential st && truthy (activeModal st) = false)
    by (rewrite Ha; apply andb_false_r).
  assert (Hh : handoff id st = st) by (unfold handoff; now rewrite Ha).
  pose proof (open_known_fields id data st modal Hg Hget) as F. cbv zeta in F.
  destruct F as (Fm & Fa & Fq & _ & Fc & _ & _ & _ & _ & _ & Fact & Ft).
  rewrite Hh, Ht in Ft. simpl in Ft.
  set (s0 := open id data st) in *.
  assert (Hg0 : JsMap.get id (modals s0) = Some modal) by now rewrite Fm.
  assert (E1 : st1 = setTimeout (SettleTimer id modal false) 300
                       (classList_remove (element modal) "show" s0)).
  { subst st1. now apply close_plain. }
  assert (T1 : timers st1 = [mkTimer (clock st + 10) (ShowTimer modal);
                             mkTimer (clock st + 300) (SettleTimer id modal false)]).
  { rewrite E1. simpl. now rewrite Ft, Fc. }
  assert (S1 : is_shown (dom st1) (element modal) = false).
  { rewrite E1. simpl. now rewrite is_shown_remove_show, Nat.eqb_refl. }
  assert (K1 : tick st1 = fire 0 st1).
  { unfold tick. rewrite T1. simpl.
    destruct (Nat.ltb_spec (clock st + 300) (clock st + 10)); [lia|reflexivity]. }
  set (s2 := fire 0 st1) in *.
  assert (E2 : s2 = show modal
                      (set_clock (Nat.max (clock st1) (clock st + 10))
                         (set_timers [mkTimer (clock st + 300) (SettleTimer id modal false)]
                            st1))).
  { subst s2. unfold fire. rewrite T1. reflexivity. }
  assert (K2 : tick s2 = fire 0 s2).
  { unfold tick. rewrite E2. reflexivity. }
  assert (E3 : st2 = fire 0 s2).
  { subst st2. simpl. now rewrite K1, K2. }
  set (s3 := set_clock (Nat.max (clock s2) (clock st + 300)) (set_timers [] s2)).
  assert (E4 : st2 = settled id modal false s3).
  { rewrite E3. unfold fire. rewrite E2 at 1. simpl nth_error.
    cbv iota. unfold run_timer. simpl act. cbv iota.
    rewrite settle_unfold.
    replace (set_clock (Nat.max (clock s2) (due (mkTimer (clock st + 300)
                                                  (SettleTimer id modal false))))
               (set_timers (remove_nth 0 (timers s2)) s2)) with s3.
    - pose proof (settled_fields id modal false s3) as S. cbv zeta in S.
      destruct S as (_ & Sq & _). rewrite Sq.
      assert (Q3 : queue s3 = []).
      { subst s3. simpl. rewrite E2. simpl. rewrite E1. simpl. congruence. }
      now rewrite Q3.
    - subst s3. rewrite E2. reflexivity. }
  pose proof (settled_fields id modal false s3) as S. cbv zeta in S.
  destruct S as (_ & _ & _ & _ & St & _ & _ & _ & _ & _ & Sa & Sd).
  split; [exact T1|]. split; [exact S1|]. split; [|split; [|split]].
  - rewrite E4, St. reflexivity.
  - rewrite E4, Sa. subst s3. simpl. rewrite E2. simpl. rewrite E1. simpl.
    rewrite Fa. simpl. now rewrite String.eqb_refl.
  - rewrite E4, settled_is_active, Nat.eqb_refl. reflexivity.
  - rewrite E4, Sd. unfold is_shown, dom_update. rewrite Nat.eqb_refl. simpl.
    rewrite ClassListFacts.contains_remove_other by discriminate.
    subst s3. simpl. rewrite E2. simpl. unfold dom_update.
    rewrite Nat.eqb_refl. simpl. apply ClassListFacts.contains_add_same.
Qed.

Lemma close_before_enter_leaves_show_witness :
  let st := Sample.manager true in
  let st1 := close (Some "C") false (open "C" VNull st) in
  let st2 := ticks 2 st1 in
  timers st1 = [mkTimer (clock st + 10) (ShowTimer Sample.modalC);
                mkTimer (clock st + 300) (SettleTimer "C" Sample.modalC false)] /\
  is_shown (dom st1) (element Sample.modalC) = false /\
  timers st2 = [] /\
  activeModal st2 = None /\
  is_active (dom st2) (element Sample.modalC) = false /\
  is_shown (dom st2) (element Sample.modalC) = true.
Proof.
  intros st.
  apply (close_before_enter_leaves_show st "C" Sample.modalC VNull);
    try discriminate; vm_compute; reflexivity.
Defined.

(* ================================================================= *)
(** ** The queue in host order *)

Lemma filter_remove_nth_keep {A} (p : A -> bool) (l : list A) j t :
  nth_error l j = Some t -> p t = false -> filter p (remove_nth j l) = filter p l.
Proof.
  revert j. induction l as [|x l IH]; intros j Hn Hp.
  - destruct j; discriminate.
  - destruct j as [|j]; simpl in *.
    + injection Hn as ->. now rewrite Hp.
    + rewrite (IH j Hn Hp). reflexivity.
Qed.

Lemma filter_remove_nth_drop {A} (p : A -> bool) (l : list A) j t t' :
  nth_error l j = Some t -> p t = true -> filter p l = [t'] ->
  t = t' /\ filter p (remove_nth j l) = [].
Proof.
  revert j. induction l as [|x l IH]; intros j Hn Hp Hf.
  - destruct j; discriminate.
  - destruct j as [|j]; simpl in *.
    + injection Hn as ->. rewrite Hp in Hf. injection Hf as -> Hf. now split.
    + destruct (p x) eqn:Hx.
      * exfalso. injection Hf as _ Hf.
        assert (Hin : In t (filter p l)).
        { apply filter_In. split; [eapply nth_error_In; eassumption|exact Hp]. }
        rewrite Hf in Hin. contradiction.
      * apply (IH j Hn Hp Hf).
Qed.

Lemma filter_nil_nth {A} (p : A -> bool) (l : list A) j t :
  filter p l = [] -> nth_error l j = Some t -> p t = false.
Proof.
  intros Hf Hn. destruct (p t) eqn:Hp; [|reflexivity].
  assert (Hin : In t (filter p l)).
  { apply filter_In. split; [eapply nth_error_In; eassumption|exact Hp]. }
  rewrite Hf in Hin. contradiction.
Qed.

(** While [A]'s callback is the only one pending, every timer that fires is
    an enter timer, which leaves the hand-over as it is, or that callback,
    which completes it. *)
Lemma handing_over_fire M A mA B mB dB rest L s j :
  handing_over M A mA B dB rest L s ->
  JsMap.get B M = Some mB ->
  handing_over M A mA B dB rest L (fire j s)
  \/ handed_over M B mB rest
       (L ++ close_calls mA false ++ onOpen_call mB (payload dB)) (fire j s).
Proof.
  intros (Hs & Hm & Ha & Hq & Hl & due & Hst) HgB.
  destruct (nth_error (timers s) j) as [t|] eqn:En.
  2: { left. unfold fire. rewrite En.
       split; [exact Hs|]. split; [exact Hm|]. split; [exact Ha|].
       split; [exact Hq|]. split; [exact Hl|]. now exists due. }
  rewrite (fire_nth s j t En).
  set (s0 := set_clock _ (set_timers (remove_nth j (timers s)) s)).
  destruct (is_show t) eqn:Es.
  - left. unfold run_timer. unfold is_show in Es.
    destruct (act t) as [m|x y z] eqn:Et; [|discriminate].
    pose proof (show_fields m s0) as F. cbv zeta in F.
    destruct F as (F1 & F2 & F3 & F4 & F5 & F6 & _).
    split; [rewrite F1; exact Hs|]. split; [rewrite F2; exact Hm|].
    split; [rewrite F3; exact Ha|]. split; [rewrite F4; exact Hq|].
    split; [rewrite F5; exact Hl|]. exists due.
    unfold settles. rewrite F6. subst s0. simpl timers.
    rewrite (filter_remove_nth_keep _ _ _ _ En); [exact Hst|].
    unfold is_show. now rewrite Et.
  - right.
    destruct (filter_remove_nth_drop (fun t => negb (is_show t)) _ _ _ _ En
                (eq_trans (f_equal negb Es) eq_refl) Hst) as [-> Hrest].
    unfold run_timer. simpl act. cbv iota.
    assert (Hq0 : queue s0 = (B, dB) :: rest) by exact Hq.
    rewrite (settle_pops A mA false s0 B dB rest Hq0).
    pose proof (settled_fields A mA false s0) as S. cbv zeta in S.
    destruct S as (Sm & _ & _ & _ & St & Ss & _ & _ & _ & Sl & Sa & _).
    set (s1 := set_queue rest (settled A mA false s0)).
    assert (Hact : activeModal s1 = None).
    { subst s1. simpl. rewrite Sa. subst s0. simpl. rewrite Ha. simpl.
      now rewrite String.eqb_refl. }
    assert (Hgate : sequential s1 && truthy (activeModal s1) = false)
      by (rewrite Hact; apply andb_false_r).
    assert (Hmod : modals s1 = M).
    { subst s1. simpl. rewrite Sm. subst s0. simpl. exact Hm. }
    assert (Hgb1 : JsMap.get B (modals s1) = Some mB) by now rewrite Hmod.
    assert (Hh : handoff B s1 = s1) by (unfold handoff; now rewrite Hact).
    pose proof (open_known_fields B dB s1 mB Hgate Hgb1) as O. cbv zeta in O.
    destruct O as (Om & Oa & Oq & _ & _ & _ & Os & _ & _ & _ & Oact & Ot).
    split.
    { rewrite Os. subst s1. simpl. rewrite Ss. subst s0. simpl. exact Hs. }
    split; [rewrite Om; exact Hmod|]. split; [exact Oa|].
    split; [rewrite Oq; reflexivity|].
    split.
    { rewrite open_log. unfold open_calls. rewrite Hgate, Hgb1.
      subst s1. simpl log. rewrite Sl. subst s0. simpl log.
      unfold onOpen_call. rewrite Hl. now rewrite app_assoc. }
    split.
    { unfold settles. rewrite Ot, Hh, filter_app. simpl.
      subst s1. simpl timers. rewrite St. subst s0. simpl timers.
      rewrite Hrest. reflexivity. }
    rewrite Oact, Nat.eqb_refl. reflexivity.
Qed.

Lemma handed_over_fire M B mB rest L s j :
  handed_over M B mB rest L s -> handed_over M B mB rest L (fire j s).
Proof.
  intros (Hs & Hm & Ha & Hq & Hl & Hst & Hact).
  destruct (nth_error (timers s) j) as [t|] eqn:En.
  2: { unfold fire. rewrite En. repeat (split; [assumption|]). assumption. }
  rewrite (fire_nth s j t En).
  set (s0 := set_clock _ (set_timers (remove_nth j (timers s)) s)).
  pose proof (filter_nil_nth _ _ _ _ Hst En) as Hsh.
  apply negb_false_iff in Hsh.
  unfold run_timer. unfold is_show in Hsh.
  destruct (act t) as [m|x y z] eqn:Et; [|discriminate].
  pose proof (show_fields m s0) as F. cbv zeta in F.
  destruct F as (F1 & F2 & F3 & F4 & F5 & F6 & F7).
  split; [rewrite F1; exact Hs|]. split; [rewrite F2; exact Hm|].
  split; [rewrite F3; exact Ha|]. split; [rewrite F4; exact Hq|].
  split; [rewrite F5; exact Hl|]. split.
  - unfold settles. rewrite F6. subst s0. simpl timers.
    rewrite (filter_remove_nth_keep _ _ _ _ En); [exact Hst|].
    unfold is_show. now rewrite Et.
  - rewrite F7. exact Hact.
Qed.

Lemma ticks_preserve (P : State -> Prop) :
  (forall s j, P s -> P (fire j s)) -> forall n s, P s -> P (ticks n s).
Proof.
  intros Hf. induction n as [|n IH]; intros s Hs; [exact Hs|].
  simpl. apply IH. unfold tick. destruct (earliest (timers s)); [now apply Hf|exact Hs].
Qed.

(** In host order: once every timer pending after the close of [A] has
    fired, [B] has been taken from the front of the queue and opened. *)
Lemma handover_in_host_order st A B mA mB dB rest n :
  sequential st = true ->
  activeModal st = Some A ->
  A <> "" ->
  JsMap.get A (modals st) = Some mA ->
  vetoes mA st = false ->
  queue st = (B, dB) :: rest ->
  JsMap.get B (modals st) = Some mB ->
  no_settle_pending st ->
  pending_work (close (Some A) false st) <= n ->
  handed_over (modals st) B mB rest
    (log (close (Some A) false st) ++ close_calls mA false ++ onOpen_call mB (payload dB))
    (ticks n (close (Some A) false st))
  /\ timers (ticks n (close (Some A) false st)) = [].
Proof.
  intros Hs Ha HA HgA Hv Hq HgB Hno Hn.
  set (s1 := close (Some A) false st) in *.
  set (L := log s1).
  pose proof (close_fields (Some A) false st) as F. cbv zeta in F. fold s1 in F.
  destruct F as (Fm & Fa & Fq & _ & _ & _ & Fs & _).
  destruct (close_started (Some A) false st A mA (close_target_Some _ _ HA) HgA Hv)
    as [_ Ht]. fold s1 in Ht.
  assert (H1 : handing_over (modals st) A mA B dB rest L s1).
  { split; [congruence|]. split; [exact Fm|]. split; [congruence|].
    split; [congruence|]. split; [reflexivity|].
    exists (clock st + 300). unfold settles. rewrite Ht, filter_app.
    unfold no_settle_pending, settles in Hno. rewrite Hno. reflexivity. }
  assert (Hinv : handing_over (modals st) A mA B dB rest L (ticks n s1)
                 \/ handed_over (modals st) B mB rest
                      (L ++ close_calls mA false ++ onOpen_call mB (payload dB))
                      (ticks n s1)).
  { apply ticks_preserve; [|now left].
    intros s j [H|H].
    - now apply (handing_over_fire _ _ _ _ mB).
    - right. now apply handed_over_fire. }
  pose proof (ticks_drain n s1 Hn) as Hdone.
  split; [|exact Hdone].
  destruct Hinv as [(_ & _ & _ & _ & _ & due & Hst)|H]; [|exact H].
  unfold settles in Hst. rewrite Hdone in Hst. discriminate.
Qed.

(** Claim C2, as the code has it. The 300ms callback of every close pops
    exactly the front entry of a non-empty queue and calls [open] on it with
    the payload stored there. In sequential mode with [A] active and no
    other close waiting for its callback, the host's timers hand over in
    queue order: once the timers pending after [A]'s close, not vetoed, have
    fired, the front request [B] is the active modal, Open, called with its
    payload, and the rest of the queue is as it was. So with opens for [B]
    and then [C] queued in that order, [B] is served after [A]'s close and
    [C] after [B]'s. *)
Theorem queue_is_fifo :
  (forall modalId modal silent st nid ndata rest,
      queue st = (nid, ndata) :: rest ->
      settle modalId modal silent st
      = open nid ndata (set_queue rest (settled modalId modal silent st))) /\
  (forall st A B mA mB dB rest n,
      sequential st = true ->
      activeModal st = Some A ->
      A <> "" ->
      JsMap.get A (modals st) = Some mA ->
      vetoes mA st = false ->
      queue st = (B, dB) :: rest ->
      JsMap.get B (modals st) = Some mB ->
      no_settle_pending st ->
      pending_work (close (Some A) false st) <= n ->
      let st1 := ticks n (close (Some A) false st) in
      activeModal st1 = Some B /\ is_open st1 B = true /\
      queue st1 = rest /\ timers st1 = [] /\ modals st1 = modals st /\
      log st1 = log (close (Some A) false st) ++ close_calls mA false
                  ++ onOpen_call mB (payload dB)) /\
  (forall st A B C mA mB mC dB dC n2 n3,
      sequential st = true ->
      activeModal st = Some A ->
      A <> "" -> B <> "" ->
      queue st = [] ->
      JsMap.get A (modals st) = Some mA ->
      JsMap.get B (modals st) = Some mB ->
      JsMap.get C (modals st) = Some mC ->
      (forall s, vetoes mA s = false) ->
      (forall s, vetoes mB s = false) ->
      no_settle_pending st ->
      let st1 := open C dC (open B dB st) in
      let st2 := ticks n2 (close (Some A) false st1) in
      let st3 := ticks n3 (close (Some B) false st2) in
      pending_work (close (Some A) false st1) <= n2 ->
      pending_work (close (Some B) false st2) <= n3 ->
      (queue st1 = [(B, payload dB); (C, payload dC)] /\ activeModal st1 = Some A) /\
      (activeModal st2 = Some B /\ is_open st2 B = true /\
       queue st2 = [(C, payload dC)] /\ timers st2 = [] /\
       log st2 = log (close (Some A) false st1) ++ close_calls mA false
                   ++ onOpen_call mB (payload dB)) /\
      (activeModal st3 = Some C /\ is_open st3 C = true /\
       queue st3 = [] /\ timers st3 = [] /\
       log st3 = log (close (Some B) false st2) ++ close_calls mB false
                   ++ onOpen_call mC (payload dC))).
Proof.
  split; [apply settle_pops|]. split.
  - intros st A B mA mB dB rest n Hs Ha HA HgA Hv Hq HgB Hno Hn st1.
    destruct (handover_in_host_order st A B mA mB dB rest n Hs Ha HA HgA Hv Hq HgB Hno Hn)
      as [(_ & Hm & Hact & Hq1 & Hl & _ & Hel) Ht].
    fold st1 in Hm, Hact, Hq1, Hl, Hel, Ht.
    split; [exact Hact|]. split; [unfold is_open; now rewrite Hm, HgB|].
    split; [exact Hq1|]. split; [exact Ht|]. split; [exact Hm|exact Hl].
  - intros st A B C mA mB mC dB dC n2 n3 Hs Ha HA HB Hq HgA HgB HgC HvA HvB Hno
           st1 st2 st3 Hn2 Hn3.
    assert (HtA : truthy (Some A) = true) by now apply truthy_Some.
    assert (E1 : st1 = set_queue [(B, payload dB); (C, payload dC)] st).
    { subst st1. rewrite (open_queued B dB st) by now rewrite Hs, Ha, HtA.
      rewrite open_queued by (simpl; now rewrite Hs, Ha, HtA).
      simpl. now rewrite Hq. }
    assert (M1 : modals st1 = modals st) by now rewrite E1.
    assert (Hs1 : sequential st1 = true) by (rewrite E1; exact Hs).
    assert (Ha1 : activeModal st1 = Some A) by (rewrite E1; exact Ha).
    assert (HgA1 : JsMap.get A (modals st1) = Some mA) by now rewrite M1.
    assert (HgB1 : JsMap.get B (modals st1) = Some mB) by now rewrite M1.
    assert (Hq1 : queue st1 = (B, payload dB) :: [(C, payload dC)])
      by (rewrite E1; reflexivity).
    assert (Hno1 : no_settle_pending st1) by (rewrite E1; exact Hno).
    destruct (handover_in_host_order st1 A B mA mB (payload dB) [(C, payload dC)] n2
                Hs1 Ha1 HA HgA1 (HvA st1) Hq1 HgB1 Hno1 Hn2)
      as [(S2 & Hm2 & A2 & Q2 & L2 & N2 & Hel2) T2].
    fold st2 in S2, Hm2, A2, Q2, L2, N2, Hel2, T2.
    rewrite payload_idem in L2.
    assert (HgB2 : JsMap.get B (modals st2) = Some mB) by now rewrite Hm2.
    assert (HgC2 : JsMap.get C (modals st2) = Some mC) by now rewrite Hm2, M1.
    destruct (handover_in_host_order st2 B C mB mC (payload dC) [] n3
                S2 A2 HB HgB2 (HvB st2) Q2 HgC2 N2 Hn3)
      as [(S3 & Hm3 & A3 & Q3 & L3 & N3 & Hel3) T3].
    fold st3 in S3, Hm3, A3, Q3, L3, N3, Hel3, T3.
    rewrite payload_idem in L3.
    split; [rewrite E1; simpl; now split|]. split.
    + split; [exact A2|]. split; [unfold is_open; now rewrite Hm2, M1, HgB|].
      split; [exact Q2|]. split; [exact T2|exact L2].
    + split; [exact A3|]. split; [unfold is_open; now rewrite Hm3, Hm2, M1, HgC|].
      split; [exact Q3|]. split; [exact T3|exact L3].
Qed.

Lemma queue_is_fifo_witness :
  let st := open "A" VNull (Sample.manager true) in
  let st1 := open "C" VUndefined (open "B" (VNum 5) st) in
  let st2 := ticks 6 (close (Some "A") false st1) in
  let st3 := ticks 3 (close (Some "B") false st2) in
  (queue st1 = [("B", payload (VNum 5)); ("C", payload VUndefined)] /\
   activeModal st1 = Some "A") /\
  (activeModal st2 = Some "B" /\ is_open st2 "B" = true /\
   queue st2 = [("C", payload VUndefined)] /\ timers st2 = [] /\
   log st2 = log (close (Some "A") false st1) ++ close_calls Sample.modalA false
               ++ onOpen_call Sample.modalB (payload (VNum 5))) /\
  (activeModal st3 = Some "C" /\ is_open st3 "C" = true /\
   queue st3 = [] /\ timers st3 = [] /\
   log st3 = log (close (Some "B") false st2) ++ close_calls Sample.modalB false
               ++ onOpen_call Sample.modalC (payload VUndefined)).
Proof.
  intros st.
  destruct queue_is_fifo as (_ & _ & Hfifo).
  apply (Hfifo st "A" "B" "C" Sample.modalA Sample.modalB Sample.modalC
           (VNum 5) VUndefined 6 3);
    match goal with
    | |- _ <= _ => apply Nat.leb_le; vm_compute; reflexivity
    | |- _ <> _ => discriminate
    | |- no_settle_pending _ => vm_compute; reflexivity
    | _ => reflexivity
    end.
Defined.

(** Claim C2 fails as stated: every close's callback takes the front of the
    queue, also the callback of a modal that is not the active one. With
    ["A"] active, a [close("C")] of the Closed ["C"] is issued, then opens
    for ["B"] and ["C"] are queued in that order and ["A"] is closed. The
    host runs ["C"]'s callback first: it takes ["B"] from the queue and
    [open]s it, which queues it again behind ["C"]. ["A"]'s callback then
    opens ["C"]: ["C"] is served before ["B"]. *)
Lemma stale_settle_breaks_fifo :
  let st := close (Some "C") false (tick (open "A" VNull (Sample.manager true))) in
  let st1 := open "C" VNull (open "B" VNull st) in
  let st2 := close (Some "A") false st1 in
  (sequential st1 = true /\ activeModal st1 = Some "A" /\
   queue st1 = [("B", VNull); ("C", VNull)]) /\
  (activeModal (tick st2) = Some "A" /\ queue (tick st2) = [("C", VNull); ("B", VNull)]) /\
  (activeModal (ticks 2 st2) = Some "C" /\ is_open (ticks 2 st2) "C" = true /\
   is_open (ticks 2 st2) "B" = false /\ queue (ticks 2 st2) = [("B", VNull)]).
Proof. by_evaluation. Qed.

(* ================================================================= *)
(** ** Class lists on the shared page *)

Lemma h_contains_add e c h x d :
  h_contains (h_classList_add e c h) x d
  = (Nat.eqb x e && String.eqb d c) || h_contains h x d.
Proof.
  unfold h_contains, h_classList_add, dom_update. simpl.
  destruct (Nat.eqb x e); simpl; [|reflexivity].
  destruct (String.eqb_spec d c) as [->|Hne]; simpl.
  - apply ClassListFacts.contains_add_same.
  - now apply ClassListFacts.contains_add_other.
Qed.

Lemma h_contains_remove e c h x d :
  h_contains (h_classList_remove e c h) x d
  = negb (Nat.eqb x e && String.eqb d c) && h_contains h x d.
Proof.
  unfold h_contains, h_classList_remove, dom_update. simpl.
  destruct (Nat.eqb x e); simpl; [|reflexivity].
  destruct (String.eqb_spec d c) as [->|Hne]; simpl.
  - apply ClassListFacts.contains_remove_same.
  - now apply ClassListFacts.contains_remove_other.
Qed.

Lemma h_contains_display e v h x d :
  h_contains (h_style_display e v h) x d = h_contains h x d.
Proof.
  unfold h_contains, h_style_display, dom_update. simpl.
  now destruct (Nat.eqb x e).
Qed.

Lemma h_contains_call cb args h x d :
  h_contains (h_call cb args h) x d = h_contains h x d.
Proof. reflexivity. Qed.

Lemma h_contains_overflow v h x d :
  h_contains (h_set_overflow v h) x d = h_contains h x d.
Proof. reflexivity. Qed.

Ltac bool_cases :=
  repeat match goal with
         | |- context [Nat.eqb ?a ?b] => destruct (Nat.eqb a b)
         | |- context [h_contains ?h ?x ?c] => destruct (h_contains h x c)
         end;
  simpl; try reflexivity.

(* ================================================================= *)
(** ** The hamburger menu *)

Lemma hamburger_open_contains m h x :
  h_contains (HamburgerMenu.open m h) x (HamburgerMenu.activeClass m)
  = Nat.eqb x (HamburgerMenu.hamburger m) || Nat.eqb x (HamburgerMenu.menu m)
    || match HamburgerMenu.overlay m with
       | Some ov => Nat.eqb x ov
       | None => false
       end
    || h_contains h x (HamburgerMenu.activeClass m).
Proof.
  unfold HamburgerMenu.open. cbv zeta.
  destruct (HamburgerMenu.onOpen m); destruct (HamburgerMenu.bodyScrollLock m);
    destruct (HamburgerMenu.overlay m);
    rewrite ?h_contains_call, ?h_contains_overflow, !h_contains_add,
      String.eqb_refl, !andb_true_r;
    bool_cases.
Qed.

Lemma hamburger_close_contains m h x :
  h_contains (HamburgerMenu.close m h) x (HamburgerMenu.activeClass m)
  = negb (Nat.eqb x (HamburgerMenu.hamburger m) || Nat.eqb x (HamburgerMenu.menu m)
          || match HamburgerMenu.overlay m with
             | Some ov => Nat.eqb x ov
             | None => false
             end)
    && h_contains h x (HamburgerMenu.activeClass m).
Proof.
  unfold HamburgerMenu.close. cbv zeta.
  destruct (HamburgerMenu.onClose m); destruct (HamburgerMenu.bodyScrollLock m);
    destruct (HamburgerMenu.overlay m);
    rewrite ?h_contains_call, ?h_contains_overflow, !h_contains_remove,
      String.eqb_refl, !andb_true_r;
    bool_cases.
Qed.

Lemma hamburger_open_page m h :
  h_overflow (HamburgerMenu.open m h)
  = (if HamburgerMenu.bodyScrollLock m then "hidden" else h_overflow h) /\
  h_calls (HamburgerMenu.open m h)
  = h_calls h ++ match HamburgerMenu.onOpen m with
                 | Some cb => [(cb, [])]
                 | None => []
                 end.
Proof.
  unfold HamburgerMenu.open. cbv zeta.
  destruct (HamburgerMenu.onOpen m); destruct (HamburgerMenu.bodyScrollLock m);
    destruct (HamburgerMenu.overlay m); simpl; rewrite ?app_nil_r; split; reflexivity.
Qed.

Lemma hamburger_close_page m h :
  h_overflow (HamburgerMenu.close m h)
  = (if HamburgerMenu.bodyScrollLock m then "" else h_overflow h) /\
  h_calls (HamburgerMenu.close m h)
  = h_calls h ++ match HamburgerMenu.onClose m with
                 | Some cb => [(cb, [])]
                 | None => []
                 end.
Proof.
  unfold HamburgerMenu.close. cbv zeta.
  destruct (HamburgerMenu.onClose m); destruct (HamburgerMenu.bodyScrollLock m);
    destruct (HamburgerMenu.overlay m); simpl; rewrite ?app_nil_r; split; reflexivity.
Qed.

(** Property X9. [toggle()] flips the menu: afterwards the menu, the hamburger and the
    overlay all carry the active class exactly when the menu did not before,
    whatever classes they had and even when they are one and the same
    element; the scroll lock follows when it is enabled; exactly one of
    [onOpen] and [onClose] is called; and a second [toggle()] undoes the
    first. *)
Theorem hamburger_toggle_flips (m : HamburgerMenu.t) (h : Host) :
  let was := HamburgerMenu.isOpen m h in
  let h1 := HamburgerMenu.toggle m h in
  let c := HamburgerMenu.activeClass m in
  HamburgerMenu.isOpen m h1 = negb was /\
  h_contains h1 (HamburgerMenu.hamburger m) c = negb was /\
  (forall ov, HamburgerMenu.overlay m = Some ov -> h_contains h1 ov c = negb was) /\
  h_overflow h1
  = (if HamburgerMenu.bodyScrollLock m
     then (if was then "" else "hidden") else h_overflow h) /\
  h_calls h1
  = h_calls h ++ match (if was then HamburgerMenu.onClose m else HamburgerMenu.onOpen m) with
                 | Some cb => [(cb, [])]
                 | None => []
                 end /\
  HamburgerMenu.isOpen m (HamburgerMenu.toggle m h1) = was.
Proof.
  intros was h1 c.
  assert (Hopen : forall h0 x,
             x = HamburgerMenu.hamburger m \/ x = HamburgerMenu.menu m \/
             HamburgerMenu.overlay m = Some x ->
             h_contains (HamburgerMenu.open m h0) x c = true).
  { intros h0 x Hx. subst c. rewrite hamburger_open_contains.
    destruct Hx as [->|[->|Ho]]; rewrite ?Ho, ?Nat.eqb_refl, ?orb_true_r;
      reflexivity. }
  assert (Hclose : forall h0 x,
             x = HamburgerMenu.hamburger m \/ x = HamburgerMenu.menu m \/
             HamburgerMenu.overlay m = Some x ->
             h_contains (HamburgerMenu.close m h0) x c = false).
  { intros h0 x Hx. subst c. rewrite hamburger_close_contains.
    destruct Hx as [->|[->|Ho]]; rewrite ?Ho, ?Nat.eqb_refl, ?orb_true_r;
      reflexivity. }
  assert (Hflip : forall x,
             x = HamburgerMenu.hamburger m \/ x = HamburgerMenu.menu m \/
             HamburgerMenu.overlay m = Some x ->
             h_contains h1 x c = negb was).
  { intros x Hx. subst h1. unfold HamburgerMenu.toggle. fold was.
    destruct was; simpl; [now apply Hclose|now apply Hopen]. }
  assert (H1 : HamburgerMenu.isOpen m h1 = negb was).
  { unfold HamburgerMenu.isOpen. apply Hflip. right. now left. }
  split; [exact H1|]. split; [apply Hflip; now left|].
  split; [intros ov Ho; apply Hflip; now right; right|].
  split; [|split].
  - subst h1. unfold HamburgerMenu.toggle. fold was.
    destruct was; [apply hamburger_close_page|apply hamburger_open_page].
  - subst h1. unfold HamburgerMenu.toggle. fold was.
    destruct was; [apply hamburger_close_page|apply hamburger_open_page].
  - unfold HamburgerMenu.toggle at 1. rewrite H1.
    unfold HamburgerMenu.isOpen. fold c.
    destruct was; simpl; [apply Hopen|apply Hclose]; right; now left.
Qed.

Lemma hamburger_toggle_flips_witness :
  let m := HamburgerMenu.mk 1 2 (Some 2) true true true true "active" (Some 7) (Some 8) in
  let h := mkHost (fun _ => mkElem ["menu"] "") "" [] in
  let h1 := HamburgerMenu.toggle m h in
  HamburgerMenu.isOpen m h1 = true /\
  h_contains h1 1 "active" = true /\
  h_overflow h1 = "hidden" /\
  h_calls h1 = [(7, [])] /\
  HamburgerMenu.isOpen m (HamburgerMenu.toggle m h1) = false.
Proof.
  intros m h h1.
  destruct (hamburger_toggle_flips m h) as (A & B & _ & D & E & F).
  repeat split; assumption.
Defined.

(** Property X10. The menu and the modal manager share [document.body.style.overflow], and
    [close()] of the menu clears it whenever its own [bodyScrollLock] is on:
    closing the menu while a modal is Open releases the scroll lock under the
    modal, which is left Open. *)
Theorem hamburger_close_releases_modal_lock (st : State) (m : HamburgerMenu.t)
    (calls : list (Callback * list JsVal)) (id : string) (modal : Modal) :
  HamburgerMenu.bodyScrollLock m = true ->
  JsMap.get id (modals st) = Some modal ->
  is_active (dom st) (element modal) = true ->
  element modal <> HamburgerMenu.hamburger m ->
  element modal <> HamburgerMenu.menu m ->
  HamburgerMenu.overlay m <> Some (element modal) ->
  let st1 := with_host (HamburgerMenu.close m (host_of st calls)) st in
  is_open st1 id = true /\
  hasOtherActiveModals st1 = true /\
  released st1 /\
  ~ lock_held st1.
Proof.
  intros Hb Hget Hact H1 H2 H3 st1.
  assert (Ha : is_active (dom st1) (element modal) = true).
  { subst st1. unfold with_host. simpl.
    change (is_active (h_dom (HamburgerMenu.close m (host_of st calls))) (element modal))
      with (h_contains (HamburgerMenu.close m (host_of st calls)) (element modal) "active").
    unfold HamburgerMenu.close. cbv zeta.
    destruct (HamburgerMenu.onClose m); rewrite Hb;
      destruct (HamburgerMenu.overlay m) as [ov|];
      rewrite ?h_contains_call, ?h_contains_overflow, !h_contains_remove;
      destruct (Nat.eqb_spec (element modal) (HamburgerMenu.hamburger m));
      try contradiction;
      destruct (Nat.eqb_spec (element modal) (HamburgerMenu.menu m));
      try contradiction;
      try (destruct (Nat.eqb_spec (element modal) ov); [subst ov; now elim H3|]);
      simpl; exact Hact. }
  assert (Hr : released st1).
  { subst st1. unfold released, with_host. simpl.
    destruct (hamburger_close_page m (host_of st calls)) as [Ho _].
    now rewrite Ho, Hb. }
  assert (Hh : hasOtherActiveModals st1 = true).
  { apply hasOtherActiveModals_true. exists id, modal. split; [|exact Ha].
    apply get_In. exact Hget. }
  split; [|split; [exact Hh|split; [exact Hr|]]].
  - unfold is_open. change (modals st1) with (modals st). now rewrite Hget.
  - intros Hl. apply (released_not_locked st1 (Hl Hh) Hr).
Qed.

Lemma hamburger_close_releases_modal_lock_witness :
  let st := open "A" VNull (Sample.manager false) in
  let m := HamburgerMenu.mk 1 2 (Some 3) true true true true "active" None None in
  let st1 := with_host (HamburgerMenu.close m (host_of st [])) st in
  locked st /\
  is_open st1 "A" = true /\
  hasOtherActiveModals st1 = true /\
  released st1 /\
  ~ lock_held st1.
Proof.
  intros st m. split; [vm_compute; reflexivity|].
  apply (hamburger_close_releases_modal_lock st m [] "A" Sample.modalA);
    try discriminate; vm_compute; reflexivity.
Defined.

(* ================================================================= *)
(** ** Tabs *)

Lemma existsb_eqb_In x l : existsb (Nat.eqb x) l = true <-> In x l.
Proof.
  rewrite existsb_exists. split.
  - intros (y & Hin & E). apply Nat.eqb_eq in E. now subst.
  - intros H. exists x. split; [exact H|apply Nat.eqb_refl].
Qed.

Lemma existsb_eqb_notIn x l : ~ In x l -> existsb (Nat.eqb x) l = false.
Proof.
  intros H. destruct (existsb (Nat.eqb x) l) eqn:E; [|reflexivity].
  apply existsb_eqb_In in E. contradiction.
Qed.

Lemma tabs_deactivate_triggers c l h :
  let h1 := fold_left (fun s e => h_classList_remove e c s) l h in
  (forall x d, h_contains h1 x d
               = negb (existsb (Nat.eqb x) l && String.eqb d c) && h_contains h x d) /\
  (forall x, display (h_dom h1 x) = display (h_dom h x)) /\
  (forall x, ~ In x l -> h_dom h1 x = h_dom h x) /\
  h_overflow h1 = h_overflow h /\ h_calls h1 = h_calls h.
Proof.
  revert h. induction l as [|e l IH]; intros h; simpl.
  - repeat split.
  - destruct (IH (h_classList_remove e c h)) as (A & B & C & D & E).
    split; [|split; [|split; [|split]]].
    + intros x d. rewrite A, h_contains_remove.
      destruct (Nat.eqb x e); destruct (existsb (Nat.eqb x) l);
        destruct (String.eqb d c); reflexivity.
    + intros x. rewrite B. simpl. unfold dom_update. now destruct (Nat.eqb x e).
    + intros x Hx. rewrite C by tauto. simpl. unfold dom_update.
      destruct (Nat.eqb_spec x e); [subst; tauto|reflexivity].
    + now rewrite D.
    + now rewrite E.
Qed.

Lemma tabs_deactivate_panels c l h :
  let h1 :=
    fold_left (fun s p => h_style_display p "none" (h_classList_remove p c s)) l h in
  (forall x d, h_contains h1 x d
               = negb (existsb (Nat.eqb x) l && String.eqb d c) && h_contains h x d) /\
  (forall x, display (h_dom h1 x)
             = if existsb (Nat.eqb x) l then "none" else display (h_dom h x)) /\
  (forall x, ~ In x l -> h_dom h1 x = h_dom h x) /\
  h_overflow h1 = h_overflow h /\ h_calls h1 = h_calls h.
Proof.
  revert h. induction l as [|e l IH]; intros h; simpl.
  - repeat split.
  - destruct (IH (h_style_display e "none" (h_classList_remove e c h)))
      as (A & B & C & D & E).
    split; [|split; [|split; [|split]]].
    + intros x d. rewrite A, h_contains_display, h_contains_remove.
      destruct (Nat.eqb x e); destruct (existsb (Nat.eqb x) l);
        destruct (String.eqb d c); reflexivity.
    + intros x. rewrite B. simpl. unfold dom_update.
      destruct (Nat.eqb x e); destruct (existsb (Nat.eqb x) l); reflexivity.
    + intros x Hx. rewrite C by tauto. simpl. unfold dom_update.
      destruct (Nat.eqb_spec x e); [subst; tauto|reflexivity].
    + now rewrite D.
    + now rewrite E.
Qed.

Lemma NoDup_nth_error_eq {A} (l : list A) i j a :
  NoDup l -> nth_error l i = Some a -> nth_error l j = Some a -> i = j.
Proof.
  intros Hnd Hi Hj. rewrite NoDup_nth_error in Hnd. apply Hnd.
  - apply nth_error_Some. congruence.
  - congruence.
Qed.

(** Property X11. [activate(index)] over tabs whose triggers and panels are distinct
    elements: afterwards trigger [j] and panel [j] carry the active class
    exactly when [j] is the index, panel [j] is displayed as a block then and
    hidden otherwise, no other element changes, and [onChange(index)] is
    called. An index past the end therefore deactivates and hides everything,
    and still calls [onChange]. *)
Theorem tabs_activate_exactly_one (tb : Tabs.t) (index : nat) (h : Host) :
  NoDup (Tabs.triggers tb ++ Tabs.panels tb) ->
  let h1 := Tabs.activate tb index h in
  let c := Tabs.activeClass tb in
  (forall j e, nth_error (Tabs.triggers tb) j = Some e ->
               h_contains h1 e c = Nat.eqb j index) /\
  (forall j p, nth_error (Tabs.panels tb) j = Some p ->
               h_contains h1 p c = Nat.eqb j index /\
               display (h_dom h1 p) = if Nat.eqb j index then "block" else "none") /\
  (forall x, ~ In x (Tabs.triggers tb ++ Tabs.panels tb) -> h_dom h1 x = h_dom h x) /\
  h_overflow h1 = h_overflow h /\
  h_calls h1
  = h_calls h ++ match Tabs.onChange tb with
                 | Some cb => [(cb, [VNum (Z.of_nat index)])]
                 | None => []
                 end.
Proof.
  intros Hnd h1 c.
  pose proof (NoDup_app_remove_r _ _ Hnd) as HndT.
  pose proof (NoDup_app_remove_l _ _ Hnd) as HndP.
  assert (Hdisj : forall x, In x (Tabs.triggers tb) -> In x (Tabs.panels tb) -> False).
  { intros x Ht Hp. revert Hnd Ht Hp. generalize (Tabs.triggers tb) as l.
    induction l as [|y l IH]; simpl; intros Hnd Ht Hp; [contradiction|].
    inversion Hnd as [|? ? Hni Hnd']; subst. destruct Ht as [->|Ht].
    - apply Hni. apply in_or_app. now right.
    - now apply IH. }
  set (ha := fold_left (fun s e => h_classList_remove e c s) (Tabs.triggers tb) h).
  destruct (tabs_deactivate_triggers c (Tabs.triggers tb) h) as (A1 & B1 & C1 & D1 & E1).
  fold ha in A1, B1, C1, D1, E1.
  set (hb := fold_left (fun s p => h_style_display p "none" (h_classList_remove p c s))
               (Tabs.panels tb) ha).
  destruct (tabs_deactivate_panels c (Tabs.panels tb) ha) as (A2 & B2 & C2 & D2 & E2).
  fold hb in A2, B2, C2, D2, E2.
  set (hc := match nth_error (Tabs.triggers tb) index with
             | Some e => h_classList_add e c hb
             | None => hb
             end).
  set (hd := match nth_error (Tabs.panels tb) index with
             | Some p => h_style_display p "block" (h_classList_add p c hc)
             | None => hc
             end).
  assert (E : h1 = match Tabs.onChange tb with
                   | Some cb => h_call cb [VNum (Z.of_nat index)] hd
                   | None => hd
                   end) by reflexivity.
  assert (Hcont : forall x, h_contains h1 x c = h_contains hd x c).
  { intros x. rewrite E. now destruct (Tabs.onChange tb). }
  assert (Hdom : h_dom h1 = h_dom hd).
  { rewrite E. now destruct (Tabs.onChange tb). }
  assert (Hb : forall x, In x (Tabs.triggers tb) \/ In x (Tabs.panels tb) ->
                         h_contains hb x c = false).
  { intros x Hx. rewrite A2, A1, String.eqb_refl, !andb_true_r.
    destruct Hx as [Hx|Hx]; apply existsb_eqb_In in Hx; rewrite Hx;
      simpl; now rewrite ?andb_false_r. }
  assert (Hc : forall x, In x (Tabs.triggers tb) \/ In x (Tabs.panels tb) ->
                         h_contains hc x c
                         = match nth_error (Tabs.triggers tb) index with
                           | Some e => Nat.eqb x e
                           | None => false
                           end).
  { intros x Hx. subst hc. destruct (nth_error (Tabs.triggers tb) index) as [e|].
    - rewrite h_contains_add, String.eqb_refl, andb_true_r, (Hb x Hx).
      apply orb_false_r.
    - now apply Hb. }
  assert (Hd : forall x, In x (Tabs.triggers tb) \/ In x (Tabs.panels tb) ->
                         h_contains hd x c
                         = match nth_error (Tabs.panels tb) index with
                           | Some p => Nat.eqb x p
                           | None => false
                           end
                           || match nth_error (Tabs.triggers tb) index with
                              | Some e => Nat.eqb x e
                              | None => false
                              end).
  { intros x Hx. subst hd. destruct (nth_error (Tabs.panels tb) index) as [p|].
    - rewrite h_contains_display, h_contains_add, String.eqb_refl, andb_true_r.
      now rewrite (Hc x Hx).
    - now rewrite (Hc x Hx). }
  split; [|split; [|split; [|split]]].
  - intros j e Hj. pose proof (nth_error_In _ _ Hj) as Hin.
    rewrite Hcont, Hd by now left.
    destruct (nth_error (Tabs.panels tb) index) as [p|] eqn:Hp.
    + destruct (Nat.eqb_spec e p) as [->|_].
      * exfalso. apply (Hdisj p Hin). now apply nth_error_In in Hp.
      * simpl. destruct (nth_error (Tabs.triggers tb) index) as [e'|] eqn:He.
        -- destruct (Nat.eqb_spec e e') as [->|Hne].
           ++ symmetry. apply Nat.eqb_eq. now apply (NoDup_nth_error_eq _ _ _ e' HndT).
           ++ symmetry. apply Nat.eqb_neq. intros ->. congruence.
        -- symmetry. apply Nat.eqb_neq. intros ->. congruence.
    + simpl. destruct (nth_error (Tabs.triggers tb) index) as [e'|] eqn:He.
      * destruct (Nat.eqb_spec e e') as [->|Hne].
        -- symmetry. apply Nat.eqb_eq. now apply (NoDup_nth_error_eq _ _ _ e' HndT).
        -- symmetry. apply Nat.eqb_neq. intros ->. congruence.
      * symmetry. apply Nat.eqb_neq. intros ->. congruence.
  - intros j p Hj. pose proof (nth_error_In _ _ Hj) as Hin.
    assert (Hnt : match nth_error (Tabs.triggers tb) index with
                  | Some e => Nat.eqb p e
                  | None => false
                  end = false).
    { destruct (nth_error (Tabs.triggers tb) index) as [e|] eqn:He; [|reflexivity].
      apply Nat.eqb_neq. intros ->. apply (Hdisj e); [|exact Hin].
      now apply nth_error_In in He. }
    assert (Hpi : match nth_error (Tabs.panels tb) index with
                  | Some p' => Nat.eqb p p'
                  | None => false
                  end = Nat.eqb j index).
    { destruct (nth_error (Tabs.panels tb) index) as [p'|] eqn:Hp.
      - destruct (Nat.eqb_spec p p') as [->|Hne].
        + symmetry. apply Nat.eqb_eq. now apply (NoDup_nth_error_eq _ _ _ p' HndP).
        + symmetry. apply Nat.eqb_neq. intros ->. congruence.
      - symmetry. apply Nat.eqb_neq. intros ->. congruence. }
    split.
    + rewrite Hcont, Hd by now right. now rewrite Hnt, orb_false_r.
    + rewrite Hdom. subst hd. rewrite <- Hpi.
      assert (Hbase : display (h_dom hc p) = "none").
      { subst hc. destruct (nth_error (Tabs.triggers tb) index) as [e|].
        - simpl. unfold dom_update. destruct (Nat.eqb p e); simpl;
            rewrite B2; apply existsb_eqb_In in Hin; now rewrite Hin.
        - rewrite B2. apply existsb_eqb_In in Hin. now rewrite Hin. }
      destruct (nth_error (Tabs.panels tb) index) as [p'|]; [|exact Hbase].
      simpl. unfold dom_update. destruct (Nat.eqb p p'); [reflexivity|exact Hbase].
  - intros x Hx. rewrite Hdom.
    assert (Hxt : ~ In x (Tabs.triggers tb)) by (intros H; apply Hx, in_or_app; now left).
    assert (Hxp : ~ In x (Tabs.panels tb)) by (intros H; apply Hx, in_or_app; now right).
    assert (Hxb : h_dom hb x = h_dom h x) by (rewrite C2, C1; auto).
    assert (Hxc : h_dom hc x = h_dom h x).
    { subst hc. destruct (nth_error (Tabs.triggers tb) index) as [e|] eqn:He;
        [|exact Hxb].
      simpl. unfold dom_update. destruct (Nat.eqb_spec x e) as [->|_]; [|exact Hxb].
      exfalso. apply Hxt. now apply nth_error_In in He. }
    subst hd. destruct (nth_error (Tabs.panels tb) index) as [p|] eqn:Hp; [|exact Hxc].
    simpl. unfold dom_update. destruct (Nat.eqb_spec x p) as [->|_]; [|exact Hxc].
    exfalso. apply Hxp. now apply nth_error_In in Hp.
  - rewrite E.
    assert (Ho : h_overflow hd = h_overflow h).
    { subst hd hc. destruct (nth_error (Tabs.panels tb) index);
        destruct (nth_error (Tabs.triggers tb) index); simpl; congruence. }
    destruct (Tabs.onChange tb); exact Ho.
  - rewrite E.
    assert (Hcl : h_calls hd = h_calls h).
    { subst hd hc. destruct (nth_error (Tabs.panels tb) index);
        destruct (nth_error (Tabs.triggers tb) index); simpl; congruence. }
    destruct (Tabs.onChange tb); simpl; rewrite Hcl; now rewrite ?app_nil_r.
Qed.

Lemma tabs_activate_exactly_one_witness :
  let tb := Tabs.mk [1; 2; 3] [11; 12] "active" (Some 9) in
  let h := mkHost (fun e => mkElem (if Nat.eqb e 1 then ["active"] else []) "") "" [] in
  let h1 := Tabs.activate tb 1 h in
  let h2 := Tabs.activate tb 2 h in
  (h_contains h1 1 "active" = false /\ h_contains h1 2 "active" = true /\
   display (h_dom h1 11) = "none" /\ display (h_dom h1 12) = "block" /\
   h_calls h1 = [(9, [VNum 1])]) /\
  (h_contains h2 3 "active" = true /\
   display (h_dom h2 11) = "none" /\ display (h_dom h2 12) = "none" /\
   h_calls h2 = [(9, [VNum 2])]).
Proof.
  intros tb h h1 h2.
  assert (Hnd : NoDup (Tabs.triggers tb ++ Tabs.panels tb)).
  { vm_compute. repeat constructor; simpl; intuition discriminate. }
  destruct (tabs_activate_exactly_one tb 1 h Hnd) as (T1 & P1 & _ & _ & C1).
  destruct (tabs_activate_exactly_one tb 2 h Hnd) as (T2 & P2 & _ & _ & C2).
  split; [split; [|split; [|split; [|split]]]|split; [|split; [|split]]].
  - exact (T1 0 1 eq_refl).
  - exact (T1 1 2 eq_refl).
  - exact (proj2 (P1 0 11 eq_refl)).
  - exact (proj2 (P1 1 12 eq_refl)).
  - exact C1.
  - exact (T2 2 3 eq_refl).
  - exact (proj2 (P2 0 11 eq_refl)).
  - exact (proj2 (P2 1 12 eq_refl)).
  - exact C2.
Defined.

(* ================================================================= *)
(** ** The accordion *)

Lemma accordion_update_classes a e f w x :
  (forall n, Accordion.classes (f n) = Accordion.classes n) ->
  Accordion.isActive a (Accordion.update e f w) x = Accordion.isActive a w x.
Proof.
  intros Hf. unfold Accordion.isActive, Accordion.update. simpl.
  destruct (Nat.eqb x e); [now rewrite Hf|reflexivity].
Qed.

Lemma accordion_close_active a it ct w x :
  Accordion.isActive a (Accordion.close a it ct w) x
  = negb (Nat.eqb x it) && Accordion.isActive a w x.
Proof.
  unfold Accordion.close.
  rewrite !accordion_update_classes by reflexivity.
  unfold Accordion.isActive, Accordion.update. simpl.
  destruct (Nat.eqb x it); simpl; [|reflexivity].
  apply ClassListFacts.contains_remove_same.
Qed.

Lemma accordion_open_active a it ct w x :
  Accordion.isActive a (Accordion.open a it ct w) x
  = Nat.eqb x it || Accordion.isActive a w x.
Proof.
  unfold Accordion.open.
  change (Accordion.isActive a
            (Accordion.update ct
               (fun n => Accordion.mkNode (Accordion.classes n)
                           (Accordion.px (Accordion.scrollHeight n))
                           (Accordion.overflow n) (Accordion.scrollHeight n))
               (Accordion.update it
                  (fun n => Accordion.mkNode
                              (ClassList.add (Accordion.activeClass a) (Accordion.classes n))
                              (Accordion.maxHeight n) (Accordion.overflow n)
                              (Accordion.scrollHeight n)) w)) x
          = Nat.eqb x it || Accordion.isActive a w x).
  rewrite accordion_update_classes by reflexivity.
  unfold Accordion.isActive, Accordion.update. simpl.
  destruct (Nat.eqb x it); simpl; [|reflexivity].
  apply ClassListFacts.contains_add_same.
Qed.

Lemma accordion_closeAll_fold a l w x :
  Accordion.isActive a
    (fold_left
       (fun s (i : Accordion.Item) =>
          match Accordion.content i with
          | Some ct => Accordion.close a (Accordion.item i) ct s
          | None => s
          end) l w) x
  = negb (existsb
            (fun i =>
               match Accordion.content i with
               | Some _ => Nat.eqb x (Accordion.item i)
               | None => false
               end) l)
    && Accordion.isActive a w x.
Proof.
  revert w. induction l as [|i l IH]; intros w; [reflexivity|].
  simpl. rewrite IH. destruct (Accordion.content i) as [ct|]; [|reflexivity].
  rewrite accordion_close_active.
  destruct (Nat.eqb x (Accordion.item i)); simpl; [now rewrite andb_false_r|reflexivity].
Qed.

Lemma accordion_closeAll_active a w x :
  Accordion.isActive a (Accordion.closeAll a w) x
  = negb (collapsible a x) && Accordion.isActive a w x.
Proof. apply accordion_closeAll_fold. Qed.

Lemma accordion_close_timers a it ct w :
  Accordion.timers (Accordion.close a it ct w) = Accordion.timers w
  /\ Accordion.clock (Accordion.close a it ct w) = Accordion.clock w.
Proof. split; reflexivity. Qed.

Lemma accordion_closeAll_timers a w :
  Accordion.timers (Accordion.closeAll a w) = Accordion.timers w
  /\ Accordion.clock (Accordion.closeAll a w) = Accordion.clock w.
Proof.
  unfold Accordion.closeAll. generalize (Accordion.items a) as l.
  intros l. revert w. induction l as [|i l IH]; intros w; [split; reflexivity|].
  simpl. destruct (Accordion.content i) as [ct|]; [|apply IH].
  destruct (IH (Accordion.close a (Accordion.item i) ct w)) as [-> ->].
  split; reflexivity.
Qed.

Lemma accordion_close_store a it ct w x :
  x <> it -> x <> ct ->
  Accordion.store (Accordion.close a it ct w) x = Accordion.store w x.
Proof.
  intros Hi Hc. unfold Accordion.close, Accordion.update. simpl.
  apply Nat.eqb_neq in Hi, Hc. now rewrite Hi, Hc.
Qed.

Lemma accordion_close_scrollHeight a it ct w x :
  Accordion.scrollHeight (Accordion.store (Accordion.close a it ct w) x)
  = Accordion.scrollHeight (Accordion.store w x).
Proof.
  unfold Accordion.close, Accordion.update. simpl.
  destruct (Nat.eqb x ct), (Nat.eqb x it); reflexivity.
Qed.

Lemma accordion_closeAll_scrollHeight a w x :
  Accordion.scrollHeight (Accordion.store (Accordion.closeAll a w) x)
  = Accordion.scrollHeight (Accordion.store w x).
Proof.
  unfold Accordion.closeAll. generalize (Accordion.items a) as l.
  intros l. revert w. induction l as [|i l IH]; intros w; [reflexivity|].
  simpl. destruct (Accordion.content i) as [ct|]; [|apply IH].
  rewrite IH. apply accordion_close_scrollHeight.
Qed.

Lemma accordion_close_content a it ct w :
  Accordion.maxHeight (Accordion.store (Accordion.close a it ct w) ct) = "0px"
  /\ Accordion.overflow (Accordion.store (Accordion.close a it ct w) ct) = "hidden".
Proof.
  unfold Accordion.close, Accordion.update. simpl.
  rewrite Nat.eqb_refl. split; reflexivity.
Qed.

Lemma accordion_open_content a it ct w :
  Accordion.maxHeight (Accordion.store (Accordion.open a it ct w) ct)
  = Accordion.px (Accordion.scrollHeight (Accordion.store w ct))
  /\ Accordion.timers (Accordion.open a it ct w)
     = Accordion.timers w ++ [(Accordion.clock w + Accordion.duration a, ct)].
Proof.
  unfold Accordion.open, Accordion.update. simpl.
  rewrite Nat.eqb_refl. split; [|reflexivity].
  destruct (Nat.eqb ct it); reflexivity.
Qed.

(** Property X12. With [allowMultiple] off, [toggle] leaves at most the toggled item
    open: the toggled item's state flips, every other item that has a
    content is closed, and an element that is no item with a content keeps
    its class. The content's [maxHeight] is its [scrollHeight] in pixels when
    the item opens and [0px] when it closes, and only opening schedules the
    overflow timer. *)
Theorem accordion_toggle_is_exclusive (a : Accordion.t) (it ct : Elem)
    (w : Accordion.World) :
  Accordion.allowMultiple a = false ->
  let w1 := Accordion.toggle a it ct w in
  Accordion.isActive a w1 it = negb (Accordion.isActive a w it) /\
  (forall x, x <> it -> collapsible a x = true -> Accordion.isActive a w1 x = false) /\
  (forall x, x <> it -> collapsible a x = false ->
             Accordion.isActive a w1 x = Accordion.isActive a w x) /\
  Accordion.maxHeight (Accordion.store w1 ct)
  = (if Accordion.isActive a w it then "0px"
     else Accordion.px (Accordion.scrollHeight (Accordion.store w ct))) /\
  Accordion.timers w1
  = Accordion.timers w
    ++ (if Accordion.isActive a w it then []
        else [(Accordion.clock w + Accordion.duration a, ct)]).
Proof.
  intros Hm w1. subst w1. unfold Accordion.toggle. rewrite Hm. simpl negb. cbv iota.
  destruct (accordion_closeAll_timers a w) as [Ht Hc].
  destruct (Accordion.isActive a w it) eqn:Hwas.
  - split; [|split; [|split; [|split]]].
    + rewrite accordion_close_active, Nat.eqb_refl. reflexivity.
    + intros x Hx Hcol. rewrite accordion_close_active, accordion_closeAll_active, Hcol.
      now rewrite andb_false_r.
    + intros x Hx Hcol. rewrite accordion_close_active, accordion_closeAll_active, Hcol.
      apply Nat.eqb_neq in Hx. now rewrite Hx.
    + apply accordion_close_content.
    + rewrite app_nil_r. exact Ht.
  - split; [|split; [|split; [|split]]].
    + rewrite accordion_open_active, Nat.eqb_refl. reflexivity.
    + intros x Hx Hcol. rewrite accordion_open_active, accordion_closeAll_active, Hcol.
      apply Nat.eqb_neq in Hx. now rewrite Hx.
    + intros x Hx Hcol. rewrite accordion_open_active, accordion_closeAll_active, Hcol.
      apply Nat.eqb_neq in Hx. now rewrite Hx.
    + rewrite (proj1 (accordion_open_content a it ct _)).
      now rewrite accordion_closeAll_scrollHeight.
    + rewrite (proj2 (accordion_open_content a it ct _)), Ht, Hc. reflexivity.
Qed.

Lemma accordion_toggle_is_exclusive_witness :
  let a :=
    Accordion.mk [Accordion.mkItem 1 (Some 2) (Some 3); Accordion.mkItem 4 (Some 5) (Some 6);
                  Accordion.mkItem 7 (Some 8) None] false "active" 300 in
  let w :=
    Accordion.mkWorld
      (fun e => Accordion.mkNode (if Nat.eqb e 1 || Nat.eqb e 7 then ["active"] else [])
                  "" "" 120) 0 [] in
  let w1 := Accordion.toggle a 4 6 w in
  Accordion.isActive a w1 4 = true /\ Accordion.isActive a w1 1 = false /\
  Accordion.isActive a w1 7 = true /\
  Accordion.maxHeight (Accordion.store w1 6) = "120px" /\
  Accordion.timers w1 = [(300, 6)].
Proof.
  intros a w w1.
  destruct (accordion_toggle_is_exclusive a 4 6 w eq_refl) as (H1 & H2 & H3 & H4 & H5).
  split; [exact H1|]. split; [apply H2; [discriminate|reflexivity]|].
  split; [rewrite H3; [reflexivity|discriminate|reflexivity]|].
  split; [exact H4|exact H5].
Defined.

(** Property X13. With [allowMultiple] on, [toggle] touches the toggled item and
    its content only: the item's state flips, every other element keeps
    classes and styles, and toggling twice gives the item its state back. *)
Theorem accordion_toggle_multiple_is_local (a : Accordion.t) (it ct : Elem)
    (w : Accordion.World) :
  Accordion.allowMultiple a = true ->
  let w1 := Accordion.toggle a it ct w in
  Accordion.isActive a w1 it = negb (Accordion.isActive a w it) /\
  (forall x, x <> it -> x <> ct -> Accordion.store w1 x = Accordion.store w x) /\
  Accordion.isActive a (Accordion.toggle a it ct w1) it = Accordion.isActive a w it.
Proof.
  intros Hm w1.
  assert (Hflip : forall v, Accordion.isActive a (Accordion.toggle a it ct v) it
                            = negb (Accordion.isActive a v it)).
  { intros v. unfold Accordion.toggle. rewrite Hm. simpl negb. cbv iota.
    destruct (Accordion.isActive a v it) eqn:Hwas.
    - rewrite accordion_close_active, Nat.eqb_refl. reflexivity.
    - rewrite accordion_open_active, Nat.eqb_refl. reflexivity. }
  split; [apply Hflip|]. split.
  - intros x Hi Hc. subst w1. unfold Accordion.toggle. rewrite Hm. simpl negb. cbv iota.
    destruct (Accordion.isActive a w it).
    + now apply accordion_close_store.
    + unfold Accordion.open, Accordion.update. simpl.
      apply Nat.eqb_neq in Hi, Hc. now rewrite Hi, Hc.
  - rewrite Hflip. subst w1. rewrite Hflip. apply negb_involutive.
Qed.

Lemma accordion_toggle_multiple_is_local_witness :
  let a :=
    Accordion.mk [Accordion.mkItem 1 (Some 2) (Some 3); Accordion.mkItem 4 (Some 5) (Some 6)]
      true "active" 300 in
  let w :=
    Accordion.mkWorld
      (fun e => Accordion.mkNode (if Nat.eqb e 1 then ["active"] else []) "" "" 120) 0 [] in
  let w1 := Accordion.toggle a 4 6 w in
  Accordion.isActive a w1 4 = true /\ Accordion.isActive a w1 1 = true.
Proof.
  intros a w w1.
  destruct (accordion_toggle_multiple_is_local a 4 6 w eq_refl) as (H1 & H2 & _).
  split; [exact H1|].
  unfold Accordion.isActive. rewrite H2; [reflexivity|discriminate|discriminate].
Defined.

(** Property X14. The overflow timer of [open] is never cancelled. When an item is
    opened and toggled again before the timer is due, the timer still fires
    afterwards: the item ends closed, its content with [maxHeight] [0px] but
    [overflow] [visible]. *)
Theorem accordion_closed_content_left_visible (a : Accordion.t) (it ct : Elem)
    (w : Accordion.World) :
  Accordion.isActive a w it = false ->
  Accordion.timers w = [] ->
  let w2 := Accordion.toggle a it ct (Accordion.toggle a it ct w) in
  let w3 := Accordion.tick w2 in
  Accordion.timers w2 = [(Accordion.clock w + Accordion.duration a, ct)] /\
  Accordion.overflow (Accordion.store w2 ct) = "hidden" /\
  Accordion.timers w3 = [] /\
  Accordion.isActive a w3 it = false /\
  Accordion.maxHeight (Accordion.store w3 ct) = "0px" /\
  Accordion.overflow (Accordion.store w3 ct) = "visible".
Proof.
  intros Hwas Ht w2 w3.
  set (w1 := Accordion.toggle a it ct w).
  assert (H1 : Accordion.isActive a w1 it = true
               /\ Accordion.timers w1 = [(Accordion.clock w + Accordion.duration a, ct)]).
  { subst w1. unfold Accordion.toggle. rewrite Hwas.
    rewrite accordion_open_active, Nat.eqb_refl.
    split; [reflexivity|].
    rewrite (proj2 (accordion_open_content a it ct _)).
    destruct (Accordion.allowMultiple a); simpl negb; cbv iota.
    - now rewrite Ht.
    - destruct (accordion_closeAll_timers a w) as [-> ->]. now rewrite Ht. }
  destruct H1 as [Hact1 Ht1].
  assert (H2 : w2 = Accordion.close a it ct
                      (if negb (Accordion.allowMultiple a)
                       then Accordion.closeAll a w1 else w1)).
  { subst w2. fold w1. unfold Accordion.toggle at 1. now rewrite Hact1. }
  assert (Ht2 : Accordion.timers w2 = [(Accordion.clock w + Accordion.duration a, ct)]).
  { rewrite H2. rewrite (proj1 (accordion_close_timers a it ct _)).
    destruct (Accordion.allowMultiple a); simpl negb; cbv iota; [exact Ht1|].
    now rewrite (proj1 (accordion_closeAll_timers a w1)). }
  assert (Hact2 : Accordion.isActive a w2 it = false).
  { rewrite H2, accordion_close_active, Nat.eqb_refl. reflexivity. }
  assert (Hc2 : Accordion.maxHeight (Accordion.store w2 ct) = "0px"
                /\ Accordion.overflow (Accordion.store w2 ct) = "hidden").
  { rewrite H2. apply accordion_close_content. }
  split; [exact Ht2|]. split; [exact (proj2 Hc2)|].
  subst w3. unfold Accordion.tick. rewrite Ht2. simpl.
  split; [reflexivity|]. split.
  - unfold Accordion.reveal. rewrite accordion_update_classes by reflexivity.
    exact Hact2.
  - unfold Accordion.reveal, Accordion.update. simpl. rewrite Nat.eqb_refl. simpl.
    split; [exact (proj1 Hc2)|reflexivity].
Qed.

Lemma accordion_closed_content_left_visible_witness :
  let a :=
    Accordion.mk [Accordion.mkItem 1 (Some 2) (Some 3); Accordion.mkItem 4 (Some 5) (Some 6)]
      false "active" 300 in
  let w :=
    Accordion.mkWorld
      (fun e => Accordion.mkNode (if Nat.eqb e 1 then ["active"] else []) "" "" 120) 0 [] in
  let w3 := Accordion.tick (Accordion.toggle a 4 6 (Accordion.toggle a 4 6 w)) in
  Accordion.isActive a w3 4 = false /\
  Accordion.maxHeight (Accordion.store w3 6) = "0px" /\
  Accordion.overflow (Accordion.store w3 6) = "visible".
Proof.
  intros a w w3.
  destruct (accordion_closed_content_left_visible a 4 6 w eq_refl eq_refl)
    as (_ & _ & _ & H1 & H2 & H3).
  split; [exact H1|]. split; [exact H2|exact H3].
Defined.

Lemma accordion_init_fold a l w ls :
  let r :=
    fold_left
      (fun (acc : Accordion.World * list (Elem * Elem * Elem)) (i : Accordion.Item) =>
         match Accordion.trigger i, Accordion.content i with
         | Some tr, Some ct =>
             let s := fst acc in
             let s1 :=
               if negb (Accordion.isActive a s (Accordion.item i))
               then
                 Accordion.update ct
                   (fun n => Accordion.mkNode (Accordion.classes n) (Accordion.maxHeight n)
                               "hidden" (Accordion.scrollHeight n))
                   (Accordion.update ct
                      (fun n => Accordion.mkNode (Accordion.classes n) "0px"
                                  (Accordion.overflow n) (Accordion.scrollHeight n)) s)
               else s in
             (s1, snd acc ++ [(tr, Accordion.item i, ct)])
         | _, _ => acc
         end) l (w, ls) in
  (forall x, Accordion.classes (Accordion.store (fst r) x)
             = Accordion.classes (Accordion.store w x)) /\
  (forall x,
      Accordion.maxHeight (Accordion.store (fst r) x) = "0px"
      /\ Accordion.overflow (Accordion.store (fst r) x) = "hidden"
      \/ Accordion.store (fst r) x = Accordion.store w x) /\
  (forall i tr ct,
      In i l -> Accordion.trigger i = Some tr -> Accordion.content i = Some ct ->
      Accordion.isActive a w (Accordion.item i) = false ->
      Accordion.maxHeight (Accordion.store (fst r) ct) = "0px"
      /\ Accordion.overflow (Accordion.store (fst r) ct) = "hidden") /\
  snd r
  = ls ++ flat_map
            (fun i =>
               match Accordion.trigger i, Accordion.content i with
               | Some tr, Some ct => [(tr, Accordion.item i, ct)]
               | _, _ => []
               end) l /\
  Accordion.timers (fst r) = Accordion.timers w.
Proof.
  revert w ls. induction l as [|i l IH]; intros w ls r.
  - subst r. simpl. rewrite app_nil_r.
    split; [reflexivity|]. split; [now right|]. split; [contradiction|].
    split; reflexivity.
  - subst r. simpl fold_left.
    destruct (Accordion.trigger i) as [tr0|] eqn:Etr;
      [destruct (Accordion.content i) as [ct0|] eqn:Ect|].
    + cbv zeta. simpl fst. simpl snd.
      match goal with
      | |- context [fold_left ?f l (?w', ?ls')] =>
          specialize (IH w' ls'); set (w1 := w') in *
      end.
      cbv zeta in IH. destruct IH as (Hcl & Hst & Hin & Hls & Htm).
      assert (Hcl1 : forall x, Accordion.classes (Accordion.store w1 x)
                               = Accordion.classes (Accordion.store w x)).
      { intros x. subst w1.
        destruct (negb (Accordion.isActive a w (Accordion.item i))); [|reflexivity].
        unfold Accordion.update. simpl. destruct (Nat.eqb x ct0); reflexivity. }
      assert (Hact1 : forall x, Accordion.isActive a w1 x = Accordion.isActive a w x).
      { intros x. unfold Accordion.isActive. now rewrite Hcl1. }
      assert (Hst1 : forall x,
                 Accordion.maxHeight (Accordion.store w1 x) = "0px"
                 /\ Accordion.overflow (Accordion.store w1 x) = "hidden"
                 \/ Accordion.store w1 x = Accordion.store w x).
      { intros x. subst w1.
        destruct (negb (Accordion.isActive a w (Accordion.item i))); [|now right].
        unfold Accordion.update. simpl.
        destruct (Nat.eqb x ct0); [left; split; reflexivity|now right]. }
      split; [intros x; now rewrite Hcl, Hcl1|].
      split.
      { intros x. destruct (Hst x) as [H|H]; [now left|].
        rewrite H. apply Hst1. }
      split.
      { intros j tr ct [<-|Hj] Htr Hct Hact.
        - rewrite Ect in Hct. injection Hct as <-.
          destruct (Hst ct0) as [H|H]; [exact H|]. rewrite H.
          subst w1. rewrite Hact. simpl negb. cbv iota.
          unfold Accordion.update. simpl. rewrite Nat.eqb_refl. split; reflexivity.
        - apply (Hin j tr ct Hj Htr Hct). now rewrite Hact1. }
      split.
      { rewrite Hls. simpl flat_map. rewrite Etr, Ect. now rewrite <- app_assoc. }
      rewrite Htm. subst w1.
      destruct (negb (Accordion.isActive a w (Accordion.item i))); reflexivity.
    + specialize (IH w ls). cbv zeta in IH. destruct IH as (Hcl & Hst & Hin & Hls & Htm).
      split; [exact Hcl|]. split; [exact Hst|]. split.
      { intros j tr ct [<-|Hj] Htr Hct Hact; [congruence|]. now apply (Hin j tr ct). }
      split; [|exact Htm]. rewrite Hls. simpl flat_map. rewrite Etr, Ect. reflexivity.
    + specialize (IH w ls). cbv zeta in IH. destruct IH as (Hcl & Hst & Hin & Hls & Htm).
      split; [exact Hcl|]. split; [exact Hst|]. split.
      { intros j tr ct [<-|Hj] Htr Hct Hact; [congruence|]. now apply (Hin j tr ct). }
      split; [|exact Htm]. rewrite Hls. simpl flat_map. rewrite Etr. reflexivity.
Qed.

(** Property X15. [init] collapses the content of every item that has a trigger
    and a content and is not active, adds one click listener per such
    item, in page order, and changes no class; an element it changes at all
    is left with [maxHeight] [0px] and [overflow] [hidden]. An item that
    lacks its trigger or its content gets no listener. *)
Theorem accordion_init_collapses_inactive (a : Accordion.t) (w : Accordion.World) :
  let w1 := fst (Accordion.init a w) in
  (forall x, Accordion.isActive a w1 x = Accordion.isActive a w x) /\
  (forall x, Accordion.classes (Accordion.store w1 x)
             = Accordion.classes (Accordion.store w x)) /\
  (forall i tr ct,
      In i (Accordion.items a) ->
      Accordion.trigger i = Some tr -> Accordion.content i = Some ct ->
      Accordion.isActive a w (Accordion.item i) = false ->
      Accordion.maxHeight (Accordion.store w1 ct) = "0px"
      /\ Accordion.overflow (Accordion.store w1 ct) = "hidden") /\
  (forall x,
      Accordion.maxHeight (Accordion.store w1 x) = "0px"
      /\ Accordion.overflow (Accordion.store w1 x) = "hidden"
      \/ Accordion.store w1 x = Accordion.store w x) /\
  snd (Accordion.init a w) = accordion_listeners a /\
  Accordion.timers w1 = Accordion.timers w.
Proof.
  intros w1. subst w1. unfold Accordion.init.
  destruct (accordion_init_fold a (Accordion.items a) w []) as (Hcl & Hst & Hin & Hls & Htm).
  split; [intros x; unfold Accordion.isActive; now rewrite Hcl|].
  split; [exact Hcl|].
  split; [exact Hin|]. split; [exact Hst|]. split; [exact Hls|exact Htm].
Qed.

Lemma accordion_init_collapses_inactive_witness :
  let a :=
    Accordion.mk [Accordion.mkItem 1 (Some 2) (Some 3); Accordion.mkItem 4 (Some 5) (Some 6);
                  Accordion.mkItem 7 None (Some 9)] false "active" 300 in
  let w :=
    Accordion.mkWorld
      (fun e => Accordion.mkNode (if Nat.eqb e 1 then ["active"] else []) "" "" 120) 0 [] in
  let w1 := fst (Accordion.init a w) in
  Accordion.maxHeight (Accordion.store w1 6) = "0px" /\
  Accordion.overflow (Accordion.store w1 6) = "hidden" /\
  snd (Accordion.init a w) = [(2, 1, 3); (5, 4, 6)].
Proof.
  intros a w w1.
  destruct (accordion_init_collapses_inactive a w) as (_ & _ & H & _ & L & _).
  destruct (H (Accordion.mkItem 4 (Some 5) (Some 6)) 5 6) as [H1 H2];
    [right; left; reflexivity|reflexivity|reflexivity|reflexivity|].
  split; [exact H1|]. split; [exact H2|exact L].
Defined.

(* ================================================================= *)
(** ** The dropdowns *)

Lemma dropdown_closeMenus_enclosed c ms h :
  all_enclosed ms = true ->
  Dropdown.threw (Dropdown.closeMenus c ms h) = false /\
  (forall x d,
      h_contains (Dropdown.page (Dropdown.closeMenus c ms h)) x d
      = negb (dropdown_part ms x && String.eqb d c) && h_contains h x d) /\
  h_overflow (Dropdown.page (Dropdown.closeMenus c ms h)) = h_overflow h /\
  h_calls (Dropdown.page (Dropdown.closeMenus c ms h)) = h_calls h.
Proof.
  revert h. induction ms as [|[m [dd|]] ms IH]; intros h Hall.
  - simpl. repeat split. 
  - simpl in Hall. simpl Dropdown.closeMenus.
    destruct (IH (h_classList_remove dd c (h_classList_remove m c h)) Hall)
      as (Ht & Hc & Ho & Hk).
    split; [exact Ht|]. split; [|split; [exact Ho|exact Hk]].
    intros x d. rewrite Hc, !h_contains_remove.
    unfold dropdown_part. simpl existsb. fold (dropdown_part ms x).
    destruct (Nat.eqb x m), (Nat.eqb x dd), (dropdown_part ms x), (String.eqb d c),
      (h_contains h x d); reflexivity.
  - discriminate.
Qed.

Lemma dropdown_closeMenus_monotone c ms h x d :
  h_contains (Dropdown.page (Dropdown.closeMenus c ms h)) x d = true ->
  h_contains h x d = true.
Proof.
  revert h. induction ms as [|[m [dd|]] ms IH]; intros h; simpl.
  - trivial.
  - intros H. apply IH in H. rewrite !h_contains_remove in H.
    apply andb_prop in H as [_ H]. now apply andb_prop in H as [_ H].
  - rewrite h_contains_remove. intros H. now apply andb_prop in H as [_ H].
Qed.

Lemma dropdown_closeMenus_throws c ms h :
  all_enclosed ms = false -> Dropdown.threw (Dropdown.closeMenus c ms h) = true.
Proof.
  revert h. induction ms as [|[m [dd|]] ms IH]; intros h; simpl.
  - discriminate.
  - apply IH.
  - reflexivity.
Qed.

(** Property X16. On a page whose dropdown menus all have an enclosing dropdown,
    [toggle(dropdown, menu)] called for one of these menus together with
    its own enclosing dropdown, the one [closest] answers for it, does not
    throw and leaves at most the toggled dropdown open: the toggled menu's
    state flips and its dropdown follows it, every other menu and dropdown
    of the page is closed, and nothing else changes. *)
Theorem dropdown_toggle_opens_at_most_one (c : string) (ms : Dropdown.Menus)
    (dropdown menu : Elem) (h : Host) :
  all_enclosed ms = true ->
  In (menu, Some dropdown) ms ->
  let r := Dropdown.toggle c ms dropdown menu h in
  Dropdown.threw r = false /\
  h_contains (Dropdown.page r) menu c = negb (h_contains h menu c) /\
  h_contains (Dropdown.page r) dropdown c = negb (h_contains h menu c) /\
  (forall x, x <> menu -> x <> dropdown -> dropdown_part ms x = true ->
             h_contains (Dropdown.page r) x c = false) /\
  (forall x d, (x <> menu /\ x <> dropdown /\ dropdown_part ms x = false) \/ d <> c ->
               h_contains (Dropdown.page r) x d = h_contains h x d) /\
  h_overflow (Dropdown.page r) = h_overflow h.
Proof.
  intros Hall Hin r.
  destruct (dropdown_closeMenus_enclosed c ms h Hall) as (Ht & Hc & Ho & _).
  assert (Hm : dropdown_part ms menu = true /\ dropdown_part ms dropdown = true).
  { unfold dropdown_part. split; apply existsb_exists;
      exists (menu, Some dropdown); (split; [exact Hin|]); simpl;
      rewrite Nat.eqb_refl; [reflexivity|apply orb_true_r]. }
  destruct Hm as [Hpm Hpd].
  subst r. unfold Dropdown.toggle. rewrite Ht.
  destruct (h_contains h menu c) eqn:Hwas; simpl negb; cbv iota.
  - split; [exact Ht|].
    split; [rewrite Hc, Hpm, String.eqb_refl; reflexivity|].
    split; [rewrite Hc, Hpd, String.eqb_refl; reflexivity|].
    split; [intros x _ _ Hp; rewrite Hc, Hp, String.eqb_refl; reflexivity|].
    split; [|exact Ho].
    intros x d [(_ & _ & Hp)|Hd]; rewrite Hc.
    + now rewrite Hp.
    + apply String.eqb_neq in Hd. rewrite Hd, andb_false_r. reflexivity.
  - simpl Dropdown.threw. simpl Dropdown.page.
    split; [reflexivity|].
    split; [rewrite !h_contains_add, Nat.eqb_refl, String.eqb_refl; apply orb_true_r|].
    split; [rewrite !h_contains_add, Nat.eqb_refl, String.eqb_refl; reflexivity|].
    split.
    { intros x Hx Hd Hp. rewrite !h_contains_add, Hc, Hp, String.eqb_refl.
      apply Nat.eqb_neq in Hx, Hd. now rewrite Hx, Hd. }
    split; [|exact Ho].
    intros x d [(Hx & Hd & Hp)|Hd]; rewrite !h_contains_add, Hc.
    + apply Nat.eqb_neq in Hx, Hd. now rewrite Hx, Hd, Hp.
    + apply String.eqb_neq in Hd. rewrite Hd, !andb_false_r. reflexivity.
Qed.

Lemma dropdown_toggle_opens_at_most_one_witness :
  let ms := [(2, Some 1); (4, Some 3); (6, Some 5)] in
  let h := mkHost (fun e => mkElem (if Nat.eqb e 1 || Nat.eqb e 2 then ["active"] else []) "")
             "" [] in
  let r := Dropdown.toggle "active" ms 3 4 h in
  Dropdown.threw r = false /\
  h_contains (Dropdown.page r) 4 "active" = true /\
  h_contains (Dropdown.page r) 3 "active" = true /\
  h_contains (Dropdown.page r) 2 "active" = false.
Proof.
  intros ms h r.
  destruct (dropdown_toggle_opens_at_most_one "active" ms 3 4 h eq_refl)
    as (H1 & H2 & H3 & H4 & _).
  { right; left; reflexivity. }
  split; [exact H1|]. split; [exact H2|]. split; [exact H3|].
  apply H4; [discriminate|discriminate|reflexivity].
Defined.

(** Property X17. One menu outside any dropdown breaks every dropdown of the page:
    [toggle] throws while it closes the menus, before it opens anything, so
    no element gains the active class and a closed menu cannot be opened. *)
Theorem dropdown_orphan_menu_blocks_toggle (c : string) (ms : Dropdown.Menus)
    (dropdown menu : Elem) (h : Host) :
  all_enclosed ms = false ->
  let r := Dropdown.toggle c ms dropdown menu h in
  Dropdown.threw r = true /\
  (forall x d, h_contains (Dropdown.page r) x d = true -> h_contains h x d = true) /\
  (h_contains h menu c = false -> h_contains (Dropdown.page r) menu c = false).
Proof.
  intros Hall r.
  assert (Hr : r = Dropdown.closeMenus c ms h).
  { subst r. unfold Dropdown.toggle. now rewrite (dropdown_closeMenus_throws c ms h Hall). }
  rewrite Hr. split; [now apply dropdown_closeMenus_throws|].
  split; [intros x d; apply dropdown_closeMenus_monotone|].
  intros Hwas.
  destruct (h_contains (Dropdown.page (Dropdown.closeMenus c ms h)) menu c) eqn:E;
    [|reflexivity].
  apply dropdown_closeMenus_monotone in E. congruence.
Qed.

Lemma dropdown_orphan_menu_blocks_toggle_witness :
  let ms := [(2, Some 1); (9, None); (4, Some 3)] in
  let h := mkHost (fun e => mkElem (if Nat.eqb e 1 || Nat.eqb e 2 then ["active"] else []) "")
             "" [] in
  let r := Dropdown.toggle "active" ms 3 4 h in
  Dropdown.threw r = true /\ h_contains (Dropdown.page r) 4 "active" = false.
Proof.
  intros ms h r.
  destruct (dropdown_orphan_menu_blocks_toggle "active" ms 3 4 h eq_refl) as (H1 & _ & H3).
  split; [exact H1|]. apply H3. reflexivity.
Defined.

(* ================================================================= *)
(** ** The lightbox *)

Lemma lightbox_fade_image_index i s :
  Lightbox.currentIndex (Lightbox.state_of (Lightbox.fade_image i s)) = i
  /\ Lightbox.images (Lightbox.state_of (Lightbox.fade_image i s)) = Lightbox.images s.
Proof. unfold Lightbox.fade_image. destruct (Lightbox.created s); split; reflexivity. Qed.

Lemma lightbox_next_index s :
  Lightbox.currentIndex (Lightbox.state_of (Lightbox.next s))
  = Lightbox.js_mod (Lightbox.js_add (Lightbox.currentIndex s) 1)
      (Z.of_nat (List.length (Lightbox.images s)))
  /\ Lightbox.images (Lightbox.state_of (Lightbox.next s)) = Lightbox.images s.
Proof. apply lightbox_fade_image_index. Qed.

Lemma lightbox_prev_index s :
  Lightbox.currentIndex (Lightbox.state_of (Lightbox.prev s))
  = Lightbox.js_mod
      (Lightbox.js_add (Lightbox.js_add (Lightbox.currentIndex s) (-1))
         (Z.of_nat (List.length (Lightbox.images s))))
      (Z.of_nat (List.length (Lightbox.images s)))
  /\ Lightbox.images (Lightbox.state_of (Lightbox.prev s)) = Lightbox.images s.
Proof. apply lightbox_fade_image_index. Qed.

Lemma lightbox_mod_next i n :
  (0 <= i < n)%Z ->
  Lightbox.js_mod (Lightbox.js_add (Lightbox.Idx i) 1) n
  = Lightbox.Idx (if Z.eqb (i + 1) n then 0 else i + 1).
Proof.
  intros H. simpl. destruct (Z.eqb_spec n 0) as [E|E]; [lia|].
  f_equal. rewrite Z.rem_mod_nonneg by lia.
  destruct (Z.eqb_spec (i + 1) n) as [->|Hne].
  - apply Z.mod_same. lia.
  - apply Z.mod_small. lia.
Qed.

Lemma lightbox_mod_prev i n :
  (0 <= i < n)%Z ->
  Lightbox.js_mod (Lightbox.js_add (Lightbox.js_add (Lightbox.Idx i) (-1)) n) n
  = Lightbox.Idx (if Z.eqb i 0 then n - 1 else i - 1).
Proof.
  intros H. simpl. destruct (Z.eqb_spec n 0) as [E|E]; [lia|].
  f_equal. rewrite Z.rem_mod_nonneg by lia.
  destruct (Z.eqb_spec i 0) as [->|Hne].
  - replace (0 + -1 + n)%Z with (n - 1)%Z by lia. apply Z.mod_small. lia.
  - replace (i + -1 + n)%Z with (i - 1 + 1 * n)%Z by lia.
    rewrite Z.mod_add by lia. apply Z.mod_small. lia.
Qed.

(** Property X18. On a gallery with images and an index in range, [next] and
    [prev] stay in range and wrap around: [next] from the last image shows
    the first, [prev] from the first shows the last, and each undoes the
    other. *)
Theorem lightbox_next_prev_wrap (s : Lightbox.t) (i : Z) :
  Lightbox.currentIndex s = Lightbox.Idx i ->
  (0 <= i < Z.of_nat (List.length (Lightbox.images s)))%Z ->
  let n := Z.of_nat (List.length (Lightbox.images s)) in
  let sn := Lightbox.state_of (Lightbox.next s) in
  let sp := Lightbox.state_of (Lightbox.prev s) in
  Lightbox.currentIndex sn = Lightbox.Idx (if Z.eqb (i + 1) n then 0 else i + 1) /\
  Lightbox.currentIndex sp = Lightbox.Idx (if Z.eqb i 0 then n - 1 else i - 1) /\
  Lightbox.currentIndex (Lightbox.state_of (Lightbox.prev sn)) = Lightbox.Idx i /\
  Lightbox.currentIndex (Lightbox.state_of (Lightbox.next sp)) = Lightbox.Idx i.
Proof.
  intros Hcur Hi n sn sp.
  assert (Hn : Lightbox.currentIndex sn
               = Lightbox.Idx (if Z.eqb (i + 1) n then 0 else i + 1)).
  { subst sn. rewrite (proj1 (lightbox_next_index s)), Hcur.
    now apply lightbox_mod_next. }
  assert (Hp : Lightbox.currentIndex sp
               = Lightbox.Idx (if Z.eqb i 0 then n - 1 else i - 1)).
  { subst sp. rewrite (proj1 (lightbox_prev_index s)), Hcur.
    now apply lightbox_mod_prev. }
  split; [exact Hn|]. split; [exact Hp|]. split.
  - rewrite (proj1 (lightbox_prev_index sn)), Hn.
    subst sn. rewrite (proj2 (lightbox_next_index s)). fold n.
    rewrite lightbox_mod_prev by (destruct (Z.eqb_spec (i + 1) n); lia).
    f_equal. destruct (Z.eqb_spec (i + 1) n) as [E|E]; simpl.
    + lia.
    + destruct (Z.eqb_spec (i + 1) 0); lia.
  - rewrite (proj1 (lightbox_next_index sp)), Hp.
    subst sp. rewrite (proj2 (lightbox_prev_index s)). fold n.
    rewrite lightbox_mod_next by (destruct (Z.eqb_spec i 0); lia).
    f_equal. destruct (Z.eqb_spec i 0) as [E|E].
    + destruct (Z.eqb_spec (n - 1 + 1) n); lia.
    + destruct (Z.eqb_spec (i - 1 + 1) n); lia.
Qed.

Lemma lightbox_next_prev_wrap_witness :
  let s :=
    Lightbox.open 2 (Lightbox.new [VStr "a.png"; VStr "b.png"; VStr "c.png"] "") in
  Lightbox.currentIndex (Lightbox.state_of (Lightbox.next s)) = Lightbox.Idx 0 /\
  Lightbox.currentIndex (Lightbox.state_of (Lightbox.prev s)) = Lightbox.Idx 1.
Proof.
  intros s.
  assert (Hi : (0 <= 2 < Z.of_nat (List.length (Lightbox.images s)))%Z)
    by (vm_compute; split; [discriminate|reflexivity]).
  destruct (lightbox_next_prev_wrap s 2 eq_refl Hi) as (H1 & H2 & _).
  split; [exact H1|exact H2].
Defined.

(** Property X19. A gallery without images has no index: [next] and [prev] set
    [currentIndex] to [NaN], [NaN] stays [NaN] under [next] and [prev]
    whatever the images, and the image such an index names is [undefined]. *)
Theorem lightbox_empty_gallery_has_no_index (s : Lightbox.t) :
  (Lightbox.images s = [] ->
   Lightbox.currentIndex (Lightbox.state_of (Lightbox.next s)) = Lightbox.NaN /\
   Lightbox.currentIndex (Lightbox.state_of (Lightbox.prev s)) = Lightbox.NaN) /\
  (Lightbox.currentIndex s = Lightbox.NaN ->
   Lightbox.currentIndex (Lightbox.state_of (Lightbox.next s)) = Lightbox.NaN /\
   Lightbox.currentIndex (Lightbox.state_of (Lightbox.prev s)) = Lightbox.NaN) /\
  Lightbox.image_at (Lightbox.images s) Lightbox.NaN = VUndefined.
Proof.
  rewrite (proj1 (lightbox_next_index s)), (proj1 (lightbox_prev_index s)).
  split; [|split; [|reflexivity]].
  - intros ->. simpl. destruct (Lightbox.currentIndex s); split; reflexivity.
  - intros ->. split; reflexivity.
Qed.

Lemma lightbox_empty_gallery_has_no_index_witness :
  let s := Lightbox.open 0 (Lightbox.new [] "") in
  Lightbox.currentIndex (Lightbox.state_of (Lightbox.next s)) = Lightbox.NaN /\
  Lightbox.img_src (Lightbox.tick (Lightbox.tick (Lightbox.state_of (Lightbox.next s))))
  = Some VUndefined.
Proof.
  intros s. split.
  - exact (proj1 (proj1 (lightbox_empty_gallery_has_no_index s) eq_refl)).
  - vm_compute. reflexivity.
Defined.

Lemma lightbox_existsb_remove_nth {A} (p : A -> bool) (l : list A) i x :
  nth_error l i = Some x -> p x = false ->
  existsb p (Lightbox.remove_nth i l) = existsb p l.
Proof.
  revert i. induction l as [|y l IH]; intros i Hn Hp.
  - destruct i; discriminate.
  - destruct i as [|i]; simpl in *.
    + injection Hn as ->. now rewrite Hp.
    + now rewrite (IH i Hn Hp).
Qed.

Lemma lightbox_swap_pending_app s' s x :
  Lightbox.timers s' = Lightbox.timers s ++ [x] ->
  swap_pending s'
  = swap_pending s || match snd x with
                      | Lightbox.Swap => true
                      | _ => false
                      end.
Proof.
  intros H. unfold swap_pending. rewrite H, existsb_app. simpl.
  now rewrite orb_false_r.
Qed.

Lemma lightbox_inv_fade srcs i s :
  lightbox_inv srcs s ->
  lightbox_inv srcs (Lightbox.state_of (Lightbox.fade_image i s))
  /\ Lightbox.threw (Lightbox.fade_image i s) = false.
Proof.
  intros (Hc & Hi & Hs). unfold Lightbox.fade_image. rewrite Hc. simpl.
  split; [|reflexivity]. split; [reflexivity|]. split; [exact Hi|].
  intros Hp. exfalso. revert Hp. unfold swap_pending. simpl.
  rewrite existsb_app. simpl. now rewrite orb_true_r.
Qed.

Lemma lightbox_inv_close srcs s :
  lightbox_inv srcs s ->
  lightbox_inv srcs (Lightbox.state_of (Lightbox.close s))
  /\ Lightbox.threw (Lightbox.close s) = false.
Proof.
  intros (Hc & Hi & Hs). unfold Lightbox.close. rewrite Hc. simpl.
  split; [|reflexivity]. split; [reflexivity|]. split; [exact Hi|].
  unfold swap_pending in *. simpl. rewrite existsb_app. simpl.
  rewrite !orb_false_r. exact Hs.
Qed.

Lemma lightbox_inv_open srcs index s :
  Lightbox.images s = srcs -> lightbox_inv srcs (Lightbox.open index s).
Proof.
  intros Hi. unfold Lightbox.open.
  split; [reflexivity|]. split.
  - simpl. destruct (Lightbox.created s); simpl; exact Hi.
  - intros _. simpl. destruct (Lightbox.created s); simpl; now rewrite Hi.
Qed.

Lemma lightbox_inv_tick srcs s :
  lightbox_inv srcs s -> lightbox_inv srcs (Lightbox.tick s).
Proof.
  intros (Hc & Hi & Hs). unfold Lightbox.tick.
  destruct (Timers.earliest (Lightbox.timers s)) as [i|]; [|now split].
  destruct (nth_error (Lightbox.timers s) i) as [[due a]|] eqn:En; [|now split].
  destruct a; simpl.
  - split; [exact Hc|]. split; [exact Hi|].
    unfold swap_pending in *. simpl.
    rewrite (lightbox_existsb_remove_nth _ _ _ _ En eq_refl). exact Hs.
  - split; [exact Hc|]. split; [exact Hi|].
    unfold swap_pending in *. simpl.
    rewrite (lightbox_existsb_remove_nth _ _ _ _ En eq_refl). exact Hs.
  - split; [exact Hc|]. split; [exact Hi|]. intros _. now rewrite Hi.
Qed.

Lemma lightbox_inv_step srcs a s :
  lightbox_inv srcs s ->
  lightbox_inv srcs (Lightbox.state_of (Lightbox.step a s))
  /\ Lightbox.threw (Lightbox.step a s) = false.
Proof.
  intros Hinv. destruct a as [index| | | |key| |d]; simpl.
  - split; [|reflexivity]. apply lightbox_inv_open. apply Hinv.
  - now apply lightbox_inv_close.
  - now apply lightbox_inv_fade.
  - now apply lightbox_inv_fade.
  - unfold Lightbox.keydown. destruct Hinv as (Hc & Hi & Hs). rewrite Hc. simpl.
    destruct (String.eqb (Lightbox.display s) "" || String.eqb (Lightbox.display s) "none");
      [now repeat split|].
    destruct (String.eqb key "Escape"); [now apply lightbox_inv_close|].
    destruct (String.eqb key "ArrowLeft"); [now apply lightbox_inv_fade|].
    destruct (String.eqb key "ArrowRight"); [now apply lightbox_inv_fade|].
    now repeat split.
  - split; [|reflexivity]. now apply lightbox_inv_tick.
  - split; [|reflexivity]. destruct Hinv as (Hc & Hi & Hs). now repeat split.
Qed.

Lemma lightbox_inv_run srcs tr s :
  lightbox_inv srcs s -> lightbox_inv srcs (Lightbox.run tr s).
Proof.
  revert s. induction tr as [|a tr IH]; intros s Hinv; [exact Hinv|].
  simpl. apply IH. now apply lightbox_inv_step.
Qed.

(** Property X20. Once an image has been opened, whatever happens next (clicks on
    images and buttons, keys, timers, in any order): no handler throws, the
    image list is the one [init] collected, and whenever no image swap is
    pending the image shown is the one [currentIndex] names. *)
Theorem lightbox_image_follows_index (srcs : list JsVal) (overflow : string)
    (index : nat) (tr : list Lightbox.Action) :
  let s := Lightbox.run (Lightbox.Open index :: tr) (Lightbox.new srcs overflow) in
  Lightbox.created s = true /\
  Lightbox.images s = srcs /\
  (swap_pending s = false ->
   Lightbox.img_src s = Some (Lightbox.image_at srcs (Lightbox.currentIndex s))) /\
  (forall a, Lightbox.threw (Lightbox.step a s) = false).
Proof.
  intros s.
  assert (Hinv : lightbox_inv srcs s).
  { subst s. simpl. apply lightbox_inv_run. now apply lightbox_inv_open. }
  destruct Hinv as (Hc & Hi & Hs).
  split; [exact Hc|]. split; [exact Hi|]. split; [exact Hs|].
  intros a. now apply (lightbox_inv_step srcs a s).
Qed.

Lemma lightbox_image_follows_index_witness :
  let srcs := [VStr "a.png"; VStr "b.png"; VStr "c.png"] in
  let tr := [Lightbox.Next; Lightbox.Next; Lightbox.Tick; Lightbox.Keydown "ArrowLeft";
             Lightbox.Tick; Lightbox.Tick; Lightbox.Tick] in
  let s := Lightbox.run (Lightbox.Open 1 :: tr) (Lightbox.new srcs "") in
  Lightbox.currentIndex s = Lightbox.Idx 2 /\ Lightbox.img_src s = Some (VStr "c.png").
Proof.
  intros srcs tr s.
  destruct (lightbox_image_follows_index srcs "" 1 tr) as (_ & _ & H & _).
  split; [vm_compute; reflexivity|].
  etransitivity; [exact (H eq_refl)|vm_compute; reflexivity].
Defined.

(** Property X21. The 300ms callback of [close] is never cancelled. When the
    lightbox is closed and an image is opened again before the callback is
    due, the callback still hides the lightbox afterwards and releases the
    page scroll: the lightbox asked to open last ends with [display] [none],
    and in that state it ignores every key. *)
Theorem lightbox_reopen_is_hidden_by_stale_timer (s : Lightbox.t) (index : Z) :
  Lightbox.created s = true ->
  Lightbox.timers s = [] ->
  let s1 := Lightbox.open index (Lightbox.state_of (Lightbox.close s)) in
  let s3 := Lightbox.tick (Lightbox.tick s1) in
  Lightbox.timers s1
  = [(Lightbox.clock s + 300, Lightbox.Hide); (Lightbox.clock s + 10, Lightbox.FadeIn)] /\
  Lightbox.display s1 = "flex" /\
  Lightbox.bodyOverflow s1 = "hidden" /\
  Lightbox.timers s3 = [] /\
  Lightbox.currentIndex s3 = Lightbox.Idx index /\
  Lightbox.opacity s3 = "1" /\
  Lightbox.display s3 = "none" /\
  Lightbox.bodyOverflow s3 = "" /\
  (forall key, Lightbox.keydown key s3 = Lightbox.Done s3).
Proof.
  intros Hc Ht s1 s3.
  assert (H1 : Lightbox.timers s1
               = [(Lightbox.clock s + 300, Lightbox.Hide);
                  (Lightbox.clock s + 10, Lightbox.FadeIn)]).
  { subst s1. unfold Lightbox.close, Lightbox.open. rewrite Hc. simpl. now rewrite Ht. }
  split; [exact H1|]. split; [reflexivity|]. split; [reflexivity|].
  assert (Hlt : Nat.ltb (Lightbox.clock s + 10) (Lightbox.clock s + 300) = true)
    by (apply Nat.ltb_lt; lia).
  assert (H2 : Lightbox.timers (Lightbox.tick s1) = [(Lightbox.clock s + 300, Lightbox.Hide)]
               /\ Lightbox.opacity (Lightbox.tick s1) = "1"
               /\ Lightbox.currentIndex (Lightbox.tick s1) = Lightbox.Idx index
               /\ Lightbox.created (Lightbox.tick s1) = true).
  { unfold Lightbox.tick. rewrite H1. simpl. rewrite Hlt. simpl.
    repeat split. }
  destruct H2 as (T2 & O2 & I2 & C2).
  assert (H3 : Lightbox.timers s3 = [] /\ Lightbox.currentIndex s3 = Lightbox.Idx index
               /\ Lightbox.opacity s3 = "1" /\ Lightbox.display s3 = "none"
               /\ Lightbox.bodyOverflow s3 = "" /\ Lightbox.created s3 = true).
  { assert (E3 : s3 = Lightbox.run_timer Lightbox.Hide
                          (Lightbox.mk (Lightbox.images (Lightbox.tick s1))
                             (Lightbox.currentIndex (Lightbox.tick s1))
                             (Lightbox.created (Lightbox.tick s1))
                             (Lightbox.display (Lightbox.tick s1))
                             (Lightbox.opacity (Lightbox.tick s1))
                             (Lightbox.img_src (Lightbox.tick s1))
                             (Lightbox.img_opacity (Lightbox.tick s1))
                             (Lightbox.bodyOverflow (Lightbox.tick s1))
                             (Nat.max (Lightbox.clock (Lightbox.tick s1))
                                (Lightbox.clock s + 300))
                             [])).
    { subst s3. unfold Lightbox.tick at 1. rewrite T2. reflexivity. }
    rewrite E3. simpl.
    split; [reflexivity|]. split; [exact I2|]. split; [exact O2|].
    split; [reflexivity|]. split; [reflexivity|exact C2]. }
  destruct H3 as (T3 & I3 & O3 & D3 & B3 & C3).
  split; [exact T3|]. split; [exact I3|]. split; [exact O3|].
  split; [exact D3|]. split; [exact B3|].
  intros key. unfold Lightbox.keydown. rewrite C3, D3. reflexivity.
Qed.

Lemma lightbox_reopen_is_hidden_by_stale_timer_witness :
  let s :=
    Lightbox.tick (Lightbox.open 0 (Lightbox.new [VStr "a.png"; VStr "b.png"] "")) in
  let s3 :=
    Lightbox.tick (Lightbox.tick (Lightbox.open 1 (Lightbox.state_of (Lightbox.close s)))) in
  Lightbox.display s3 = "none" /\ Lightbox.bodyOverflow s3 = "" /\
  Lightbox.currentIndex s3 = Lightbox.Idx 1.
Proof.
  intros s s3.
  destruct (lightbox_reopen_is_hidden_by_stale_timer s 1 eq_refl eq_refl)
    as (_ & _ & _ & _ & H1 & _ & H2 & H3 & _).
  split; [exact H2|]. split; [exact H3|exact H1].
Defined.

(* ================================================================= *)
(** ** Toasts *)

Lemma toast_set_nth_length {A} i (f : A -> A) l :
  List.length (Toast.set_nth i f l) = List.length l.
Proof.
  revert i. induction l as [|x l IH]; intros [|i]; simpl; try reflexivity.
  now rewrite IH.
Qed.

Lemma toast_set_nth_last {A} (f : A -> A) l x :
  Toast.set_nth (List.length l) f (l ++ [x]) = l ++ [f x].
Proof. induction l as [|y l IH]; simpl; [reflexivity|now rewrite IH]. Qed.

Lemma toast_show_unfold msg ty dur s :
  (Z.of_nat (List.length (Toast.children s)) < Toast.maxToasts s)%Z
  \/ Toast.children s <> [] ->
  exists s1,
    Toast.show msg ty dur s
    = Toast.Done
        (Toast.mk (Toast.position s) (Toast.duration s) (Toast.maxToasts s)
           (Toast.children s ++ [List.length (Toast.items s)])
           (Toast.items s1) (Toast.clock s)
           (Toast.timers s1
            ++ [(Toast.clock s + 10, Toast.AnimateIn (List.length (Toast.items s)))]
            ++ (if Z.gtb (toast_delay dur s) 0
                then [(Toast.clock s + Z.to_nat (toast_delay dur s),
                       Toast.AutoRemove (List.length (Toast.items s)))]
                else []))) /\
    List.length (Toast.items s1) = S (List.length (Toast.items s)) /\
    (Toast.timers s1 = Toast.timers s /\
     Toast.items s1 = Toast.items s ++ [Toast.mkItem ty msg "0" (Toast.offscreen s)] /\
     (Z.of_nat (List.length (Toast.children s)) < Toast.maxToasts s)%Z
     \/ exists oldest,
         hd_error (Toast.children s) = Some oldest /\
         (Toast.maxToasts s <= Z.of_nat (List.length (Toast.children s)))%Z /\
         Toast.timers s1 = Toast.timers s ++ [(Toast.clock s + 300, Toast.Detach oldest)]).
Proof.
  intros Hok. unfold Toast.show. cbv zeta. simpl Toast.children. simpl Toast.maxToasts.
  destruct (Z.geb_spec (Z.of_nat (List.length (Toast.children s))) (Toast.maxToasts s))
    as [Hge|Hlt].
  - destruct (Toast.children s) as [|oldest rest] eqn:Hch.
    + exfalso. destruct Hok as [H|H]; [simpl in *; lia|now apply H].
    + exists (Toast.remove oldest
                (Toast.mk (Toast.position s) (Toast.duration s) (Toast.maxToasts s)
                   (oldest :: rest)
                   (Toast.items s ++ [Toast.mkItem ty msg "0" (Toast.offscreen s)])
                   (Toast.clock s) (Toast.timers s))).
      split.
      * unfold Toast.remove, Toast.restyle, toast_delay. simpl.
        destruct dur as [d|]; destruct (Z.gtb _ 0); simpl; rewrite <- ?app_assoc;
          reflexivity.
      * split.
        { simpl. rewrite toast_set_nth_length, length_app. simpl. lia. }
        right. exists oldest. split; [reflexivity|]. split; [exact Hge|reflexivity].
  - exists (Toast.mk (Toast.position s) (Toast.duration s) (Toast.maxToasts s)
              (Toast.children s)
              (Toast.items s ++ [Toast.mkItem ty msg "0" (Toast.offscreen s)])
              (Toast.clock s) (Toast.timers s)).
    split.
    + unfold toast_delay. simpl.
      destruct dur as [d|]; destruct (Z.gtb _ 0); simpl; rewrite <- ?app_assoc;
        reflexivity.
    + simpl. split; [rewrite length_app; simpl; lia|].
      left. split; [reflexivity|]. split; [reflexivity|lia].
Qed.

Lemma toast_hd_error_app {A} (l r : list A) x :
  hd_error l = Some x -> hd_error (l ++ r) = Some x.
Proof. destruct l; [discriminate|trivial]. Qed.

Lemma toast_burst_inv reqs s :
  (1 <= Toast.maxToasts s)%Z ->
  let s1 := toast_burst reqs s in
  Toast.children s1
  = Toast.children s ++ seq (List.length (Toast.items s)) (List.length reqs) /\
  Toast.maxToasts s1 = Toast.maxToasts s /\
  (forall due toast,
      In (due, Toast.Detach toast) (Toast.timers s1) ->
      In (due, Toast.Detach toast) (Toast.timers s)
      \/ hd_error (Toast.children s1) = Some toast).
Proof.
  revert s. induction reqs as [|[[msg ty] dur] reqs IH]; intros s Hcap s1.
  - subst s1. simpl. rewrite app_nil_r. split; [reflexivity|].
    split; [reflexivity|]. intros due toast H. now left.
  - subst s1. simpl toast_burst. unfold toast_burst at 1. simpl fold_left.
    fold (toast_burst reqs (Toast.state_of (Toast.show msg ty dur s))).
    destruct (toast_show_unfold msg ty dur s) as (s0 & Hshow & Hlen & Hcase).
    { destruct (Toast.children s); [left; simpl; lia|right; discriminate]. }
    rewrite Hshow. simpl Toast.state_of.
    match goal with
    | |- context [toast_burst reqs ?x] => set (s' := x)
    end.
    specialize (IH s'). cbv zeta in IH.
    destruct IH as (Hch & Hmx & Hdt); [exact Hcap|].
    split.
    { rewrite Hch. subst s'. simpl Toast.children. simpl Toast.items.
      rewrite Hlen, <- app_assoc. reflexivity. }
    split; [rewrite Hmx; reflexivity|].
    intros due toast Hin. destruct (Hdt due toast Hin) as [Hold|Hhd]; [|now right].
    subst s'. simpl Toast.timers in Hold.
    apply in_app_or in Hold as [Hold|Hold].
    + destruct Hcase as [(Ht & _)|(oldest & Hhd & _ & Ht)].
      * left. now rewrite <- Ht.
      * rewrite Ht in Hold. apply in_app_or in Hold as [Hold|Hold]; [now left|].
        right. destruct Hold as [E|[]]. injection E as _ <-.
        rewrite Hch. simpl Toast.children. rewrite <- app_assoc.
        now apply toast_hd_error_app.
    + exfalso. destruct Hold as [E|Hold]; [discriminate|].
      destruct (Z.gtb _ 0); [destruct Hold as [E|[]]; discriminate|contradiction].
Qed.

(** Property X22. [maxToasts] is a soft cap. [show] always appends its toast and
    never takes one out itself: over the cap it only starts the fade of the
    oldest toast, which leaves 300ms later. So a burst of [n] calls leaves
    [n] more toasts in the container, in call order, and every removal the
    burst schedules is of the one toast that heads the container. *)
Theorem toast_cap_is_soft (reqs : list (string * string * option Z)) (s : Toast.t) :
  (1 <= Toast.maxToasts s)%Z ->
  let s1 := toast_burst reqs s in
  Toast.children s1
  = Toast.children s ++ seq (List.length (Toast.items s)) (List.length reqs) /\
  (forall due toast,
      In (due, Toast.Detach toast) (Toast.timers s1) ->
      In (due, Toast.Detach toast) (Toast.timers s)
      \/ hd_error (Toast.children s1) = Some toast) /\
  (forall msg ty dur, Toast.threw (Toast.show msg ty dur s1) = false).
Proof.
  intros Hcap s1.
  destruct (toast_burst_inv reqs s Hcap) as (Hch & Hmx & Hdt).
  split; [exact Hch|]. split; [exact Hdt|].
  intros msg ty dur.
  destruct (toast_show_unfold msg ty dur s1) as (s0 & Hshow & _).
  { fold s1 in Hmx. destruct (Toast.children s1); [left; simpl; lia|right; discriminate]. }
  now rewrite Hshow.
Qed.

Lemma toast_cap_is_soft_witness :
  let s := Toast.new None None (Some 2%Z) in
  let s1 :=
    toast_burst [("a", "info", None); ("b", "info", None); ("c", "error", None);
                 ("d", "info", Some 0%Z)] s in
  Toast.children s1 = [0; 1; 2; 3] /\
  nth_error (Toast.timers s1) 4 = Some (300, Toast.Detach 0) /\
  nth_error (Toast.timers s1) 7 = Some (300, Toast.Detach 0).
Proof.
  intros s s1.
  assert (Hcap : (1 <= Toast.maxToasts s)%Z) by (vm_compute; discriminate).
  destruct (toast_cap_is_soft
              [("a", "info", None); ("b", "info", None); ("c", "error", None);
               ("d", "info", Some 0%Z)] s Hcap) as (H1 & _ & _).
  split; [exact H1|]. split; vm_compute; reflexivity.
Defined.

(** Property X23. [show] throws exactly when the container is empty and
    [maxToasts] is not positive: the toast to evict is [undefined] then. The
    constructor replaces a missing or zero [maxToasts] by 5, but keeps a
    negative one, and with it the first [show] throws before anything is
    appended or scheduled. *)
Theorem toast_show_throws_on_negative_cap (msg ty : string) (dur : option Z)
    (s : Toast.t) :
  (Toast.threw (Toast.show msg ty dur s) = true
   <-> Toast.children s = [] /\ (Toast.maxToasts s <= 0)%Z) /\
  (Toast.threw (Toast.show msg ty dur s) = true ->
   Toast.children (Toast.state_of (Toast.show msg ty dur s)) = Toast.children s /\
   Toast.timers (Toast.state_of (Toast.show msg ty dur s)) = Toast.timers s) /\
  (forall p d mx,
      Toast.threw (Toast.show msg ty dur (Toast.new p d mx))
      = match mx with
        | Some z => Z.ltb z 0
        | None => false
        end).
Proof.
  assert (Hiff : Toast.threw (Toast.show msg ty dur s) = true
                 <-> Toast.children s = [] /\ (Toast.maxToasts s <= 0)%Z).
  { split.
    - intros Hthrew.
      destruct (Toast.children s) as [|c cs] eqn:Hch.
      + split; [reflexivity|].
        destruct (Z.leb_spec (Toast.maxToasts s) 0) as [H|H]; [exact H|].
        exfalso. destruct (toast_show_unfold msg ty dur s) as (s0 & Hshow & _).
        { left. rewrite Hch. simpl. lia. }
        rewrite Hshow in Hthrew. discriminate.
      + exfalso. destruct (toast_show_unfold msg ty dur s) as (s0 & Hshow & _).
        { right. rewrite Hch. discriminate. }
        rewrite Hshow in Hthrew. discriminate.
    - intros [Hch Hmx]. unfold Toast.show. cbv zeta. simpl Toast.children.
      simpl Toast.maxToasts. rewrite Hch. simpl List.length.
      destruct (Z.geb_spec (Z.of_nat 0) (Toast.maxToasts s)) as [H|H]; [reflexivity|].
      simpl in H. lia. }
  split; [exact Hiff|]. split.
  - intros Hthrew. apply Hiff in Hthrew as [Hch Hmx].
    unfold Toast.show. cbv zeta. simpl Toast.children. simpl Toast.maxToasts.
    rewrite Hch. simpl List.length.
    destruct (Z.geb_spec (Z.of_nat 0) (Toast.maxToasts s)) as [H|H].
    + simpl. split; reflexivity.
    + simpl in H. lia.
  - intros p d mx. unfold Toast.show, Toast.new. cbv zeta. simpl Toast.children.
    simpl Toast.maxToasts. simpl List.length. unfold Toast.or_number.
    destruct mx as [z|]; [|reflexivity].
    destruct (Z.eqb_spec z 0) as [->|Hz]; [reflexivity|].
    destruct (Z.geb_spec (Z.of_nat 0) z) as [H|H]; destruct (Z.ltb_spec z 0) as [H'|H'];
      simpl in *; try reflexivity; lia.
Qed.

Lemma toast_show_throws_on_negative_cap_witness :
  Toast.threw (Toast.show "saved" "success" None (Toast.new None None (Some (-1)%Z)))
  = true /\
  Toast.threw (Toast.show "saved" "success" None (Toast.new None None (Some 0%Z)))
  = false.
Proof.
  split.
  - apply (proj1 (toast_show_throws_on_negative_cap "saved" "success" None
                    (Toast.new None None (Some (-1)%Z)))).
    split; [reflexivity|vm_compute; discriminate].
  - vm_compute. reflexivity.
Defined.

Lemma toast_tick_one s due a :
  Toast.timers s = [(due, a)] ->
  Toast.tick s
  = Toast.run_timer a
      (Toast.mk (Toast.position s) (Toast.duration s) (Toast.maxToasts s)
         (Toast.children s) (Toast.items s) (Nat.max (Toast.clock s) due) []).
Proof. intros H. unfold Toast.tick. rewrite H. reflexivity. Qed.

Lemma toast_tick_two s d1 a1 d2 a2 :
  Toast.timers s = [(d1, a1); (d2, a2)] ->
  Toast.tick s
  = if Nat.ltb d2 d1
    then Toast.run_timer a2
           (Toast.mk (Toast.position s) (Toast.duration s) (Toast.maxToasts s)
              (Toast.children s) (Toast.items s) (Nat.max (Toast.clock s) d2) [(d1, a1)])
    else Toast.run_timer a1
           (Toast.mk (Toast.position s) (Toast.duration s) (Toast.maxToasts s)
              (Toast.children s) (Toast.items s) (Nat.max (Toast.clock s) d1) [(d2, a2)]).
Proof.
  intros H. unfold Toast.tick. rewrite H. simpl. destruct (Nat.ltb d2 d1); reflexivity.
Qed.

Lemma toast_run_timer_fields a s :
  Toast.timers (Toast.run_timer a s)
  = Toast.timers s
    ++ match a with
       | Toast.AutoRemove toast => [(Toast.clock s + 300, Toast.Detach toast)]
       | _ => []
       end
  /\ Toast.children (Toast.run_timer a s)
     = match a with
       | Toast.Detach toast =>
           filter (fun c => negb (Nat.eqb c toast)) (Toast.children s)
       | _ => Toast.children s
       end
  /\ Toast.clock (Toast.run_timer a s) = Toast.clock s.
Proof. destruct a; simpl; rewrite ?app_nil_r; repeat split. Qed.

(** Property X24. The life of a toast shown alone. With a delay that is not
    positive (a [duration] argument of 0 or less) the toast is sticky: its
    enter timer is the only one, and the toast stays in the container, shown.
    With a positive delay three timers fire (enter, automatic removal, and
    the 300ms detach, the enter timer after the removal when the delay is
    under 10ms) and the container is empty again. *)
Theorem toast_leaves_unless_sticky (msg ty : string) (dur : option Z) (s : Toast.t) :
  Toast.children s = [] ->
  Toast.timers s = [] ->
  (1 <= Toast.maxToasts s)%Z ->
  let toast := List.length (Toast.items s) in
  let s1 := Toast.state_of (Toast.show msg ty dur s) in
  Toast.children s1 = [toast] /\
  ((toast_delay dur s <= 0)%Z ->
   Toast.timers (Toast.tick s1) = [] /\
   Toast.children (Toast.tick s1) = [toast] /\
   nth_error (Toast.items (Toast.tick s1)) toast
   = Some (Toast.mkItem ty msg "1" "translateX(0)")) /\
  ((0 < toast_delay dur s)%Z ->
   Toast.timers (Toast.ticks 3 s1) = [] /\
   Toast.children (Toast.ticks 3 s1) = []).
Proof.
  intros Hch Htm Hcap toast s1.
  destruct (toast_show_unfold msg ty dur s) as (s0 & Hshow & _ & Hcase).
  { left. rewrite Hch. simpl. lia. }
  destruct Hcase as [(Ht0 & Hi0 & _)|(oldest & Hhd & _)];
    [|rewrite Hch in Hhd; discriminate].
  subst s1. rewrite Hshow. simpl Toast.state_of. rewrite Ht0, Hi0, Htm, Hch.
  fold toast. simpl app.
  split; [reflexivity|]. split.
  - intros Hd. destruct (Z.gtb_spec (toast_delay dur s) 0) as [H|_]; [lia|].
    erewrite toast_tick_one by reflexivity.
    simpl. split; [reflexivity|]. split; [reflexivity|].
    subst toast. rewrite toast_set_nth_last.
    rewrite nth_error_app2, Nat.sub_diag by apply Nat.le_refl. reflexivity.
  - intros Hd. destruct (Z.gtb_spec (toast_delay dur s) 0) as [_|H]; [|lia].
    set (e := Z.to_nat (toast_delay dur s)).
    simpl Toast.ticks.
    match goal with
    | |- context [Toast.tick (Toast.tick (Toast.tick ?x))] =>
        rewrite (toast_tick_two x _ _ _ _ eq_refl)
    end.
    destruct (Nat.ltb_spec (Toast.clock s + e) (Toast.clock s + 10)) as [Hlt|Hge].
    + match goal with
      | |- context [Toast.tick (Toast.run_timer ?a ?x)] =>
          pose proof (toast_run_timer_fields a x) as F;
          remember (Toast.run_timer a x) as u eqn:Eu; clear Eu;
          simpl in F; destruct F as (T1 & C1 & K1)
      end.
      rewrite (toast_tick_two u _ _ _ _ T1).
      destruct (Nat.ltb_spec (Nat.max (Toast.clock s) (Toast.clock s + e) + 300)
                  (Toast.clock s + 10)) as [Hbad|_]; [lia|].
      match goal with
      | |- context [Toast.tick (Toast.run_timer ?a ?x)] =>
          pose proof (toast_run_timer_fields a x) as F;
          remember (Toast.run_timer a x) as v eqn:Ev; clear Ev;
          simpl in F; destruct F as (T2 & C2 & K2)
      end.
      rewrite (toast_tick_one v _ _ T2).
      match goal with
      | |- context [Toast.run_timer ?a ?x] =>
          destruct (toast_run_timer_fields a x) as (T3 & C3 & _)
      end.
      rewrite T3, C3. simpl. rewrite C2, C1. simpl. rewrite Nat.eqb_refl.
      split; reflexivity.
    + match goal with
      | |- context [Toast.tick (Toast.run_timer ?a ?x)] =>
          pose proof (toast_run_timer_fields a x) as F;
          remember (Toast.run_timer a x) as u eqn:Eu; clear Eu;
          simpl in F; destruct F as (T1 & C1 & K1)
      end.
      rewrite (toast_tick_one u _ _ T1).
      match goal with
      | |- context [Toast.tick (Toast.run_timer ?a ?x)] =>
          pose proof (toast_run_timer_fields a x) as F;
          remember (Toast.run_timer a x) as v eqn:Ev; clear Ev;
          simpl in F; destruct F as (T2 & C2 & K2)
      end.
      rewrite (toast_tick_one v _ _ T2).
      match goal with
      | |- context [Toast.run_timer ?a ?x] =>
          destruct (toast_run_timer_fields a x) as (T3 & C3 & _)
      end.
      rewrite T3, C3. simpl. rewrite C2, C1. simpl. rewrite Nat.eqb_refl.
      split; reflexivity.
Qed.

Lemma toast_leaves_unless_sticky_witness :
  let s := Toast.new (Some "bottom-left") None None in
  let sticky := Toast.state_of (Toast.show "kept" "info" (Some 0%Z) s) in
  let timed := Toast.state_of (Toast.show "gone" "info" (Some 5%Z) s) in
  Toast.children (Toast.tick sticky) = [0] /\ Toast.timers (Toast.tick sticky) = [] /\
  Toast.children (Toast.ticks 3 timed) = [] /\ Toast.timers (Toast.ticks 3 timed) = [].
Proof.
  intros s sticky timed.
  assert (Hcap : (1 <= Toast.maxToasts s)%Z) by (vm_compute; discriminate).
  destruct (toast_leaves_unless_sticky "kept" "info" (Some 0%Z) s eq_refl eq_refl Hcap)
    as (_ & H1 & _).
  destruct (toast_leaves_unless_sticky "gone" "info" (Some 5%Z) s eq_refl eq_refl Hcap)
    as (_ & _ & H2).
  destruct H1 as (T1 & C1 & _); [vm_compute; discriminate|].
  destruct H2 as (T2 & C2); [reflexivity|].
  split; [exact C1|]. split; [exact T1|]. split; [exact C2|exact T2].
Defined.

(* ================================================================= *)
(** ** Debounce *)

Lemma debounce_last_cons {A} (a d : A) l : last (a :: l) d = last l a.
Proof.
  revert a d. induction l as [|b l IH]; intros a d; [reflexivity|].
  change (last (a :: b :: l) d) with (last (b :: l) d).
  now rewrite (IH b d), (IH b a).
Qed.

Lemma debounce_burst_state b s a0 :
  forallb (fun p => Nat.ltb (fst p) (Debounce.wait s)) b = true ->
  debounce_burst b (Debounce.invoke a0 s)
  = Debounce.mk (Debounce.wait s)
      (Debounce.clock s + list_sum (map fst b))
      (Some (Debounce.clock s + list_sum (map fst b) + Debounce.wait s,
             last (map snd b) a0))
      (Debounce.calls s).
Proof.
  revert s a0. induction b as [|[g a] b IH]; intros s a0 Hgap.
  - simpl. unfold Debounce.invoke. now rewrite Nat.add_0_r.
  - simpl in Hgap. apply andb_prop in Hgap as [Hg Hgap].
    apply Nat.ltb_lt in Hg.
    unfold debounce_burst. simpl fold_left.
    fold (debounce_burst b
            (Debounce.invoke a (Debounce.elapse g (Debounce.invoke a0 s)))).
    assert (He : Debounce.elapse g (Debounce.invoke a0 s)
                 = Debounce.mk (Debounce.wait s) (Debounce.clock s + g)
                     (Some (Debounce.clock s + Debounce.wait s, a0)) (Debounce.calls s)).
    { unfold Debounce.elapse, Debounce.invoke. simpl.
      destruct (Nat.leb_spec (Debounce.clock s + Debounce.wait s) (Debounce.clock s + g));
        [lia|reflexivity]. }
    rewrite He, IH by exact Hgap.
    change (map snd ((g, a) :: b)) with (a :: map snd b).
    rewrite debounce_last_cons.
    change (list_sum (map fst ((g, a) :: b))) with (g + list_sum (map fst b)).
    simpl Debounce.wait. simpl Debounce.clock. simpl Debounce.calls.
    rewrite !Nat.add_assoc. reflexivity.
Qed.

(** Property X25. A debounced function called in a burst, each call less than
    [wait] after the one before, calls [func] once: nothing during the burst
    nor before [wait] has passed since its last call, and then one call with
    the arguments of the last call, whatever timer was pending before. *)
Theorem debounce_burst_calls_once (s : Debounce.t) (a0 : list JsVal)
    (b : list (nat * list JsVal)) (d : nat) :
  forallb (fun p => Nat.ltb (fst p) (Debounce.wait s)) b = true ->
  let s1 := debounce_burst b (Debounce.invoke a0 s) in
  Debounce.calls s1 = Debounce.calls s /\
  (d < Debounce.wait s -> Debounce.calls (Debounce.elapse d s1) = Debounce.calls s) /\
  (Debounce.wait s <= d ->
   Debounce.calls (Debounce.elapse d s1)
   = Debounce.calls s ++ [(Debounce.clock s1 + Debounce.wait s, last (map snd b) a0)]
   /\ Debounce.timeout (Debounce.elapse d s1) = None).
Proof.
  intros Hgap s1. subst s1. rewrite (debounce_burst_state b s a0 Hgap).
  split; [reflexivity|]. unfold Debounce.elapse. simpl. split.
  - intros Hd.
    destruct (Nat.leb_spec (Debounce.clock s + list_sum (map fst b) + Debounce.wait s)
                (Debounce.clock s + list_sum (map fst b) + d)); [lia|reflexivity].
  - intros Hd.
    destruct (Nat.leb_spec (Debounce.clock s + list_sum (map fst b) + Debounce.wait s)
                (Debounce.clock s + list_sum (map fst b) + d)); [|lia].
    split; reflexivity.
Qed.

Lemma debounce_burst_calls_once_witness :
  let s := Debounce.invoke [VStr "stale"] (Debounce.new 300 0) in
  let b := [(100, [VNum 2]); (299, [VNum 3])] in
  let s1 := debounce_burst b (Debounce.invoke [VNum 1] s) in
  Debounce.calls (Debounce.elapse 299 s1) = [] /\
  Debounce.calls (Debounce.elapse 300 s1) = [(699, [VNum 3])].
Proof.
  intros s b s1.
  split.
  - apply (proj1 (proj2 (debounce_burst_calls_once s [VNum 1] b 299 eq_refl))).
    vm_compute. reflexivity.
  - apply (proj1 (proj2 (proj2 (debounce_burst_calls_once s [VNum 1] b 300 eq_refl))
                    (Nat.le_refl 300))).
Defined.

(* ================================================================= *)
(** ** Throttle *)

Lemma spaced_snoc limit l t :
  spaced limit (l ++ [t])
  = spaced limit l
    && match hd_error (rev l) with
       | Some t' => Nat.leb (t' + limit) t
       | None => true
       end.
Proof.
  induction l as [|x l IH]; [reflexivity|].
  destruct l as [|y l].
  - simpl. now rewrite andb_true_r.
  - change (spaced limit ((x :: y :: l) ++ [t]))
      with (Nat.leb (x + limit) y && spaced limit ((y :: l) ++ [t])).
    rewrite IH.
    change (spaced limit (x :: y :: l))
      with (Nat.leb (x + limit) y && spaced limit (y :: l)).
    rewrite <- andb_assoc. f_equal. f_equal.
    change (rev (x :: y :: l)) with (rev (y :: l) ++ [x]).
    destruct (rev (y :: l)) as [|z r] eqn:E; [|reflexivity].
    exfalso. apply (f_equal (@List.length nat)) in E. simpl in E.
    rewrite length_app in E. simpl in E. lia.
Qed.

Lemma throttle_inv_step a s : throttle_inv s -> throttle_inv (Throttle.step a s).
Proof.
  intros [Hsp Hlast]. destruct a as [args|d]; simpl.
  - unfold Throttle.invoke.
    destruct (Throttle.inThrottle s) eqn:Hin; simpl;
      [unfold throttle_inv; rewrite Hin; split; assumption|].
    unfold throttle_inv. simpl. rewrite map_app, rev_app_distr. simpl.
    split.
    + rewrite spaced_snoc, Hsp. simpl.
      destruct (hd_error (rev (map fst (Throttle.calls s)))) as [t|]; [|reflexivity].
      apply Nat.leb_le. apply Hlast.
    + split; [lia|].
      destruct (hd_error (rev (map fst (Throttle.calls s)))) as [t|].
      * destruct Hlast as (_ & -> & _). reflexivity.
      * destruct Hlast as (_ & ->). reflexivity.
  - unfold throttle_inv, Throttle.elapse. simpl. split; [exact Hsp|].
    destruct (hd_error (rev (map fst (Throttle.calls s)))) as [t|].
    + destruct Hlast as (Hle & Hcase). split; [lia|].
      destruct (Throttle.inThrottle s).
      * rewrite Hcase. simpl.
        destruct (Nat.leb_spec (t + Throttle.limit s) (Throttle.clock s + d)); simpl.
        -- split; [reflexivity|lia].
        -- reflexivity.
      * destruct Hcase as [-> Hc]. simpl. split; [reflexivity|lia].
    + destruct Hlast as [-> ->]. simpl. split; reflexivity.
Qed.

Lemma throttle_inv_run tr s : throttle_inv s -> throttle_inv (Throttle.run tr s).
Proof.
  revert s. induction tr as [|a tr IH]; intros s H; [exact H|].
  simpl. apply IH. now apply throttle_inv_step.
Qed.

Lemma throttle_calls_from_trace tr s t args :
  In (t, args) (Throttle.calls (Throttle.run tr s)) ->
  In (t, args) (Throttle.calls s) \/ In (Throttle.Invoke args) tr.
Proof.
  revert s. induction tr as [|a tr IH]; intros s Hin; [now left|].
  simpl in Hin. apply IH in Hin as [Hin|Hin]; [|right; now right].
  destruct a as [args'|d]; simpl in Hin.
  - unfold Throttle.invoke in Hin. destruct (Throttle.inThrottle s); simpl in Hin.
    + now left.
    + apply in_app_or in Hin as [Hin|[E|[]]]; [now left|].
      injection E as _ <-. right. now left.
  - now left.
Qed.

(** Property X26. A throttled function lets [func] through at most once per
    [limit]: over any sequence of calls and waits, the calls of [func] are in
    time order and each comes at least [limit] after the one before. A call
    that is held back is dropped, not deferred: [func] only ever gets the
    arguments of a call that was made, and while [inThrottle] is set exactly
    one reset timer is pending. *)
Theorem throttle_calls_are_spaced (limit now : nat) (tr : list Throttle.Action) :
  let s := Throttle.run tr (Throttle.new limit now) in
  spaced limit (map fst (Throttle.calls s)) = true /\
  (forall t args, In (t, args) (Throttle.calls s) -> In (Throttle.Invoke args) tr) /\
  (Throttle.inThrottle s = true -> List.length (Throttle.timers s) = 1) /\
  (Throttle.inThrottle s = false -> Throttle.timers s = []) /\
  (forall args,
      Throttle.inThrottle s = true -> Throttle.invoke args s = s).
Proof.
  intros s.
  assert (Hlim : forall tr0 s0, Throttle.limit (Throttle.run tr0 s0) = Throttle.limit s0).
  { induction tr0 as [|a tr0 IH]; intros s0; [reflexivity|].
    simpl. rewrite IH. destruct a; simpl; [|reflexivity].
    unfold Throttle.invoke. destruct (Throttle.inThrottle s0); reflexivity. }
  assert (Hinv : throttle_inv s).
  { subst s. apply throttle_inv_run. split; [reflexivity|]. simpl. split; reflexivity. }
  destruct Hinv as [Hsp Hlast].
  split.
  { subst s. rewrite Hlim in Hsp. exact Hsp. }
  split.
  { intros t args Hin. apply throttle_calls_from_trace in Hin as [[]|Hin]. exact Hin. }
  destruct (hd_error (rev (map fst (Throttle.calls s)))) as [t|].
  - destruct Hlast as (_ & Hcase).
    destruct (Throttle.inThrottle s) eqn:Hin.
    + split; [intros _; now rewrite Hcase|]. split; [discriminate|].
      intros args _. unfold Throttle.invoke. now rewrite Hin.
    + split; [discriminate|]. split; [intros _; apply Hcase|]. discriminate.
  - destruct Hlast as [Hin Ht]. rewrite Hin.
    split; [discriminate|]. split; [intros _; exact Ht|]. discriminate.
Qed.

Lemma throttle_calls_are_spaced_witness :
  let tr := [Throttle.Invoke [VNum 1]; Throttle.Elapse 100; Throttle.Invoke [VNum 2];
             Throttle.Elapse 200; Throttle.Invoke [VNum 3]] in
  let s := Throttle.run tr (Throttle.new 300 0) in
  spaced 300 (map fst (Throttle.calls s)) = true /\
  Throttle.calls s = [(0, [VNum 1]); (300, [VNum 3])].
Proof.
  intros tr s. split.
  - exact (proj1 (throttle_calls_are_spaced 300 0 tr)).
  - vm_compute. reflexivity.
Defined.

(* ================================================================= *)
(** ** The form validator *)

Section FormValidatorFacts.

Variable trim : string -> string.
Variable str_length : string -> Z.
Variable email_test : string -> bool.
Variable pattern_test : string -> string -> option bool.
Variable parseInt : string -> option Z.
Variable show_number : Z -> string.
Variables errorClass successClass : string.

Let check := FormValidator.check trim str_length email_test pattern_test parseInt show_number.
Let validateField :=
  FormValidator.validateField trim str_length email_test pattern_test parseInt show_number
    errorClass successClass.
Let validate_from :=
  FormValidator.validate_from trim str_length email_test pattern_test parseInt show_number
    errorClass successClass.

Lemma validateField_shows f pg :
  errorClass <> successClass ->
  check f <> FormValidator.Throws ->
  fst (validateField f pg) = Some (FormValidator.is_valid (check f)) /\
  shows errorClass successClass (check f) (snd (validateField f pg) (FormValidator.parent f)) /\
  (forall e, e <> FormValidator.parent f -> snd (validateField f pg) e = pg e).
Proof.
  intros Hne Hthrows. unfold validateField, FormValidator.validateField.
  fold check. destruct (check f) as [|m|] eqn:Ec; [| |contradiction].
  - simpl. split; [reflexivity|]. split.
    + unfold shows, FormValidator.update, FormValidator.clearFieldError. simpl.
      rewrite Nat.eqb_refl. simpl. unfold FormValidator.update.
      rewrite Nat.eqb_refl. simpl.
      split; [|split; [apply ClassListFacts.contains_add_same|trivial]].
      rewrite ClassListFacts.contains_add_other by exact Hne.
      rewrite ClassListFacts.contains_remove_other by exact Hne.
      apply ClassListFacts.contains_remove_same.
    + intros e He. unfold FormValidator.update, FormValidator.clearFieldError.
      unfold FormValidator.update. apply Nat.eqb_neq in He. now rewrite He.
  - simpl. split; [reflexivity|]. split.
    + unfold shows, FormValidator.showError, FormValidator.update,
        FormValidator.clearFieldError. simpl.
      rewrite Nat.eqb_refl. simpl. unfold FormValidator.update.
      rewrite Nat.eqb_refl. simpl.
      split; [apply ClassListFacts.contains_add_same|]. split.
      * rewrite ClassListFacts.contains_add_other by (intros E; apply Hne; now symmetry).
        apply ClassListFacts.contains_remove_same.
      * destruct (tl (FormValidator.error_messages (pg (FormValidator.parent f))));
          reflexivity.
    + intros e He. unfold FormValidator.showError, FormValidator.update,
        FormValidator.clearFieldError.
      unfold FormValidator.update. apply Nat.eqb_neq in He. now rewrite He.
Qed.

Lemma validate_from_shows fields isValid pg :
  errorClass <> successClass ->
  (forall f, In f fields -> check f <> FormValidator.Throws) ->
  fst (validate_from fields isValid pg)
  = Some (isValid && forallb (fun f => FormValidator.is_valid (check f)) fields) /\
  (forall pre f post,
      fields = pre ++ f :: post ->
      (forall g, In g post -> FormValidator.parent g <> FormValidator.parent f) ->
      shows errorClass successClass (check f)
        (snd (validate_from fields isValid pg) (FormValidator.parent f))) /\
  (forall e, (forall f, In f fields -> FormValidator.parent f <> e) ->
             snd (validate_from fields isValid pg) e = pg e).
Proof.
  intros Hne. revert isValid pg.
  induction fields as [|f0 fields IH]; intros isValid pg Hthrows.
  - simpl. rewrite andb_true_r. split; [reflexivity|]. split; [|reflexivity].
    intros [|x pre] f post E; discriminate.
  - destruct (validateField_shows f0 pg Hne (Hthrows f0 (or_introl eq_refl)))
      as (Hres & Hshow & Hframe).
    unfold validate_from. simpl. fold validateField.
    destruct (validateField f0 pg) as [r pg1] eqn:Ev. simpl in Hres, Hshow, Hframe.
    subst r. fold validate_from.
    destruct (IH (if negb (FormValidator.is_valid (check f0)) then false else isValid) pg1)
      as (Hr & Hs & Hf).
    { intros f Hin. apply Hthrows. now right. }
    split.
    { rewrite Hr. destruct (FormValidator.is_valid (check f0)), isValid; reflexivity. }
    split.
    + intros pre f post E Hlast. destruct pre as [|x pre].
      * simpl in E. injection E as <- <-.
        rewrite Hf; [exact Hshow|]. intros g Hg. now apply Hlast.
      * simpl in E. injection E as <- E. now apply (Hs pre f post).
    + intros e He. rewrite Hf.
      * apply Hframe. intros E. apply (He f0); [now left|now symmetry].
      * intros f Hin. apply He. now right.
Qed.

(** Property X27. [validate] checks every field, whatever the fields before it
    gave, and answers whether all are valid. Each validation first clears
    the field's parent, so a parent shows the verdict of the last of its
    fields only: an invalid field followed by a valid one under the same
    parent leaves the success class and no error class, while [validate]
    answers false. Parents of no field are left alone. *)
Theorem validate_marks_last_field_of_parent (fields : list FormValidator.Field)
    (pg : FormValidator.Page) :
  errorClass <> successClass ->
  (forall f, In f fields -> check f <> FormValidator.Throws) ->
  let r :=
    FormValidator.validate trim str_length email_test pattern_test parseInt show_number
      errorClass successClass fields pg in
  fst r = Some (forallb (fun f => FormValidator.is_valid (check f)) fields) /\
  (forall pre f post,
      fields = pre ++ f :: post ->
      (forall g, In g post -> FormValidator.parent g <> FormValidator.parent f) ->
      shows errorClass successClass (check f) (snd r (FormValidator.parent f))) /\
  (forall e, (forall f, In f fields -> FormValidator.parent f <> e) -> snd r e = pg e).
Proof.
  intros Hne Hthrows r. subst r. unfold FormValidator.validate. fold validate_from.
  destruct (validate_from_shows fields true pg Hne Hthrows) as (H1 & H2 & H3).
  split; [exact H1|]. split; [exact H2|exact H3].
Qed.

End FormValidatorFacts.

Lemma validate_marks_last_field_of_parent_witness :
  let trim := fun s : string => s in
  let str_length := fun s : string => Z.of_nat (String.length s) in
  let email_test := fun s : string => match String.index 0 "@" s with
                                      | Some _ => true
                                      | None => false
                                      end in
  let pattern_test := fun _ _ : string => Some true in
  let parseInt := fun _ : string => Some 3%Z in
  let show_number := fun z : Z => NilZero.string_of_int (Z.to_int z) in
  let name := FormValidator.mkField "" "text" true None None None None 1 in
  let city := FormValidator.mkField "Oslo" "text" false (Some "3") None None None 1 in
  let pg := fun _ : Elem => FormValidator.mkParent [] [] in
  let r :=
    FormValidator.validate trim str_length email_test pattern_test parseInt show_number
      "error" "success" [name; city] pg in
  fst r = Some false /\
  ClassList.contains "error" (FormValidator.classes (snd r 1)) = false /\
  ClassList.contains "success" (FormValidator.classes (snd r 1)) = true.
Proof.
  intros trim str_length email_test pattern_test parseInt show_number name city pg r.
  assert (Hne : "error" <> "success") by discriminate.
  assert (Hth : forall f, In f [name; city] ->
                          FormValidator.check trim str_length email_test pattern_test
                            parseInt show_number f <> FormValidator.Throws).
  { intros f [<-|[<-|[]]]; vm_compute; discriminate. }
  destruct (validate_marks_last_field_of_parent trim str_length email_test pattern_test
              parseInt show_number "error" "success" [name; city] pg Hne Hth)
    as (H1 & H2 & _).
  split; [exact H1|].
  destruct (H2 [name] city [] eq_refl) as (E & S & _); [intros g []|].
  split; [exact E|exact S].
Defined.

(* ================================================================= *)
(** ** The sticky header *)

(** Property X29. The scroll handler is throttled with no trailing call, so the
    header can be left showing an old scroll position. After a scroll event
    that was handled, a second one less than 100ms later is dropped, also
    once the throttle has been released: when the first found the page below
    the offset and the second finds it back at the top, the header keeps its
    sticky class until some later scroll event. *)
Theorem sticky_header_misses_last_scroll (s : StickyHeader.t) (y1 y2 : Z)
    (d d' : nat) :
  StickyHeader.inThrottle s = false ->
  StickyHeader.timers s = [] ->
  d < 100 ->
  let s1 := StickyHeader.elapse d (StickyHeader.scroll y1 s) in
  let s2 := StickyHeader.elapse d' (StickyHeader.scroll y2 s1) in
  StickyHeader.scroll y2 s1 = s1 /\
  StickyHeader.lastScroll s2 = y1 /\
  ((StickyHeader.offset s < y1)%Z ->
   ClassList.contains (StickyHeader.stickyClass s) (StickyHeader.classes s2) = true) /\
  (100 <= d + d' -> StickyHeader.inThrottle s2 = false /\ StickyHeader.timers s2 = []).
Proof.
  intros Hin Ht Hd s1 s2.
  set (s0 := StickyHeader.scroll y1 s) in *.
  assert (E0 : StickyHeader.inThrottle s0 = true
               /\ StickyHeader.timers s0 = [StickyHeader.clock s + 100]
               /\ StickyHeader.clock s0 = StickyHeader.clock s
               /\ StickyHeader.lastScroll s0 = y1
               /\ StickyHeader.stickyClass s0 = StickyHeader.stickyClass s
               /\ StickyHeader.classes s0
                  = (if Z.gtb y1 (StickyHeader.offset s)
                     then ClassList.add (StickyHeader.stickyClass s) (StickyHeader.classes s)
                     else ClassList.remove (StickyHeader.stickyClass s)
                            (StickyHeader.classes s))).
  { subst s0. unfold StickyHeader.scroll. rewrite Hin.
    unfold StickyHeader.onScroll.
    destruct (Z.gtb y1 (StickyHeader.offset s));
      cbn [negb StickyHeader.inThrottle StickyHeader.timers StickyHeader.clock
             StickyHeader.lastScroll StickyHeader.stickyClass StickyHeader.classes];
      rewrite Ht; repeat split. }
  clearbody s0. destruct E0 as (I0 & T0 & K0 & L0 & N0 & C0).
  assert (Hnot : Nat.leb (StickyHeader.clock s + 100) (StickyHeader.clock s + d) = false)
    by (apply Nat.leb_gt; lia).
  assert (E1 : StickyHeader.inThrottle s1 = true
               /\ StickyHeader.timers s1 = [StickyHeader.clock s + 100]
               /\ StickyHeader.clock s1 = StickyHeader.clock s + d
               /\ StickyHeader.lastScroll s1 = y1
               /\ StickyHeader.classes s1 = StickyHeader.classes s0).
  { subst s1. unfold StickyHeader.elapse.
    cbn [StickyHeader.inThrottle StickyHeader.timers StickyHeader.clock
           StickyHeader.lastScroll StickyHeader.classes].
    rewrite T0, K0. cbn [existsb filter orb]. rewrite Hnot.
    cbn [negb]. repeat split; assumption. }
  clearbody s1. destruct E1 as (I1 & T1 & K1 & L1 & C1).
  assert (E2 : StickyHeader.scroll y2 s1 = s1).
  { unfold StickyHeader.scroll. now rewrite I1. }
  split; [exact E2|]. subst s2. rewrite E2.
  unfold StickyHeader.elapse.
  cbn [StickyHeader.inThrottle StickyHeader.timers StickyHeader.clock
         StickyHeader.lastScroll StickyHeader.classes].
  split; [exact L1|]. split.
  - intros Hy. rewrite C1, C0. destruct (Z.gtb_spec y1 (StickyHeader.offset s)); [|lia].
    apply ClassListFacts.contains_add_same.
  - intros Hdd. rewrite T1, K1. cbn [existsb filter orb].
    assert (Hdue : Nat.leb (StickyHeader.clock s + 100) (StickyHeader.clock s + d + d')
                   = true) by (apply Nat.leb_le; lia).
    rewrite Hdue. split; reflexivity.
Qed.

Lemma sticky_header_misses_last_scroll_witness :
  let s := StickyHeader.mk 100 "sticky" false 0 [] "" false 0 [] in
  let s2 :=
    StickyHeader.elapse 500
      (StickyHeader.scroll 0 (StickyHeader.elapse 40 (StickyHeader.scroll 800 s))) in
  StickyHeader.lastScroll s2 = 800%Z /\
  ClassList.contains "sticky" (StickyHeader.classes s2) = true /\
  StickyHeader.inThrottle s2 = false.
Proof.
  intros s s2.
  assert (Hd : 40 < 100) by (apply Nat.ltb_lt; reflexivity).
  destruct (sticky_header_misses_last_scroll s 800 0 40 500 eq_refl eq_refl Hd)
    as (_ & H1 & H2 & H3).
  split; [exact H1|]. split; [apply H2; reflexivity|].
  apply H3. apply Nat.leb_le. reflexivity.
Defined.
